(** * Ownership primitives: control blocks, shared / weak / exclusive pointers

    A shallow embedding of the smart-pointer family (weak/shared.h,
    weak/weak.h, shared-from-this/weak.h, unique/unique.h,
    unique/compressed_pair.h) together with the lifecycle properties of the
    control block: when the payload is destroyed, when the block is freed,
    and what the observers report in between.  Payloads that have shared
    or weak pointers among their own members, and so call back into the
    library from their destructors, are embedded in [Payload].  The first
    variant of the shared pointer (shared/shared.h) is embedded beside it
    and shown to refine it; the intrusive pointer (intrusive/intrusive.h)
    and programs over exclusive-ownership pointers come with their own
    bookkeeping. *)

From stdpp Require Import gmap list.
From Stdlib Require Import ZArith Lia.

Local Open Scope Z_scope.

(** ** Machine integers and addresses *)

(** [size_t] on the LP64 targets the library is built for: 64 bits, with the
    wrap-around of unsigned arithmetic written out. *)
Definition SIZE_MOD : Z := 2 ^ 64.

Definition size_wrap (z : Z) : Z := z mod SIZE_MOD.

(** [++c] and [--c] on a [size_t]. *)
Definition size_incr (c : Z) : Z := size_wrap (c + 1).
Definition size_decr (c : Z) : Z := size_wrap (c - 1).

(** Address of a payload object: either an object allocated by the caller
    ([new T]) or the aligned storage embedded in control block [b]
    ([MakeSharedControlBlock::Get]).  A [T*] is an [option obj_addr], with
    [None] for [nullptr]; a [BaseControlBlock*] is an [option nat]. *)
Inductive obj_addr :=
| ObjAt (a : N)
| StorageOf (b : nat).

Global Instance obj_addr_eq_dec : EqDecision obj_addr.
Proof. solve_decision. Defined.

Global Instance obj_addr_countable : Countable obj_addr.
Proof.
  refine (inj_countable' (λ p, match p with ObjAt a => inl a | StorageOf b => inr b end)
                         (λ s, match s with inl a => ObjAt a | inr b => StorageOf b end) _).
  by intros [].
Defined.

(** ** Control blocks (weak/shared.h) *)

(** The two concrete blocks differ only in how they hold the payload. *)
Inductive BlockData :=
| PtrData (ptr_ : option obj_addr)
| MakeSharedData (was_data_deleted_ : bool).

Global Instance BlockData_eq_dec : EqDecision BlockData.
Proof. solve_decision. Defined.

Record ControlBlock := {
  shared_counter_ : Z;
  weak_counter_ : Z;
  payload_ : BlockData
}.

Definition set_shared (c : Z) (cb : ControlBlock) : ControlBlock :=
  {| shared_counter_ := c; weak_counter_ := weak_counter_ cb; payload_ := payload_ cb |}.
Definition set_weak (c : Z) (cb : ControlBlock) : ControlBlock :=
  {| shared_counter_ := shared_counter_ cb; weak_counter_ := c; payload_ := payload_ cb |}.
Definition set_data (d : BlockData) (cb : ControlBlock) : ControlBlock :=
  {| shared_counter_ := shared_counter_ cb; weak_counter_ := weak_counter_ cb; payload_ := d |}.

(** What the program does to the free store, in order. *)
Inductive event :=
| EvAlloc (b : nat) (d : BlockData)  (* new ...ControlBlock, holding d *)
| EvConstruct (b : nat)              (* placement new of the payload succeeded *)
| EvDestroy (b : nat) (p : obj_addr) (* delete ptr_ / Get()->~T() *)
| EvFree (b : nat).                  (* the block's memory is released *)

Global Instance event_eq_dec : EqDecision event.
Proof. solve_decision. Defined.

(** The free store: live control blocks by identity, the next fresh identity
    (identities are never reused), and the event log. *)
Record Mem := {
  heap : gmap nat ControlBlock;
  next_block : nat;
  log : list event
}.

Definition empty_mem : Mem := {| heap := ∅; next_block := 0%nat; log := [] |}.

(** ** The effect monad: state, C++ exceptions, undefined behaviour *)

Inductive exn :=
| BadWeakPtr
| PayloadFailure (code : nat).

Inductive result (A : Type) :=
| Ok (a : A) (m : Mem)
| Throw (e : exn) (m : Mem)
| UB.
Arguments Ok {A} a m.
Arguments Throw {A} e m.
Arguments UB {A}.

Definition M (A : Type) : Type := Mem → result A.

Definition ret {A} (a : A) : M A := λ m, Ok a m.

Definition bind {A B} (c : M A) (k : A → M B) : M B :=
  λ m, match c m with
       | Ok a m' => k a m'
       | Throw e m' => Throw e m'
       | UB => UB
       end.

Definition throw {A} (e : exn) : M A := λ m, Throw e m.

Declare Scope cpp_scope.
Delimit Scope cpp_scope with cpp.
Notation "'let*' x := c 'in' k" := (bind c (λ x, k))
  (at level 10, x pattern, c at level 100, k at level 200) : cpp_scope.
Notation "c ;; k" := (bind c (λ _, k))
  (at level 100, k at level 200, right associativity) : cpp_scope.
Local Open Scope cpp_scope.

(** Dereferencing a block pointer: undefined once the block was freed. *)
Definition get_block (b : nat) : M ControlBlock :=
  λ m, match heap m !! b with
       | Some cb => Ok cb m
       | None => UB
       end.

Definition put_block (b : nat) (cb : ControlBlock) : M unit :=
  λ m, Ok tt {| heap := <[b := cb]> (heap m); next_block := next_block m; log := log m |}.

Definition emit (e : event) : M unit :=
  λ m, Ok tt {| heap := heap m; next_block := next_block m; log := log m ++ [e] |}.

Definition IncrementShared (b : nat) : M unit :=
  let* cb := get_block b in
  put_block b (set_shared (size_incr (shared_counter_ cb)) cb).

(** [PtrControlBlock::DeleteData] and [MakeSharedControlBlock::DeleteData],
    for a payload without pointer members: the payload's destructor is the
    one event [EvDestroy] and calls nothing of the library, so that nothing
    happens between [delete ptr_] and [ptr_ = nullptr].  Payloads whose
    destructor releases pointers are the subject of [Payload] below. *)
Definition DeleteData (b : nat) : M unit :=
  let* cb := get_block b in
  match payload_ cb with
  | PtrData (Some p) =>
      emit (EvDestroy b p) ;;
      put_block b (set_data (PtrData None) cb)
  | PtrData None => ret tt
  | MakeSharedData false =>
      emit (EvDestroy b (StorageOf b)) ;;
      put_block b (set_data (MakeSharedData true) cb)
  | MakeSharedData true => ret tt
  end.

Definition DecrementShared (b : nat) : M unit :=
  let* cb := get_block b in
  let c := size_decr (shared_counter_ cb) in
  put_block b (set_shared c cb) ;;
  if (c =? 0)%Z then DeleteData b else ret tt.

Definition GetSharedCount (b : nat) : M Z :=
  let* cb := get_block b in ret (shared_counter_ cb).

Definition IncrementWeak (b : nat) : M unit :=
  let* cb := get_block b in
  put_block b (set_weak (size_incr (weak_counter_ cb)) cb).

Definition DecrementWeak (b : nat) : M unit :=
  let* cb := get_block b in
  put_block b (set_weak (size_decr (weak_counter_ cb)) cb).

Definition GetWeakCount (b : nat) : M Z :=
  let* cb := get_block b in ret (weak_counter_ cb).

Definition CanBlockBeDeleted (b : nat) : M bool :=
  let* cb := get_block b in
  ret ((shared_counter_ cb =? 0)%Z && (weak_counter_ cb =? 0)%Z).

(** [new PtrControlBlock<T>(ptr)]: counters start at zero and the constructor
    body calls [IncrementShared]. *)
Definition alloc_block (d : BlockData) : M nat :=
  λ m, let b := next_block m in
       Ok b {| heap := <[b := {| shared_counter_ := 0; weak_counter_ := 0; payload_ := d |}]> (heap m);
               next_block := S b;
               log := log m ++ [EvAlloc b d] |}.

Definition new_PtrControlBlock (ptr : option obj_addr) : M nat :=
  let* b := alloc_block (PtrData ptr) in
  IncrementShared b ;;
  ret b.

Definition new_MakeSharedControlBlock : M nat :=
  let* b := alloc_block (MakeSharedData false) in
  IncrementShared b ;;
  ret b.

Definition free_block (b : nat) : M unit :=
  λ m, match heap m !! b with
       | Some _ => Ok tt {| heap := delete b (heap m); next_block := next_block m;
                            log := log m ++ [EvFree b] |}
       | None => UB
       end.

(** [delete block_]: the virtual destructor runs, then the memory goes.
    [~PtrControlBlock] calls [DeleteData]; [~MakeSharedControlBlock] runs the
    payload destructor unless [was_data_deleted_] is set.  As in
    [DeleteData], the payload has no pointer members. *)
Definition delete_block (b : nat) : M unit :=
  let* cb := get_block b in
  match payload_ cb with
  | PtrData _ => DeleteData b
  | MakeSharedData was_deleted =>
      if was_deleted then ret tt else emit (EvDestroy b (StorageOf b))
  end ;;
  free_block b.

(** [try { c } catch (...) { h; throw; }] *)
Definition try_rethrow {A} (c : M A) (h : M unit) : M A :=
  λ m, match c m with
       | Ok a m' => Ok a m'
       | Throw e m' =>
           match h m' with
           | Ok _ m'' => Throw e m''
           | Throw e' m'' => Throw e' m''
           | UB => UB
           end
       | UB => UB
       end.

(** ** SharedPtr and WeakPtr (weak/shared.h, weak/weak.h) *)

Record SharedPtr := {
  sp_obj_ : option obj_addr;
  sp_block_ : option nat
}.

Record WeakPtr := {
  wp_obj_ : option obj_addr;
  wp_block_ : option nat
}.

Global Instance SharedPtr_eq_dec : EqDecision SharedPtr.
Proof. solve_decision. Defined.
Global Instance WeakPtr_eq_dec : EqDecision WeakPtr.
Proof. solve_decision. Defined.

(** [WeakPtr::Expired] *)
Definition WeakPtr_Expired (this : WeakPtr) : M bool :=
  match wp_block_ this with
  | Some b => let* c := GetSharedCount b in ret (c =? 0)%Z
  | None => ret true
  end.

(** [SharedPtr()] and [SharedPtr(std::nullptr_t)] *)
Definition SharedPtr_default : SharedPtr := {| sp_obj_ := None; sp_block_ := None |}.

(** [explicit SharedPtr(T* ptr)] and its [Y*] template twin *)
Definition SharedPtr_from_raw (ptr : option obj_addr) : M SharedPtr :=
  let* b := new_PtrControlBlock ptr in
  ret {| sp_obj_ := ptr; sp_block_ := Some b |}.

(** [SharedPtr(const SharedPtr& other)] and its converting twin *)
Definition SharedPtr_copy (other : SharedPtr) : M SharedPtr :=
  let this := {| sp_obj_ := sp_obj_ other; sp_block_ := sp_block_ other |} in
  match sp_block_ this with
  | Some b => IncrementShared b ;; ret this
  | None => ret this
  end.

(** [Swap]: returns the new [*this] and the new [other]. *)
Definition SharedPtr_Swap (this other : SharedPtr) : SharedPtr * SharedPtr :=
  ({| sp_obj_ := sp_obj_ other; sp_block_ := sp_block_ other |},
   {| sp_obj_ := sp_obj_ this; sp_block_ := sp_block_ this |}).

(** [SharedPtr(SharedPtr&& other)]: the members take their default
    initialisers, then [Swap(other)]. *)
Definition SharedPtr_move (other : SharedPtr) : SharedPtr * SharedPtr :=
  SharedPtr_Swap SharedPtr_default other.

(** [SharedPtr(SharedPtr<Y>&& other)] *)
Definition SharedPtr_move_conv (other : SharedPtr) : SharedPtr * SharedPtr :=
  ({| sp_obj_ := sp_obj_ other; sp_block_ := sp_block_ other |},
   {| sp_obj_ := None; sp_block_ := None |}).

(** [SharedPtr(T* obj, BaseControlBlock* block)]: adopts, no increment. *)
Definition SharedPtr_adopt (obj : option obj_addr) (block : option nat) : SharedPtr :=
  {| sp_obj_ := obj; sp_block_ := block |}.

(** Aliasing constructor [SharedPtr(const SharedPtr<Y>& other, T* ptr)] *)
Definition SharedPtr_alias (other : SharedPtr) (ptr : option obj_addr) : M SharedPtr :=
  let this := {| sp_obj_ := ptr; sp_block_ := sp_block_ other |} in
  match sp_block_ this with
  | Some b => IncrementShared b ;; ret this
  | None => ret this
  end.

(** Promotion [SharedPtr(const WeakPtr<T>& other, bool from_lock = false)] *)
Definition SharedPtr_from_weak (other : WeakPtr) (from_lock : bool) : M SharedPtr :=
  let this := {| sp_obj_ := wp_obj_ other; sp_block_ := wp_block_ other |} in
  match sp_block_ this with
  | Some b =>
      let* expired := WeakPtr_Expired other in
      let* this :=
        (if expired
         then if from_lock
              then ret {| sp_obj_ := None; sp_block_ := sp_block_ this |}
              else throw BadWeakPtr
         else ret this) in
      IncrementShared b ;;
      ret this
  | None => ret this
  end.

(** [SharedPtr::Reset()], which is also the whole body of [~SharedPtr]. *)
Definition SharedPtr_Reset (this : SharedPtr) : M SharedPtr :=
  match sp_block_ this with
  | Some b =>
      DecrementShared b ;;
      let* deletable := CanBlockBeDeleted b in
      (if deletable then delete_block b else ret tt) ;;
      ret {| sp_obj_ := None; sp_block_ := None |}
  | None => ret {| sp_obj_ := None; sp_block_ := sp_block_ this |}
  end.

(** [Reset(T* ptr)] and its [Y*] template twin *)
Definition SharedPtr_Reset_ptr (this : SharedPtr) (ptr : option obj_addr) : M SharedPtr :=
  SharedPtr_Reset this ;;
  let* b := new_PtrControlBlock ptr in
  ret {| sp_obj_ := ptr; sp_block_ := Some b |}.

(** [operator=(const SharedPtr&)]; [self] is the test [this == &other]. *)
Definition SharedPtr_assign (self : bool) (this other : SharedPtr) : M SharedPtr :=
  if self then ret this
  else
    SharedPtr_Reset this ;;
    let this := {| sp_obj_ := sp_obj_ other; sp_block_ := sp_block_ other |} in
    match sp_block_ this with
    | Some b => IncrementShared b ;; ret this
    | None => ret this
    end.

(** [operator=(SharedPtr&&)]: returns the new [*this] and the new [other]. *)
Definition SharedPtr_move_assign (self : bool) (this other : SharedPtr)
  : M (SharedPtr * SharedPtr) :=
  if self then ret (this, other)
  else
    let* this := SharedPtr_Reset this in
    ret (SharedPtr_Swap this other).

Definition SharedPtr_Get (this : SharedPtr) : option obj_addr := sp_obj_ this.

Definition SharedPtr_UseCount (this : SharedPtr) : M Z :=
  match sp_block_ this with
  | Some b => GetSharedCount b
  | None => ret 0
  end.

(** [explicit operator bool() const] *)
Definition SharedPtr_bool (this : SharedPtr) : bool :=
  bool_decide (sp_block_ this ≠ None).

(** [MakeShared<T>(args...)]; [ctor] is the payload constructor run by the
    placement new on the block's storage. *)
Definition MakeShared (ctor : obj_addr → M unit) : M SharedPtr :=
  let* block_ptr := new_MakeSharedControlBlock in
  try_rethrow (ctor (StorageOf block_ptr)) (delete_block block_ptr) ;;
  ret (SharedPtr_adopt (Some (StorageOf block_ptr)) (Some block_ptr)).

(** A payload constructor that either completes or throws. *)
Definition payload_ctor (fail : option nat) (p : obj_addr) : M unit :=
  match fail, p with
  | Some code, _ => throw (PayloadFailure code)
  | None, StorageOf b => emit (EvConstruct b)
  | None, ObjAt _ => ret tt
  end.

(** [WeakPtr()] *)
Definition WeakPtr_default : WeakPtr := {| wp_obj_ := None; wp_block_ := None |}.

(** [WeakPtr(const WeakPtr& other)] *)
Definition WeakPtr_copy (other : WeakPtr) : M WeakPtr :=
  let this := {| wp_obj_ := wp_obj_ other; wp_block_ := wp_block_ other |} in
  match wp_block_ other with
  | Some b => IncrementWeak b ;; ret this
  | None => ret this
  end.

Definition WeakPtr_Swap (this other : WeakPtr) : WeakPtr * WeakPtr :=
  ({| wp_obj_ := wp_obj_ other; wp_block_ := wp_block_ other |},
   {| wp_obj_ := wp_obj_ this; wp_block_ := wp_block_ this |}).

(** [WeakPtr(WeakPtr&& other)] *)
Definition WeakPtr_move (other : WeakPtr) : WeakPtr * WeakPtr :=
  WeakPtr_Swap WeakPtr_default other.

(** Demotion [WeakPtr(const SharedPtr<T>& other)] *)
Definition WeakPtr_from_shared (other : SharedPtr) : M WeakPtr :=
  let this := {| wp_obj_ := sp_obj_ other; wp_block_ := sp_block_ other |} in
  match wp_block_ this with
  | Some b => IncrementWeak b ;; ret this
  | None => ret this
  end.

(** [WeakPtr::Reset()], which is also the whole body of [~WeakPtr]. *)
Definition WeakPtr_Reset (this : WeakPtr) : M WeakPtr :=
  match wp_block_ this with
  | Some b =>
      DecrementWeak b ;;
      let* deletable := CanBlockBeDeleted b in
      (if deletable then delete_block b else ret tt) ;;
      ret {| wp_obj_ := None; wp_block_ := None |}
  | None => ret {| wp_obj_ := None; wp_block_ := wp_block_ this |}
  end.

(** [operator=(const WeakPtr&)] *)
Definition WeakPtr_assign (self : bool) (this other : WeakPtr) : M WeakPtr :=
  if self then ret this
  else
    WeakPtr_Reset this ;;
    let this := {| wp_obj_ := wp_obj_ other; wp_block_ := wp_block_ other |} in
    match wp_block_ this with
    | Some b => IncrementWeak b ;; ret this
    | None => ret this
    end.

(** [operator=(WeakPtr&&)] has no self test: [Reset(); Swap(other)].  When
    [other] is [*this] the swap exchanges the object with itself. *)
Definition WeakPtr_move_assign (self : bool) (this other : WeakPtr)
  : M (WeakPtr * WeakPtr) :=
  let* this := WeakPtr_Reset this in
  if self then ret (this, this) else ret (WeakPtr_Swap this other).

Definition WeakPtr_UseCount (this : WeakPtr) : M Z :=
  match wp_block_ this with
  | Some b => GetSharedCount b
  | None => ret 0
  end.

(** [WeakPtr::Lock] *)
Definition WeakPtr_Lock (this : WeakPtr) : M SharedPtr :=
  SharedPtr_from_weak this true.

(** ** The weak pointer of the shared-from-this variant (shared-from-this/weak.h)

    The same class with one more member: [can_i_delete_block_], cleared by
    the constructor that builds the back-reference stored inside a
    self-referencing payload. *)
Module SFT.

Record WeakPtr := {
  obj_ : option obj_addr;
  block_ : option nat;
  can_i_delete_block_ : bool
}.

(** [WeakPtr()] *)
Definition default : WeakPtr :=
  {| obj_ := None; block_ := None; can_i_delete_block_ := true |}.

(** [WeakPtr(const WeakPtr& other)] and its converting twin: the flag takes
    its default member initialiser. *)
Definition copy (other : WeakPtr) : M WeakPtr :=
  let this := {| obj_ := obj_ other; block_ := block_ other; can_i_delete_block_ := true |} in
  match block_ other with
  | Some b => IncrementWeak b ;; ret this
  | None => ret this
  end.

(** [WeakPtr(const SharedPtr<T>& other)] *)
Definition from_shared (other : SharedPtr) : M WeakPtr :=
  let this := {| obj_ := sp_obj_ other; block_ := sp_block_ other;
                 can_i_delete_block_ := true |} in
  match block_ this with
  | Some b => IncrementWeak b ;; ret this
  | None => ret this
  end.

(** [WeakPtr(T* obj, BaseControlBlock* block)], "For ESFT" *)
Definition from_esft (obj : option obj_addr) (block : option nat) : M WeakPtr :=
  let this := {| obj_ := obj; block_ := block; can_i_delete_block_ := false |} in
  match block_ this with
  | Some b => IncrementWeak b ;; ret this
  | None => ret this
  end.

(** [WeakPtr::Reset()]: the flag guards the release of the block and is left
    as it is. *)
Definition Reset (this : WeakPtr) : M WeakPtr :=
  match block_ this with
  | Some b =>
      DecrementWeak b ;;
      let* deletable := CanBlockBeDeleted b in
      (if deletable && can_i_delete_block_ this then delete_block b else ret tt) ;;
      ret {| obj_ := None; block_ := None; can_i_delete_block_ := can_i_delete_block_ this |}
  | None =>
      ret {| obj_ := None; block_ := block_ this;
             can_i_delete_block_ := can_i_delete_block_ this |}
  end.

(** [operator=(const WeakPtr&)] copies the flag as well. *)
Definition assign (self : bool) (this other : WeakPtr) : M WeakPtr :=
  if self then ret this
  else
    Reset this ;;
    let this := {| obj_ := obj_ other; block_ := block_ other;
                   can_i_delete_block_ := can_i_delete_block_ other |} in
    match block_ this with
    | Some b => IncrementWeak b ;; ret this
    | None => ret this
    end.

(** [Swap] exchanges all three members. *)
Definition Swap (this other : WeakPtr) : WeakPtr * WeakPtr := (other, this).

(** [WeakPtr(WeakPtr&& other)] *)
Definition move (other : WeakPtr) : WeakPtr * WeakPtr := Swap default other.

(** [WeakPtr::Expired] *)
Definition Expired (this : WeakPtr) : M bool :=
  match block_ this with
  | Some b => let* c := GetSharedCount b in ret (c =? 0)%Z
  | None => ret true
  end.

(** [operator=(const WeakPtr<Y>&)]: the converting twin of [assign] has no
    self test. *)
Definition assign_conv (this other : WeakPtr) : M WeakPtr :=
  Reset this ;;
  let this := {| obj_ := obj_ other; block_ := block_ other;
                 can_i_delete_block_ := can_i_delete_block_ other |} in
  match block_ this with
  | Some b => IncrementWeak b ;; ret this
  | None => ret this
  end.

(** [operator=(WeakPtr&&)]: [Reset(); Swap(other)], no self test. *)
Definition move_assign (self : bool) (this other : WeakPtr) : M (WeakPtr * WeakPtr) :=
  let* this := Reset this in
  if self then ret (this, this) else ret (Swap this other).

(** [WeakPtr::UseCount] *)
Definition UseCount (this : WeakPtr) : M Z :=
  match block_ this with
  | Some b => GetSharedCount b
  | None => ret 0
  end.

End SFT.

(** The members of a weak pointer that the promoting constructor of
    [SharedPtr] reads. *)
Definition sft_view (this : SFT.WeakPtr) : WeakPtr :=
  {| wp_obj_ := SFT.obj_ this; wp_block_ := SFT.block_ this |}.

(** ** The exclusive-ownership pointer (unique/unique.h, unique/compressed_pair.h) *)
Module Unique.

(** [CaseSwitch<F, S>()]: [first_empty] is
    [is_empty_v<F> && !is_final_v<F>], likewise [second_empty]; [related]
    is [is_base_of_v<S, F> || is_base_of_v<F, S>]. *)
Definition CaseSwitch (first_empty second_empty related : bool) : nat :=
  if negb first_empty && negb second_empty then 1
  else if negb first_empty then 2
  else if negb second_empty then 3
  else if related then 1
  else 4.

Section WithDeleter.

(** The state of a [Deleter] object, the value [Deleter()] constructs, and
    whether the type is empty and not final. *)
Variable Deleter : Type.
Variable Deleter_default : Deleter.
Variable second_empty : bool.

(** [CompressedPair<T*, Deleter>]: a pointer type is never an empty class,
    so the pair is specialisation 1 (two members) or 2 (the deleter is
    the base-class subobject). *)
Record CompressedPair := {
  first_ : option obj_addr;
  second_ : Deleter
}.

(** [CompressedPair(T1&& first, T2&& second)]: specialisation 2 leaves the
    base to its default constructor and drops [second]. *)
Definition CompressedPair_make (first : option obj_addr) (second : Deleter)
  : CompressedPair :=
  match CaseSwitch false second_empty false with
  | 1%nat => {| first_ := first; second_ := second |}
  | _ => {| first_ := first; second_ := Deleter_default |}
  end.

Definition GetFirst (p : CompressedPair) : option obj_addr := first_ p.
Definition GetSecond (p : CompressedPair) : Deleter := second_ p.

Record UniquePtr := { data_ : CompressedPair }.

(** A deleter object in state [d] is invoked on handle [h]. *)
Inductive call := Invoke (d : Deleter) (h : obj_addr).

(** [explicit UniquePtr(T* ptr = nullptr)] *)
Definition from_raw (ptr : option obj_addr) : UniquePtr :=
  {| data_ := CompressedPair_make ptr Deleter_default |}.

(** [UniquePtr(T* ptr, Deleter deleter)] *)
Definition from_raw_deleter (ptr : option obj_addr) (deleter : Deleter) : UniquePtr :=
  {| data_ := CompressedPair_make ptr deleter |}.

(** [Swap]: returns the new [*this] and the new [other]. *)
Definition Swap (this other : UniquePtr) : UniquePtr * UniquePtr :=
  ({| data_ := data_ other |}, {| data_ := data_ this |}).

(** [UniquePtr(UniquePtr&& other)] *)
Definition move (other : UniquePtr) : UniquePtr * UniquePtr :=
  let this := {| data_ := CompressedPair_make None Deleter_default |} in
  Swap this other.

(** [Release]: the handle, and the pointer left behind. *)
Definition Release (this : UniquePtr) : option obj_addr * UniquePtr :=
  let return_value := GetFirst (data_ this) in
  (return_value, {| data_ := {| first_ := None; second_ := second_ (data_ this) |} |}).

(** [Reset(T* ptr = nullptr)], threading the deleter invocations so far;
    the pattern binding is the [std::swap(data_, to_do_swap)]. *)
Definition Reset (this : UniquePtr) (ptr : option obj_addr) (log : list call)
  : UniquePtr * list call :=
  let to_do_swap := CompressedPair_make ptr Deleter_default in
  let '(data', to_do_swap) := (to_do_swap, data_ this) in
  match GetFirst to_do_swap with
  | Some h => ({| data_ := data' |}, log ++ [Invoke (GetSecond to_do_swap) h])
  | None => ({| data_ := data' |}, log)
  end.

(** [~UniquePtr() { Reset(); }] *)
Definition destroy (this : UniquePtr) (log : list call) : UniquePtr * list call :=
  Reset this None log.

(** [operator=(UniquePtr&&)]; [self] is the test [&other == this]. *)
Definition move_assign (self : bool) (this other : UniquePtr) (log : list call)
  : (UniquePtr * UniquePtr) * list call :=
  if self then ((this, other), log)
  else
    let '(this, log) := Reset this None log in
    (Swap this other, log).

Definition Get (this : UniquePtr) : option obj_addr := GetFirst (data_ this).
Definition GetDeleter (this : UniquePtr) : Deleter := GetSecond (data_ this).

(** [explicit operator bool() const] *)
Definition to_bool (this : UniquePtr) : bool :=
  bool_decide (GetFirst (data_ this) ≠ None).

End WithDeleter.

Arguments Invoke {Deleter} d h.
Arguments first_ {Deleter} _.
Arguments second_ {Deleter} _.
Arguments data_ {Deleter} _.
Arguments Get {Deleter} this.
Arguments GetDeleter {Deleter} this.
Arguments to_bool {Deleter} this.
Arguments Swap {Deleter} this other.
Arguments Release {Deleter} this.

Section Programs.

Variable Deleter : Type.
Variable Deleter_default : Deleter.
Variable second_empty : bool.

(** [operator=(std::nullptr_t)] *)
Definition assign_nullptr (this : UniquePtr Deleter) (log : list (call Deleter))
  : UniquePtr Deleter * list (call Deleter) :=
  Reset Deleter Deleter_default second_empty this None log.

(** The handle a pointer holds, with the deleter stored beside it. *)
Definition holding (p : UniquePtr Deleter) : list (call Deleter) :=
  match Get p with
  | Some h => [Invoke (GetDeleter p) h]
  | None => []
  end.

(** The pointer objects of a program, each named by its position (a
    destroyed object stays in its slot in the state its destructor leaves
    it in); the deleter invocations so far; and the handles [Release] gave
    back to the program, each with the deleter that was stored beside it. *)
Record World := {
  ups : list (UniquePtr Deleter);
  invoked : list (call Deleter);
  released : list (call Deleter)
}.

Definition init : World := {| ups := []; invoked := []; released := [] |}.

Inductive Op :=
| UNew (ptr : option obj_addr)                   (* UniquePtr<T, D> p(ptr);            *)
| UNewDel (ptr : option obj_addr) (d : Deleter)  (* UniquePtr<T, D> p(ptr, d);         *)
| UMove (src : nat)                              (* UniquePtr<T, D> p(std::move(src)); *)
| UMoveAssign (dst src : nat)                    (* dst = std::move(src);              *)
| UAssignNull (i : nat)                          (* i = nullptr;                       *)
| UReset (i : nat) (ptr : option obj_addr)       (* i.Reset(ptr);                      *)
| UDestroy (i : nat)                             (* i.~UniquePtr();                    *)
| URelease (i : nat)                             (* T* raw = i.Release();              *)
| USwap (i j : nat).                             (* i.Swap(j);                         *)

(** One operation; [None] when it names an object that does not exist. *)
Definition step (op : Op) (w : World) : option World :=
  match op with
  | UNew ptr =>
      Some {| ups := ups w ++ [from_raw Deleter Deleter_default second_empty ptr];
              invoked := invoked w; released := released w |}
  | UNewDel ptr d =>
      Some {| ups := ups w ++ [from_raw_deleter Deleter Deleter_default second_empty ptr d];
              invoked := invoked w; released := released w |}
  | UMove src =>
      match ups w !! src with
      | Some other =>
          let '(this, other') := move Deleter Deleter_default second_empty other in
          Some {| ups := <[src := other']> (ups w) ++ [this];
                  invoked := invoked w; released := released w |}
      | None => None
      end
  | UMoveAssign dst src =>
      match ups w !! dst, ups w !! src with
      | Some this, Some other =>
          let '((this', other'), log) :=
            move_assign Deleter Deleter_default second_empty
              (bool_decide (dst = src)) this other (invoked w) in
          Some {| ups := <[dst := this']> (<[src := other']> (ups w));
                  invoked := log; released := released w |}
      | _, _ => None
      end
  | UAssignNull i =>
      match ups w !! i with
      | Some this =>
          let '(this', log) := assign_nullptr this (invoked w) in
          Some {| ups := <[i := this']> (ups w); invoked := log; released := released w |}
      | None => None
      end
  | UReset i ptr =>
      match ups w !! i with
      | Some this =>
          let '(this', log) :=
            Reset Deleter Deleter_default second_empty this ptr (invoked w) in
          Some {| ups := <[i := this']> (ups w); invoked := log; released := released w |}
      | None => None
      end
  | UDestroy i =>
      match ups w !! i with
      | Some this =>
          let '(this', log) :=
            destroy Deleter Deleter_default second_empty this (invoked w) in
          Some {| ups := <[i := this']> (ups w); invoked := log; released := released w |}
      | None => None
      end
  | URelease i =>
      match ups w !! i with
      | Some this =>
          let '(_, this') := Release this in
          Some {| ups := <[i := this']> (ups w); invoked := invoked w;
                  released := released w ++ holding this |}
      | None => None
      end
  | USwap i j =>
      match ups w !! i, ups w !! j with
      | Some this, Some other =>
          let '(this', other') := Swap this other in
          Some {| ups := <[i := this']> (<[j := other']> (ups w));
                  invoked := invoked w; released := released w |}
      | _, _ => None
      end
  end.

Fixpoint run (ops : list Op) (w : World) : option World :=
  match ops with
  | [] => Some w
  | op :: ops' =>
      match step op w with
      | Some w' => run ops' w'
      | None => None
      end
  end.

(** The handles a program hands to the library, each with the deleter the
    library stores beside it. *)
Definition supplied (op : Op) : list (call Deleter) :=
  match op with
  | UNew ptr => holding (from_raw Deleter Deleter_default second_empty ptr)
  | UNewDel ptr d => holding (from_raw_deleter Deleter Deleter_default second_empty ptr d)
  | UReset _ (Some h) => [Invoke Deleter_default h]
  | _ => []
  end.

(** Handles held by the pointer objects, and everything a world accounts
    for: handles held, deleted and released. *)
Definition held (l : list (UniquePtr Deleter)) : list (call Deleter) :=
  l ≫= holding.

Definition account (w : World) : list (call Deleter) :=
  held (ups w) ++ invoked w ++ released w.

End Programs.

Arguments holding {Deleter} p.
Arguments held {Deleter} l.
Arguments account {Deleter} w.
Arguments ups {Deleter} _.
Arguments invoked {Deleter} _.
Arguments released {Deleter} _.
Arguments UNew {Deleter} ptr.
Arguments UNewDel {Deleter} ptr d.
Arguments UMove {Deleter} src.
Arguments UMoveAssign {Deleter} dst src.
Arguments UAssignNull {Deleter} i.
Arguments UReset {Deleter} i ptr.
Arguments UDestroy {Deleter} i.
Arguments URelease {Deleter} i.
Arguments USwap {Deleter} i j.

(** The handle of an invocation. *)
Definition handle {Deleter : Type} (c : call Deleter) : obj_addr :=
  match c with Invoke _ h => h end.

End Unique.

(** ** The self-referencing capability *)

(** Modelled from the spec: the [shared.h] of the shared-from-this variant
    is not among the sources, so the wrapping constructor that detects the
    capability is missing.  Section 4.4 of the spec: the wrapping operation
    installs in the payload a weak reference to the payload, threading the
    owning pointer's own control block into it; the "For ESFT" constructor
    of shared-from-this/weak.h builds exactly that.  Returns the new owning
    pointer together with the back-reference now stored in the payload. *)
Definition wrap_self_referencing (ptr : option obj_addr) : M (SharedPtr * SFT.WeakPtr) :=
  let* sp := SharedPtr_from_raw ptr in
  let* weak_this := SFT.from_esft (sp_obj_ sp) (sp_block_ sp) in
  ret (sp, weak_this).

(** Modelled from the spec: the factory of the missing [shared.h], which by
    section 4.4 installs the back-reference just as the wrapping
    constructor does, after the in-place construction of the payload. *)
Definition MakeShared_self_referencing : M (SharedPtr * SFT.WeakPtr) :=
  let* sp := MakeShared (payload_ctor None) in
  let* weak_this := SFT.from_esft (sp_obj_ sp) (sp_block_ sp) in
  ret (sp, weak_this).

(** Modelled from the spec: [EnableSharedFromThis::SharedFromThis], declared
    in weak/shared.h and defined in the missing [shared.h]; by section 4.4
    it "simply promote[s] that stored weak reference". *)
Definition SharedFromThis (weak_this : SFT.WeakPtr) : M SharedPtr :=
  SharedPtr_from_weak (sft_view weak_this) false.

(** ** Programs over pointer objects

    A world is the free store plus the pointer objects of the program, each
    named by its position.  Constructors append a new object; a destroyed
    object stays in its slot in the state its destructor leaves it in
    ([Reset()] is the whole destructor body). *)

Record World := {
  mem : Mem;
  sps : list SharedPtr;
  wps : list WeakPtr
}.

Definition init : World := {| mem := empty_mem; sps := []; wps := [] |}.

(** The operations of a program; the numbers name pointer objects by
    position. *)
Inductive Op :=
| ODefault                                   (* SharedPtr<T> p;                 *)
| ONew (ptr : option obj_addr)               (* SharedPtr<T> p(ptr);            *)
| OMakeShared (fail : option nat)            (* auto p = MakeShared<T>(...);    *)
| OCopy (src : nat)                          (* SharedPtr<T> p(src);            *)
| OMove (src : nat)                          (* SharedPtr<T> p(std::move(src)); *)
| OAlias (src : nat) (ptr : option obj_addr) (* SharedPtr<T> p(src, ptr);       *)
| OPromote (wsrc : nat)                      (* SharedPtr<T> p(wsrc);           *)
| OLock (wsrc : nat)                         (* auto p = wsrc.Lock();           *)
| OAssign (dst src : nat)                    (* dst = src;                      *)
| OMoveAssign (dst src : nat)                (* dst = std::move(src);           *)
| OReset (i : nat)                           (* i.Reset();  or  i.~SharedPtr(); *)
| OResetPtr (i : nat) (ptr : option obj_addr)(* i.Reset(ptr);                   *)
| OSwap (i j : nat)                          (* i.Swap(j);                      *)
| WDefault                                   (* WeakPtr<T> w;                   *)
| WCopy (src : nat)                          (* WeakPtr<T> w(src);              *)
| WMove (src : nat)                          (* WeakPtr<T> w(std::move(src));   *)
| WFromShared (ssrc : nat)                   (* WeakPtr<T> w(ssrc);             *)
| WAssign (dst src : nat)                    (* dst = src;                      *)
| WMoveAssign (dst src : nat)                (* dst = std::move(src);           *)
| WReset (i : nat)                           (* i.Reset();  or  i.~WeakPtr();   *)
| WSwap (i j : nat).                         (* i.Swap(j);                      *)

(** What an operation does: it returns, it throws to the program, it names
    an object that does not exist, or the library runs into undefined
    behaviour. *)
Inductive outcome :=
| Next (w : World)
| Raised (e : exn) (w : World)
| Stuck
| Undefined.

(** Run a library call in the world's store and rebuild the world. *)
Definition exec {A} (c : M A) (k : A → Mem → World) (w : World) : outcome :=
  match c (mem w) with
  | Ok a m => Next (k a m)
  | Throw e m => Raised e {| mem := m; sps := sps w; wps := wps w |}
  | UB => Undefined
  end.

(** One operation: the library function it stands for is applied to the
    objects it names, and the results are stored back. *)
Definition step (op : Op) (w : World) : outcome :=
  match op with
  | ODefault =>
      Next {| mem := mem w; sps := sps w ++ [SharedPtr_default]; wps := wps w |}
  | ONew ptr =>
      exec (SharedPtr_from_raw ptr)
           (λ p m, {| mem := m; sps := sps w ++ [p]; wps := wps w |}) w
  | OMakeShared fail =>
      exec (MakeShared (payload_ctor fail))
           (λ p m, {| mem := m; sps := sps w ++ [p]; wps := wps w |}) w
  | OCopy src =>
      match sps w !! src with
      | Some other =>
          exec (SharedPtr_copy other)
               (λ p m, {| mem := m; sps := sps w ++ [p]; wps := wps w |}) w
      | None => Stuck
      end
  | OMove src =>
      match sps w !! src with
      | Some other =>
          let '(this, other') := SharedPtr_move other in
          Next {| mem := mem w; sps := <[src := other']> (sps w) ++ [this]; wps := wps w |}
      | None => Stuck
      end
  | OAlias src ptr =>
      match sps w !! src with
      | Some other =>
          exec (SharedPtr_alias other ptr)
               (λ p m, {| mem := m; sps := sps w ++ [p]; wps := wps w |}) w
      | None => Stuck
      end
  | OPromote wsrc =>
      match wps w !! wsrc with
      | Some other =>
          exec (SharedPtr_from_weak other false)
               (λ p m, {| mem := m; sps := sps w ++ [p]; wps := wps w |}) w
      | None => Stuck
      end
  | OLock wsrc =>
      match wps w !! wsrc with
      | Some other =>
          exec (WeakPtr_Lock other)
               (λ p m, {| mem := m; sps := sps w ++ [p]; wps := wps w |}) w
      | None => Stuck
      end
  | OAssign dst src =>
      match sps w !! dst, sps w !! src with
      | Some this, Some other =>
          exec (SharedPtr_assign (bool_decide (dst = src)) this other)
               (λ p m, {| mem := m; sps := <[dst := p]> (sps w); wps := wps w |}) w
      | _, _ => Stuck
      end
  | OMoveAssign dst src =>
      match sps w !! dst, sps w !! src with
      | Some this, Some other =>
          exec (SharedPtr_move_assign (bool_decide (dst = src)) this other)
               (λ r m, {| mem := m; sps := <[dst := r.1]> (<[src := r.2]> (sps w));
                          wps := wps w |}) w
      | _, _ => Stuck
      end
  | OReset i =>
      match sps w !! i with
      | Some this =>
          exec (SharedPtr_Reset this)
               (λ p m, {| mem := m; sps := <[i := p]> (sps w); wps := wps w |}) w
      | None => Stuck
      end
  | OResetPtr i ptr =>
      match sps w !! i with
      | Some this =>
          exec (SharedPtr_Reset_ptr this ptr)
               (λ p m, {| mem := m; sps := <[i := p]> (sps w); wps := wps w |}) w
      | None => Stuck
      end
  | OSwap i j =>
      match sps w !! i, sps w !! j with
      | Some this, Some other =>
          let '(this', other') := SharedPtr_Swap this other in
          Next {| mem := mem w; sps := <[i := this']> (<[j := other']> (sps w)); wps := wps w |}
      | _, _ => Stuck
      end
  | WDefault =>
      Next {| mem := mem w; sps := sps w; wps := wps w ++ [WeakPtr_default] |}
  | WCopy src =>
      match wps w !! src with
      | Some other =>
          exec (WeakPtr_copy other)
               (λ p m, {| mem := m; sps := sps w; wps := wps w ++ [p] |}) w
      | None => Stuck
      end
  | WMove src =>
      match wps w !! src with
      | Some other =>
          let '(this, other') := WeakPtr_move other in
          Next {| mem := mem w; sps := sps w; wps := <[src := other']> (wps w) ++ [this] |}
      | None => Stuck
      end
  | WFromShared ssrc =>
      match sps w !! ssrc with
      | Some other =>
          exec (WeakPtr_from_shared other)
               (λ p m, {| mem := m; sps := sps w; wps := wps w ++ [p] |}) w
      | None => Stuck
      end
  | WAssign dst src =>
      match wps w !! dst, wps w !! src with
      | Some this, Some other =>
          exec (WeakPtr_assign (bool_decide (dst = src)) this other)
               (λ p m, {| mem := m; sps := sps w; wps := <[dst := p]> (wps w) |}) w
      | _, _ => Stuck
      end
  | WMoveAssign dst src =>
      match wps w !! dst, wps w !! src with
      | Some this, Some other =>
          exec (WeakPtr_move_assign (bool_decide (dst = src)) this other)
               (λ r m, {| mem := m; sps := sps w;
                          wps := <[dst := r.1]> (<[src := r.2]> (wps w)) |}) w
      | _, _ => Stuck
      end
  | WReset i =>
      match wps w !! i with
      | Some this =>
          exec (WeakPtr_Reset this)
               (λ p m, {| mem := m; sps := sps w; wps := <[i := p]> (wps w) |}) w
      | None => Stuck
      end
  | WSwap i j =>
      match wps w !! i, wps w !! j with
      | Some this, Some other =>
          let '(this', other') := WeakPtr_Swap this other in
          Next {| mem := mem w; sps := sps w; wps := <[i := this']> (<[j := other']> (wps w)) |}
      | _, _ => Stuck
      end
  end.

(** A program is a list of operations.  An exception is caught by the
    caller: the object under construction never comes into existence and
    the program goes on. *)
Fixpoint run (ops : list Op) (w : World) : outcome :=
  match ops with
  | [] => Next w
  | op :: ops' =>
      match step op w with
      | Next w' => run ops' w'
      | Raised _ w' => run ops' w'
      | Stuck => Stuck
      | Undefined => Undefined
      end
  end.

(** The world an operation leaves behind, whether it returned or threw. *)
Definition after (o : outcome) : option World :=
  match o with
  | Next w' | Raised _ w' => Some w'
  | Stuck | Undefined => None
  end.

(** ** Payloads that own pointers

    The payload of a block is an object of the program's own class, and
    [delete ptr_] and [Get()->~T()] run its destructor.  When the class has
    shared or weak pointers among its members, that destructor calls back
    into the library while [DeleteData] is still at work: [ptr_] is cleared
    and [was_data_deleted_] is set only after the destructor has returned.
    [DeleteData] and [delete_block] above stand for payloads without pointer
    members, whose destructor is one event.  Here the destructor is run.
    It is the destructor the compiler writes: it destroys the members in
    the reverse order of their declaration, a pointer member by the
    [Reset()] that is the body of its own destructor, and runs no other
    code of the library. *)
Module Payload.

(** A pointer member of a payload. *)
Inductive member :=
| Shared (p : SharedPtr)     (* SharedPtr<U> of weak/shared.h          *)
| Weak (w : WeakPtr)         (* WeakPtr<U> of weak/weak.h              *)
| Back (w : SFT.WeakPtr).    (* WeakPtr<U> of shared-from-this/weak.h  *)

(** A payload with pointer members: the members in the order of their
    declaration while the object's memory is there.  A member that was
    never assigned is empty and its destructor does nothing, so a member is
    listed from its first assignment on. *)
Inductive object :=
| Live (members : list member)
| Gone.

(** The free store together with the payloads that have pointer members.
    A payload that is not listed has none: its destructor is the single
    event of the log and nothing more is known of its memory. *)
Record Store := {
  base : Mem;
  objects : gmap obj_addr object
}.

Definition empty_store : Store := {| base := empty_mem; objects := ∅ |}.

(** A call returns, throws, runs into undefined behaviour (the store is the
    one in which the undefined step was attempted), or needs more nested
    destructor calls than it was given. *)
Inductive res (A : Type) :=
| Returns (a : A) (s : Store)
| Throws (e : exn) (s : Store)
| Faults (s : Store)
| Starved.
Arguments Returns {A} a s.
Arguments Throws {A} e s.
Arguments Faults {A} s.
Arguments Starved {A}.

Definition P (A : Type) : Type := Store → res A.

Definition ret {A} (a : A) : P A := λ s, Returns a s.

Definition bind {A B} (c : P A) (k : A → P B) : P B :=
  λ s, match c s with
       | Returns a s' => k a s'
       | Throws e s' => Throws e s'
       | Faults s' => Faults s'
       | Starved => Starved
       end.

Declare Scope payload_scope.
Delimit Scope payload_scope with payload.
Notation "'let*' x := c 'in' k" := (bind c (λ x, k))
  (at level 10, x pattern, c at level 100, k at level 200) : payload_scope.
Notation "c ;; k" := (bind c (λ _, k))
  (at level 100, k at level 200, right associativity) : payload_scope.
Local Open Scope payload_scope.

(** A call that does not reach a payload destructor. *)
Definition lift {A} (c : M A) : P A :=
  λ s, match c (base s) with
       | Ok a m => Returns a {| base := m; objects := objects s |}
       | Throw e m => Throws e {| base := m; objects := objects s |}
       | UB => Faults s
       end.

(** An assignment to a member of a block, as in [ptr_ = nullptr]: the block
    has to be there when the assignment is made. *)
Definition update_block (b : nat) (f : ControlBlock → ControlBlock) : P unit :=
  let* cb := lift (get_block b) in
  lift (put_block b (f cb)).

(** Reading and writing member [k] of the payload at [p]: undefined once
    the payload's memory is gone. *)
Definition get_member (p : obj_addr) (k : nat) : P member :=
  λ s, match objects s !! p with
       | Some (Live ms) =>
           match ms !! k with
           | Some x => Returns x s
           | None => Faults s
           end
       | _ => Faults s
       end.

Definition update_member (p : obj_addr) (k : nat) (f : member → member) : P unit :=
  λ s, match objects s !! p with
       | Some (Live ms) =>
           match ms !! k with
           | Some x =>
               Returns tt {| base := base s;
                             objects := <[p := Live (<[k := f x]> ms)]> (objects s) |}
           | None => Faults s
           end
       | _ => Faults s
       end.

(** The first assignment to the next pointer member of the payload at [p]. *)
Definition add_member (p : obj_addr) (x : member) : P unit :=
  λ s, match objects s !! p with
       | None =>
           Returns tt {| base := base s; objects := <[p := Live [x]]> (objects s) |}
       | Some (Live ms) =>
           Returns tt {| base := base s; objects := <[p := Live (ms ++ [x])]> (objects s) |}
       | Some Gone => Faults s
       end.

(** The memory of the payload at [p] is released, as the last step of
    [delete ptr_]. *)
Definition dealloc (p : obj_addr) : P unit :=
  λ s, match objects s !! p with
       | None => Returns tt s
       | Some (Live _) =>
           Returns tt {| base := base s; objects := <[p := Gone]> (objects s) |}
       | Some Gone => Faults s
       end.

(** The memory of block [b] is released, and the storage of a payload
    constructed in place goes with it. *)
Definition release_block (b : nat) : P unit :=
  lift (free_block b) ;;
  λ s, match objects s !! StorageOf b with
       | Some _ =>
           Returns tt {| base := base s; objects := <[StorageOf b := Gone]> (objects s) |}
       | None => Returns tt s
       end.

(** [obj_], [block_] and [can_i_delete_block_] of a member. *)
Definition member_block (x : member) : option nat :=
  match x with
  | Shared p => sp_block_ p
  | Weak w => wp_block_ w
  | Back w => SFT.block_ w
  end.

Definition may_delete (x : member) : bool :=
  match x with
  | Shared _ | Weak _ => true
  | Back w => SFT.can_i_delete_block_ w
  end.

(** [obj_ = nullptr] and [block_ = nullptr] on a member. *)
Definition clear_obj (x : member) : member :=
  match x with
  | Shared p => Shared {| sp_obj_ := None; sp_block_ := sp_block_ p |}
  | Weak w => Weak {| wp_obj_ := None; wp_block_ := wp_block_ w |}
  | Back w => Back {| SFT.obj_ := None; SFT.block_ := SFT.block_ w;
                      SFT.can_i_delete_block_ := SFT.can_i_delete_block_ w |}
  end.

Definition clear_block (x : member) : member :=
  match x with
  | Shared p => Shared {| sp_obj_ := sp_obj_ p; sp_block_ := None |}
  | Weak w => Weak {| wp_obj_ := wp_obj_ w; wp_block_ := None |}
  | Back w => Back {| SFT.obj_ := SFT.obj_ w; SFT.block_ := None;
                      SFT.can_i_delete_block_ := SFT.can_i_delete_block_ w |}
  end.

(** [block_->] on a member: the pointer is read from the payload each time
    it is written in the source, and must not be null. *)
Definition block_of (p : obj_addr) (k : nat) : P nat :=
  let* x := get_member p k in
  match member_block x with
  | Some b => ret b
  | None => λ s, Faults s
  end.

(** [member = other] on a pointer member that was default-constructed with
    its payload and not assigned since: [operator=] of the member's class,
    whose [Reset()] finds no block to release. *)
Definition assign_shared_member (other : SharedPtr) : P member :=
  let* x := lift (SharedPtr_assign false SharedPtr_default other) in
  ret (Shared x).

Definition assign_weak_member (other : WeakPtr) : P member :=
  let* x := lift (WeakPtr_assign false WeakPtr_default other) in
  ret (Weak x).

(** [try { c } catch (...) { h; throw; }] *)
Definition try_rethrow {A} (c : P A) (h : P unit) : P A :=
  λ s, match c s with
       | Returns a s' => Returns a s'
       | Throws e s' =>
           match h s' with
           | Returns _ s'' => Throws e s''
           | Throws e' s'' => Throws e' s''
           | Faults s'' => Faults s''
           | Starved => Starved
           end
       | Faults s' => Faults s'
       | Starved => Starved
       end.

Section Release.

(** The destructor [~T()] of a payload. *)
Variable destroy : obj_addr → P unit.

(** [PtrControlBlock::DeleteData] and [MakeSharedControlBlock::DeleteData]:
    the destructor runs before [ptr_] is cleared or [was_data_deleted_] is
    set. *)
Definition DeleteData (b : nat) : P unit :=
  let* cb := lift (get_block b) in
  match payload_ cb with
  | PtrData (Some p) =>
      lift (emit (EvDestroy b p)) ;;
      destroy p ;;
      dealloc p ;;
      update_block b (set_data (PtrData None))
  | PtrData None => ret tt
  | MakeSharedData false =>
      lift (emit (EvDestroy b (StorageOf b))) ;;
      destroy (StorageOf b) ;;
      update_block b (set_data (MakeSharedData true))
  | MakeSharedData true => ret tt
  end.

(** [BaseControlBlock::DecrementShared] *)
Definition DecrementShared (b : nat) : P unit :=
  let* cb := lift (get_block b) in
  let c := size_decr (shared_counter_ cb) in
  lift (put_block b (set_shared c cb)) ;;
  if (c =? 0)%Z then DeleteData b else ret tt.

(** [delete block_]: [~PtrControlBlock] calls [DeleteData];
    [~MakeSharedControlBlock] runs the payload destructor unless
    [was_data_deleted_] is set; then the memory goes. *)
Definition delete_block (b : nat) : P unit :=
  let* cb := lift (get_block b) in
  match payload_ cb with
  | PtrData _ => DeleteData b
  | MakeSharedData was_deleted =>
      if was_deleted then ret tt
      else lift (emit (EvDestroy b (StorageOf b))) ;; destroy (StorageOf b)
  end ;;
  release_block b.

(** [Reset()] of member [k] of the payload at [p], the body of the member's
    destructor: [SharedPtr::Reset] of weak/shared.h, [WeakPtr::Reset] of
    weak/weak.h or of shared-from-this/weak.h. *)
Definition member_Reset (p : obj_addr) (k : nat) : P unit :=
  update_member p k clear_obj ;;
  let* x := get_member p k in
  match member_block x with
  | Some _ =>
      let* b := block_of p k in
      match x with
      | Shared _ => DecrementShared b
      | Weak _ | Back _ => lift (DecrementWeak b)
      end ;;
      let* b := block_of p k in
      let* deletable := lift (CanBlockBeDeleted b) in
      (if deletable && may_delete x
       then let* x := get_member p k in
            match member_block x with
            | Some b => delete_block b
            | None => ret tt
            end
       else ret tt) ;;
      update_member p k clear_block
  | None => ret tt
  end.

(** The members are destroyed in the reverse order of their declaration. *)
Fixpoint destroy_members (p : obj_addr) (n : nat) : P unit :=
  match n with
  | O => ret tt
  | S k => member_Reset p k ;; destroy_members p k
  end.

(** [SharedPtr::Reset()] on a pointer object of the program. *)
Definition SharedPtr_Reset (this : SharedPtr) : P SharedPtr :=
  match sp_block_ this with
  | Some b =>
      DecrementShared b ;;
      let* deletable := lift (CanBlockBeDeleted b) in
      (if deletable then delete_block b else ret tt) ;;
      ret {| sp_obj_ := None; sp_block_ := None |}
  | None => ret {| sp_obj_ := None; sp_block_ := sp_block_ this |}
  end.

(** [Reset(T* ptr)] *)
Definition SharedPtr_Reset_ptr (this : SharedPtr) (ptr : option obj_addr) : P SharedPtr :=
  SharedPtr_Reset this ;;
  let* b := lift (new_PtrControlBlock ptr) in
  ret {| sp_obj_ := ptr; sp_block_ := Some b |}.

(** [operator=(const SharedPtr&)] *)
Definition SharedPtr_assign (self : bool) (this other : SharedPtr) : P SharedPtr :=
  if self then ret this
  else
    SharedPtr_Reset this ;;
    let this := {| sp_obj_ := sp_obj_ other; sp_block_ := sp_block_ other |} in
    match sp_block_ this with
    | Some b => lift (IncrementShared b) ;; ret this
    | None => ret this
    end.

(** [operator=(SharedPtr&&)] *)
Definition SharedPtr_move_assign (self : bool) (this other : SharedPtr)
  : P (SharedPtr * SharedPtr) :=
  if self then ret (this, other)
  else
    let* this := SharedPtr_Reset this in
    ret (SharedPtr_Swap this other).

(** [MakeShared<T>(args...)] *)
Definition MakeShared (ctor : obj_addr → M unit) : P SharedPtr :=
  let* block_ptr := lift new_MakeSharedControlBlock in
  try_rethrow (lift (ctor (StorageOf block_ptr))) (delete_block block_ptr) ;;
  ret (SharedPtr_adopt (Some (StorageOf block_ptr)) (Some block_ptr)).

(** [WeakPtr::Reset()] of weak/weak.h on a pointer object of the program. *)
Definition WeakPtr_Reset (this : WeakPtr) : P WeakPtr :=
  match wp_block_ this with
  | Some b =>
      lift (DecrementWeak b) ;;
      let* deletable := lift (CanBlockBeDeleted b) in
      (if deletable then delete_block b else ret tt) ;;
      ret {| wp_obj_ := None; wp_block_ := None |}
  | None => ret {| wp_obj_ := None; wp_block_ := wp_block_ this |}
  end.

(** [operator=(const WeakPtr&)] *)
Definition WeakPtr_assign (self : bool) (this other : WeakPtr) : P WeakPtr :=
  if self then ret this
  else
    WeakPtr_Reset this ;;
    let this := {| wp_obj_ := wp_obj_ other; wp_block_ := wp_block_ other |} in
    match wp_block_ this with
    | Some b => lift (IncrementWeak b) ;; ret this
    | None => ret this
    end.

(** [operator=(WeakPtr&&)] *)
Definition WeakPtr_move_assign (self : bool) (this other : WeakPtr)
  : P (WeakPtr * WeakPtr) :=
  let* this := WeakPtr_Reset this in
  if self then ret (this, this) else ret (WeakPtr_Swap this other).

End Release.

(** The destructor of the payload at [p].  Destructors nest as deep as the
    payloads own one another; [fuel] bounds the nesting. *)
Fixpoint destroy (fuel : nat) (p : obj_addr) : P unit :=
  λ s, match objects s !! p with
       | None => Returns tt s
       | Some Gone => Faults s
       | Some (Live ms) =>
           match fuel with
           | O => Starved
           | S fuel' => destroy_members (destroy fuel') p (length ms) s
           end
       end.

(** Whether block [cb] holds the payload at [p]. *)
Definition holds (cb : ControlBlock) (b : nat) (p : obj_addr) : bool :=
  match payload_ cb with
  | PtrData ptr => bool_decide (ptr = Some p)
  | MakeSharedData was_deleted => negb was_deleted && bool_decide (p = StorageOf b)
  end.

(** Modelled from the spec: the wrapping constructor of the missing
    [shared.h] of the shared-from-this variant; the back-reference it builds
    is the payload's member [weak_this]. *)
Definition wrap_self_referencing (ptr : obj_addr) : P SharedPtr :=
  let* r := lift (wrap_self_referencing (Some ptr)) in
  add_member ptr (Back r.2) ;;
  ret r.1.

(** Modelled from the spec: the factory of the missing [shared.h]. *)
Definition MakeShared_self_referencing : P SharedPtr :=
  let* r := lift MakeShared_self_referencing in
  match sp_obj_ r.1 with
  | Some p => add_member p (Back r.2) ;; ret r.1
  | None => ret r.1
  end.

(** *** Programs *)

Record World := {
  store : Store;
  sptrs : list SharedPtr;
  wptrs : list WeakPtr
}.

Definition init : World := {| store := empty_store; sptrs := []; wptrs := [] |}.

(** A program works on its own pointer objects as before and can assign
    one of them to the next pointer member of the payload that shared
    pointer [i] owns; the member was default-constructed with the payload
    and is assigned to by its [operator=]. *)
Inductive Command :=
| Do (op : Op)                 (* an operation on the program's pointer objects *)
| KeepShared (i src : nat)     (* i->next_member = src;   a SharedPtr member    *)
| KeepWeak (i wsrc : nat).     (* i->next_member = wsrc;  a WeakPtr member      *)

Inductive outcome :=
| Next (w : World)
| Raised (e : exn) (w : World)
| Stuck
| Undefined (s : Store)
| OutOfFuel.

Definition exec {A} (c : P A) (k : A → Store → World) (w : World) : outcome :=
  match c (store w) with
  | Returns a s => Next (k a s)
  | Throws e s => Raised e {| store := s; sptrs := sptrs w; wptrs := wptrs w |}
  | Faults s => Undefined s
  | Starved => OutOfFuel
  end.

(** The payload that a shared pointer of the program owns through its
    block. *)
Definition owned (this : SharedPtr) (s : Store) : option obj_addr :=
  match sp_obj_ this, sp_block_ this with
  | Some p, Some b =>
      match heap (base s) !! b with
      | Some cb => if holds cb b p then Some p else None
      | None => None
      end
  | _, _ => None
  end.

Definition step (fuel : nat) (c : Command) (w : World) : outcome :=
  match c with
  | Do ODefault =>
      Next {| store := store w; sptrs := sptrs w ++ [SharedPtr_default]; wptrs := wptrs w |}
  | Do (ONew ptr) =>
      exec (lift (SharedPtr_from_raw ptr))
           (λ p s, {| store := s; sptrs := sptrs w ++ [p]; wptrs := wptrs w |}) w
  | Do (OMakeShared fail) =>
      exec (MakeShared (destroy fuel) (payload_ctor fail))
           (λ p s, {| store := s; sptrs := sptrs w ++ [p]; wptrs := wptrs w |}) w
  | Do (OCopy src) =>
      match sptrs w !! src with
      | Some other =>
          exec (lift (SharedPtr_copy other))
               (λ p s, {| store := s; sptrs := sptrs w ++ [p]; wptrs := wptrs w |}) w
      | None => Stuck
      end
  | Do (OMove src) =>
      match sptrs w !! src with
      | Some other =>
          let '(this, other') := SharedPtr_move other in
          Next {| store := store w; sptrs := <[src := other']> (sptrs w) ++ [this];
                  wptrs := wptrs w |}
      | None => Stuck
      end
  | Do (OAlias src ptr) =>
      match sptrs w !! src with
      | Some other =>
          exec (lift (SharedPtr_alias other ptr))
               (λ p s, {| store := s; sptrs := sptrs w ++ [p]; wptrs := wptrs w |}) w
      | None => Stuck
      end
  | Do (OPromote wsrc) =>
      match wptrs w !! wsrc with
      | Some other =>
          exec (lift (SharedPtr_from_weak other false))
               (λ p s, {| store := s; sptrs := sptrs w ++ [p]; wptrs := wptrs w |}) w
      | None => Stuck
      end
  | Do (OLock wsrc) =>
      match wptrs w !! wsrc with
      | Some other =>
          exec (lift (WeakPtr_Lock other))
               (λ p s, {| store := s; sptrs := sptrs w ++ [p]; wptrs := wptrs w |}) w
      | None => Stuck
      end
  | Do (OAssign dst src) =>
      match sptrs w !! dst, sptrs w !! src with
      | Some this, Some other =>
          exec (SharedPtr_assign (destroy fuel) (bool_decide (dst = src)) this other)
               (λ p s, {| store := s; sptrs := <[dst := p]> (sptrs w); wptrs := wptrs w |}) w
      | _, _ => Stuck
      end
  | Do (OMoveAssign dst src) =>
      match sptrs w !! dst, sptrs w !! src with
      | Some this, Some other =>
          exec (SharedPtr_move_assign (destroy fuel) (bool_decide (dst = src)) this other)
               (λ r s, {| store := s; sptrs := <[dst := r.1]> (<[src := r.2]> (sptrs w));
                          wptrs := wptrs w |}) w
      | _, _ => Stuck
      end
  | Do (OReset i) =>
      match sptrs w !! i with
      | Some this =>
          exec (SharedPtr_Reset (destroy fuel) this)
               (λ p s, {| store := s; sptrs := <[i := p]> (sptrs w); wptrs := wptrs w |}) w
      | None => Stuck
      end
  | Do (OResetPtr i ptr) =>
      match sptrs w !! i with
      | Some this =>
          exec (SharedPtr_Reset_ptr (destroy fuel) this ptr)
               (λ p s, {| store := s; sptrs := <[i := p]> (sptrs w); wptrs := wptrs w |}) w
      | None => Stuck
      end
  | Do (OSwap i j) =>
      match sptrs w !! i, sptrs w !! j with
      | Some this, Some other =>
          let '(this', other') := SharedPtr_Swap this other in
          Next {| store := store w; sptrs := <[i := this']> (<[j := other']> (sptrs w));
                  wptrs := wptrs w |}
      | _, _ => Stuck
      end
  | Do WDefault =>
      Next {| store := store w; sptrs := sptrs w; wptrs := wptrs w ++ [WeakPtr_default] |}
  | Do (WCopy src) =>
      match wptrs w !! src with
      | Some other =>
          exec (lift (WeakPtr_copy other))
               (λ p s, {| store := s; sptrs := sptrs w; wptrs := wptrs w ++ [p] |}) w
      | None => Stuck
      end
  | Do (WMove src) =>
      match wptrs w !! src with
      | Some other =>
          let '(this, other') := WeakPtr_move other in
          Next {| store := store w; sptrs := sptrs w;
                  wptrs := <[src := other']> (wptrs w) ++ [this] |}
      | None => Stuck
      end
  | Do (WFromShared ssrc) =>
      match sptrs w !! ssrc with
      | Some other =>
          exec (lift (WeakPtr_from_shared other))
               (λ p s, {| store := s; sptrs := sptrs w; wptrs := wptrs w ++ [p] |}) w
      | None => Stuck
      end
  | Do (WAssign dst src) =>
      match wptrs w !! dst, wptrs w !! src with
      | Some this, Some other =>
          exec (WeakPtr_assign (destroy fuel) (bool_decide (dst = src)) this other)
               (λ p s, {| store := s; sptrs := sptrs w; wptrs := <[dst := p]> (wptrs w) |}) w
      | _, _ => Stuck
      end
  | Do (WMoveAssign dst src) =>
      match wptrs w !! dst, wptrs w !! src with
      | Some this, Some other =>
          exec (WeakPtr_move_assign (destroy fuel) (bool_decide (dst = src)) this other)
               (λ r s, {| store := s; sptrs := sptrs w;
                          wptrs := <[dst := r.1]> (<[src := r.2]> (wptrs w)) |}) w
      | _, _ => Stuck
      end
  | Do (WReset i) =>
      match wptrs w !! i with
      | Some this =>
          exec (WeakPtr_Reset (destroy fuel) this)
               (λ p s, {| store := s; sptrs := sptrs w; wptrs := <[i := p]> (wptrs w) |}) w
      | None => Stuck
      end
  | Do (WSwap i j) =>
      match wptrs w !! i, wptrs w !! j with
      | Some this, Some other =>
          let '(this', other') := WeakPtr_Swap this other in
          Next {| store := store w; sptrs := sptrs w;
                  wptrs := <[i := this']> (<[j := other']> (wptrs w)) |}
      | _, _ => Stuck
      end
  | KeepShared i src =>
      match sptrs w !! i, sptrs w !! src with
      | Some this, Some other =>
          match owned this (store w) with
          | Some p =>
              exec (let* x := assign_shared_member other in add_member p x)
                   (λ _ s, {| store := s; sptrs := sptrs w; wptrs := wptrs w |}) w
          | None => Stuck
          end
      | _, _ => Stuck
      end
  | KeepWeak i wsrc =>
      match sptrs w !! i, wptrs w !! wsrc with
      | Some this, Some other =>
          match owned this (store w) with
          | Some p =>
              exec (let* x := assign_weak_member other in add_member p x)
                   (λ _ s, {| store := s; sptrs := sptrs w; wptrs := wptrs w |}) w
          | None => Stuck
          end
      | _, _ => Stuck
      end
  end.

Fixpoint run (fuel : nat) (cs : list Command) (w : World) : outcome :=
  match cs with
  | [] => Next w
  | c :: cs' =>
      match step fuel c w with
      | Next w' => run fuel cs' w'
      | Raised _ w' => run fuel cs' w'
      | Stuck => Stuck
      | Undefined s => Undefined s
      | OutOfFuel => OutOfFuel
      end
  end.

End Payload.

(** ** The intrusive pointer (intrusive/intrusive.h)

    The reference count lives inside the object pointed to: a class derives
    from [RefCounted] and so embeds a [SimpleCounter]. *)
Module Intrusive.

(** [SimpleCounter] *)
Record SimpleCounter := { count_ : Z }.

(** [SimpleCounter::IncRef], [DecRef] (the value returned and the counter
    afterwards) and [RefCount]. *)
Definition Counter_IncRef (c : SimpleCounter) : Z * SimpleCounter :=
  let c' := {| count_ := size_incr (count_ c) |} in (count_ c', c').

Definition Counter_DecRef (c : SimpleCounter) : Z * SimpleCounter :=
  let c' := {| count_ := size_decr (count_ c) |} in (count_ c', c').

Definition Counter_RefCount (c : SimpleCounter) : Z := count_ c.

(** The free store: the live objects of a class derived from
    [SimpleRefCounted], each with its [counter_]; the next fresh identity;
    and the objects [DefaultDelete::Destroy] deleted, in order. *)
Record Store := {
  objs : gmap nat SimpleCounter;
  next_obj : nat;
  destroy_log : list nat
}.

Definition empty_store : Store := {| objs := ∅; next_obj := 0%nat; destroy_log := [] |}.

Inductive result (A : Type) :=
| Ok (a : A) (s : Store)
| Throw (e : exn) (s : Store)
| UB.
Arguments Ok {A} a s.
Arguments Throw {A} e s.
Arguments UB {A}.

Definition M (A : Type) : Type := Store → result A.

Definition ret {A} (a : A) : M A := λ s, Ok a s.

Definition bind {A B} (c : M A) (k : A → M B) : M B :=
  λ s, match c s with
       | Ok a s' => k a s'
       | Throw e s' => Throw e s'
       | UB => UB
       end.

Definition throw {A} (e : exn) : M A := λ s, Throw e s.

Declare Scope intrusive_scope.
Delimit Scope intrusive_scope with intrusive.
Notation "'let*' x := c 'in' k" := (bind c (λ x, k))
  (at level 10, x pattern, c at level 100, k at level 200) : intrusive_scope.
Notation "c ;; k" := (bind c (λ _, k))
  (at level 100, k at level 200, right associativity) : intrusive_scope.
Local Open Scope intrusive_scope.

(** Access to the [counter_] member of object [o]: undefined once the
    object was deleted. *)
Definition get_counter (o : nat) : M SimpleCounter :=
  λ s, match objs s !! o with
       | Some c => Ok c s
       | None => UB
       end.

Definition put_counter (o : nat) (c : SimpleCounter) : M unit :=
  λ s, Ok tt {| objs := <[o := c]> (objs s); next_obj := next_obj s;
                destroy_log := destroy_log s |}.

(** [RefCounted::IncRef] *)
Definition IncRef (o : nat) : M unit :=
  let* c := get_counter o in
  put_counter o (Counter_IncRef c).2.

(** [DefaultDelete::Destroy]: [delete object]. *)
Definition Destroy (o : nat) : M unit :=
  λ s, match objs s !! o with
       | Some _ => Ok tt {| objs := delete o (objs s); next_obj := next_obj s;
                            destroy_log := destroy_log s ++ [o] |}
       | None => UB
       end.

(** [RefCounted::DecRef] *)
Definition DecRef (o : nat) : M unit :=
  let* c := get_counter o in
  put_counter o (Counter_DecRef c).2 ;;
  let* c := get_counter o in
  if (Counter_RefCount c =? 0)%Z then Destroy o else ret tt.

(** [RefCounted::RefCount] *)
Definition RefCount (o : nat) : M Z :=
  let* c := get_counter o in ret (Counter_RefCount c).

(** [IntrusivePtr<T>]: one member, [T* obj_]. *)
Record IntrusivePtr := { obj_ : option nat }.

(** [IntrusivePtr()] and [IntrusivePtr(std::nullptr_t)] *)
Definition default : IntrusivePtr := {| obj_ := None |}.

(** [Reset()], which is also the whole body of [~IntrusivePtr]. *)
Definition Reset (this : IntrusivePtr) : M IntrusivePtr :=
  match obj_ this with
  | Some o => DecRef o ;; ret {| obj_ := None |}
  | None => ret this
  end.

(** [Reset(T* ptr)] *)
Definition Reset_ptr (this : IntrusivePtr) (ptr : option nat) : M IntrusivePtr :=
  let* this := Reset this in
  let this := {| obj_ := ptr |} in
  match obj_ this with
  | Some o => IncRef o ;; ret this
  | None => ret this
  end.

(** [IntrusivePtr(T* ptr)]: the member takes its default initialiser, then
    [Reset(ptr)]. *)
Definition from_raw (ptr : option nat) : M IntrusivePtr := Reset_ptr default ptr.

(** [IntrusivePtr(const IntrusivePtr& other)] and its converting twin *)
Definition copy (other : IntrusivePtr) : M IntrusivePtr := Reset_ptr default (obj_ other).

(** [Swap]: returns the new [*this] and the new [other]. *)
Definition Swap (this other : IntrusivePtr) : IntrusivePtr * IntrusivePtr :=
  ({| obj_ := obj_ other |}, {| obj_ := obj_ this |}).

(** [IntrusivePtr(IntrusivePtr&& other)] *)
Definition move (other : IntrusivePtr) : IntrusivePtr * IntrusivePtr := Swap default other.

(** [IntrusivePtr(IntrusivePtr<Y>&& other)] *)
Definition move_conv (other : IntrusivePtr) : IntrusivePtr * IntrusivePtr :=
  ({| obj_ := obj_ other |}, {| obj_ := None |}).

(** [operator=(const IntrusivePtr&)]; [self] is the test [this == &other]. *)
Definition assign (self : bool) (this other : IntrusivePtr) : M IntrusivePtr :=
  if self then ret this else Reset_ptr this (obj_ other).

(** [operator=(IntrusivePtr&&)] *)
Definition move_assign (self : bool) (this other : IntrusivePtr)
  : M (IntrusivePtr * IntrusivePtr) :=
  if self then ret (this, other)
  else
    let* this := Reset this in
    ret (Swap this other).

Definition Get (this : IntrusivePtr) : option nat := obj_ this.

(** [UseCount] *)
Definition UseCount (this : IntrusivePtr) : M Z :=
  match obj_ this with
  | Some o => RefCount o
  | None => ret 0
  end.

(** [explicit operator bool() const] *)
Definition to_bool (this : IntrusivePtr) : bool := bool_decide (obj_ this ≠ None).

(** [new T(args...)]: the constructor either throws, and then nothing was
    allocated, or leaves a new object whose counter is 0. *)
Definition new_object (fail : option nat) : M nat :=
  match fail with
  | Some code => throw (PayloadFailure code)
  | None =>
      λ s, Ok (next_obj s)
              {| objs := <[next_obj s := {| count_ := 0 |}]> (objs s);
                 next_obj := S (next_obj s);
                 destroy_log := destroy_log s |}
  end.

(** [MakeIntrusive<T>(args...)] *)
Definition MakeIntrusive (fail : option nat) : M IntrusivePtr :=
  let* o := new_object fail in
  from_raw (Some o).

(** Programs: the store and the pointer objects, each named by its
    position; a destroyed pointer object stays in its slot in the state
    its destructor leaves it in. *)
Record World := {
  store : Store;
  ptrs : list IntrusivePtr
}.

Definition init : World := {| store := empty_store; ptrs := [] |}.

Inductive Op :=
| IDefault                      (* IntrusivePtr<T> p;                 *)
| IMake (fail : option nat)     (* auto p = MakeIntrusive<T>(...);    *)
| IFromRaw (src : nat)          (* IntrusivePtr<T> p(src.Get());      *)
| ICopy (src : nat)             (* IntrusivePtr<T> p(src);            *)
| IMove (src : nat)             (* IntrusivePtr<T> p(std::move(src)); *)
| IMoveConv (src : nat)         (* IntrusivePtr<T> p(std::move(src)), src an IntrusivePtr<Y> *)
| IAssign (dst src : nat)       (* dst = src;                         *)
| IMoveAssign (dst src : nat)   (* dst = std::move(src);              *)
| IReset (i : nat)              (* i.Reset();  or  i.~IntrusivePtr(); *)
| IResetPtr (i src : nat)       (* i.Reset(src.Get());                *)
| ISwap (i j : nat).            (* i.Swap(j);                         *)

Inductive outcome :=
| Next (w : World)
| Raised (e : exn) (w : World)
| Stuck
| Undefined.

Definition exec {A} (c : M A) (k : A → Store → World) (w : World) : outcome :=
  match c (store w) with
  | Ok a s => Next (k a s)
  | Throw e s => Raised e {| store := s; ptrs := ptrs w |}
  | UB => Undefined
  end.

Definition step (op : Op) (w : World) : outcome :=
  match op with
  | IDefault => Next {| store := store w; ptrs := ptrs w ++ [default] |}
  | IMake fail =>
      exec (MakeIntrusive fail) (λ p s, {| store := s; ptrs := ptrs w ++ [p] |}) w
  | IFromRaw src =>
      match ptrs w !! src with
      | Some other =>
          exec (from_raw (Get other)) (λ p s, {| store := s; ptrs := ptrs w ++ [p] |}) w
      | None => Stuck
      end
  | ICopy src =>
      match ptrs w !! src with
      | Some other =>
          exec (copy other) (λ p s, {| store := s; ptrs := ptrs w ++ [p] |}) w
      | None => Stuck
      end
  | IMove src =>
      match ptrs w !! src with
      | Some other =>
          let '(this, other') := move other in
          Next {| store := store w; ptrs := <[src := other']> (ptrs w) ++ [this] |}
      | None => Stuck
      end
  | IMoveConv src =>
      match ptrs w !! src with
      | Some other =>
          let '(this, other') := move_conv other in
          Next {| store := store w; ptrs := <[src := other']> (ptrs w) ++ [this] |}
      | None => Stuck
      end
  | IAssign dst src =>
      match ptrs w !! dst, ptrs w !! src with
      | Some this, Some other =>
          exec (assign (bool_decide (dst = src)) this other)
               (λ p s, {| store := s; ptrs := <[dst := p]> (ptrs w) |}) w
      | _, _ => Stuck
      end
  | IMoveAssign dst src =>
      match ptrs w !! dst, ptrs w !! src with
      | Some this, Some other =>
          exec (move_assign (bool_decide (dst = src)) this other)
               (λ r s, {| store := s; ptrs := <[dst := r.1]> (<[src := r.2]> (ptrs w)) |}) w
      | _, _ => Stuck
      end
  | IReset i =>
      match ptrs w !! i with
      | Some this =>
          exec (Reset this) (λ p s, {| store := s; ptrs := <[i := p]> (ptrs w) |}) w
      | None => Stuck
      end
  | IResetPtr i src =>
      match ptrs w !! i, ptrs w !! src with
      | Some this, Some other =>
          exec (Reset_ptr this (Get other))
               (λ p s, {| store := s; ptrs := <[i := p]> (ptrs w) |}) w
      | _, _ => Stuck
      end
  | ISwap i j =>
      match ptrs w !! i, ptrs w !! j with
      | Some this, Some other =>
          let '(this', other') := Swap this other in
          Next {| store := store w; ptrs := <[i := this']> (<[j := other']> (ptrs w)) |}
      | _, _ => Stuck
      end
  end.

(** An exception is caught by the caller and the program goes on. *)
Fixpoint run (ops : list Op) (w : World) : outcome :=
  match ops with
  | [] => Next w
  | op :: ops' =>
      match step op w with
      | Next w' => run ops' w'
      | Raised _ w' => run ops' w'
      | Stuck => Stuck
      | Undefined => Undefined
      end
  end.

(** The operations that reset a pointer to the object it holds itself. *)
Definition self_reset (op : Op) : bool :=
  match op with
  | IResetPtr i src => bool_decide (i = src)
  | _ => false
  end.

End Intrusive.

(** ** The shared pointer without weak references (shared/shared.h)

    The first variant of the library: a control block carries a strong
    count only, and the payload goes when the block goes. *)
Module Strong.

(** [PtrControlBlock<T>] holds the handle [ptr_]; [MakeSharedControlBlock<T>]
    holds the storage of the payload.  Each has its own [shared_counter_]. *)
Inductive BlockData :=
| PtrData (ptr_ : option obj_addr)
| StorageData.

Record ControlBlock := {
  shared_counter_ : Z;
  payload_ : BlockData
}.

Definition set_shared (c : Z) (cb : ControlBlock) : ControlBlock :=
  {| shared_counter_ := c; payload_ := payload_ cb |}.

Inductive event :=
| EvAlloc (b : nat) (d : BlockData)
| EvConstruct (b : nat)
| EvDestroy (b : nat) (p : obj_addr)
| EvFree (b : nat).

Record Mem := {
  heap : gmap nat ControlBlock;
  next_block : nat;
  log : list event
}.

Definition empty_mem : Mem := {| heap := ∅; next_block := 0%nat; log := [] |}.

Inductive result (A : Type) :=
| Ok (a : A) (m : Mem)
| Throw (e : exn) (m : Mem)
| UB.
Arguments Ok {A} a m.
Arguments Throw {A} e m.
Arguments UB {A}.

Definition M (A : Type) : Type := Mem → result A.

Definition ret {A} (a : A) : M A := λ m, Ok a m.

Definition bind {A B} (c : M A) (k : A → M B) : M B :=
  λ m, match c m with
       | Ok a m' => k a m'
       | Throw e m' => Throw e m'
       | UB => UB
       end.

Definition throw {A} (e : exn) : M A := λ m, Throw e m.

Declare Scope strong_scope.
Delimit Scope strong_scope with strong.
Notation "'let*' x := c 'in' k" := (bind c (λ x, k))
  (at level 10, x pattern, c at level 100, k at level 200) : strong_scope.
Notation "c ;; k" := (bind c (λ _, k))
  (at level 100, k at level 200, right associativity) : strong_scope.
Local Open Scope strong_scope.

Definition get_block (b : nat) : M ControlBlock :=
  λ m, match heap m !! b with
       | Some cb => Ok cb m
       | None => UB
       end.

Definition put_block (b : nat) (cb : ControlBlock) : M unit :=
  λ m, Ok tt {| heap := <[b := cb]> (heap m); next_block := next_block m; log := log m |}.

Definition emit (e : event) : M unit :=
  λ m, Ok tt {| heap := heap m; next_block := next_block m; log := log m ++ [e] |}.

Definition IncrementShared (b : nat) : M unit :=
  let* cb := get_block b in
  put_block b (set_shared (size_incr (shared_counter_ cb)) cb).

(** [DecrementShared] only counts here; the payload is left to the block's
    destructor. *)
Definition DecrementShared (b : nat) : M unit :=
  let* cb := get_block b in
  put_block b (set_shared (size_decr (shared_counter_ cb)) cb).

Definition GetSharedCount (b : nat) : M Z :=
  let* cb := get_block b in ret (shared_counter_ cb).

Definition CanBlockBeDeleted (b : nat) : M bool :=
  let* cb := get_block b in
  ret (shared_counter_ cb =? 0)%Z.

(** [new PtrControlBlock<T>(ptr)] and [new MakeSharedControlBlock<T>]: the
    member initialiser sets the counter to 1. *)
Definition alloc_block (d : BlockData) : M nat :=
  λ m, let b := next_block m in
       Ok b {| heap := <[b := {| shared_counter_ := 1; payload_ := d |}]> (heap m);
               next_block := S b;
               log := log m ++ [EvAlloc b d] |}.

Definition new_PtrControlBlock (ptr : option obj_addr) : M nat :=
  alloc_block (PtrData ptr).

Definition new_MakeSharedControlBlock : M nat :=
  alloc_block StorageData.

Definition free_block (b : nat) : M unit :=
  λ m, match heap m !! b with
       | Some _ => Ok tt {| heap := delete b (heap m); next_block := next_block m;
                            log := log m ++ [EvFree b] |}
       | None => UB
       end.

(** [delete block_]: [~PtrControlBlock] deletes a non-null handle,
    [~MakeSharedControlBlock] runs the payload destructor whatever
    happened before; then the memory goes. *)
Definition delete_block (b : nat) : M unit :=
  let* cb := get_block b in
  match payload_ cb with
  | PtrData (Some p) => emit (EvDestroy b p)
  | PtrData None => ret tt
  | StorageData => emit (EvDestroy b (StorageOf b))
  end ;;
  free_block b.

(** [try { c } catch (...) { h; throw; }] *)
Definition try_rethrow {A} (c : M A) (h : M unit) : M A :=
  λ m, match c m with
       | Ok a m' => Ok a m'
       | Throw e m' =>
           match h m' with
           | Ok _ m'' => Throw e m''
           | Throw e' m'' => Throw e' m''
           | UB => UB
           end
       | UB => UB
       end.

Record SharedPtr := {
  obj_ : option obj_addr;
  block_ : option nat
}.

(** [SharedPtr()] and [SharedPtr(std::nullptr_t)] *)
Definition default : SharedPtr := {| obj_ := None; block_ := None |}.

(** [explicit SharedPtr(T* ptr)] and its [Y*] template twin *)
Definition from_raw (ptr : option obj_addr) : M SharedPtr :=
  let* b := new_PtrControlBlock ptr in
  ret {| obj_ := ptr; block_ := Some b |}.

(** [SharedPtr(const SharedPtr& other)] and its converting twin *)
Definition copy (other : SharedPtr) : M SharedPtr :=
  let this := {| obj_ := obj_ other; block_ := block_ other |} in
  match block_ this with
  | Some b => IncrementShared b ;; ret this
  | None => ret this
  end.

(** [Swap]: returns the new [*this] and the new [other]. *)
Definition Swap (this other : SharedPtr) : SharedPtr * SharedPtr :=
  ({| obj_ := obj_ other; block_ := block_ other |},
   {| obj_ := obj_ this; block_ := block_ this |}).

(** [SharedPtr(SharedPtr&& other)] *)
Definition move (other : SharedPtr) : SharedPtr * SharedPtr := Swap default other.

(** [SharedPtr(SharedPtr<Y>&& other)] *)
Definition move_conv (other : SharedPtr) : SharedPtr * SharedPtr :=
  ({| obj_ := obj_ other; block_ := block_ other |}, {| obj_ := None; block_ := None |}).

(** [SharedPtr(T* obj, BaseControlBlock* block)] *)
Definition adopt (obj : option obj_addr) (block : option nat) : SharedPtr :=
  {| obj_ := obj; block_ := block |}.

(** Aliasing constructor [SharedPtr(const SharedPtr<Y>& other, T* ptr)] *)
Definition alias (other : SharedPtr) (ptr : option obj_addr) : M SharedPtr :=
  let this := {| obj_ := ptr; block_ := block_ other |} in
  match block_ this with
  | Some b => IncrementShared b ;; ret this
  | None => ret this
  end.

(** [Reset()], which is also the whole body of [~SharedPtr]. *)
Definition Reset (this : SharedPtr) : M SharedPtr :=
  match block_ this with
  | Some b =>
      DecrementShared b ;;
      let* deletable := CanBlockBeDeleted b in
      (if deletable then delete_block b else ret tt) ;;
      ret {| obj_ := None; block_ := None |}
  | None => ret {| obj_ := None; block_ := block_ this |}
  end.

(** [Reset(T* ptr)] and its [Y*] template twin *)
Definition Reset_ptr (this : SharedPtr) (ptr : option obj_addr) : M SharedPtr :=
  Reset this ;;
  let* b := new_PtrControlBlock ptr in
  ret {| obj_ := ptr; block_ := Some b |}.

(** [operator=(const SharedPtr&)]; [self] is the test [this == &other]. *)
Definition assign (self : bool) (this other : SharedPtr) : M SharedPtr :=
  if self then ret this
  else
    Reset this ;;
    let this := {| obj_ := obj_ other; block_ := block_ other |} in
    match block_ this with
    | Some b => IncrementShared b ;; ret this
    | None => ret this
    end.

(** [operator=(SharedPtr&&)] *)
Definition move_assign (self : bool) (this other : SharedPtr) : M (SharedPtr * SharedPtr) :=
  if self then ret (this, other)
  else
    let* this := Reset this in
    ret (Swap this other).

Definition Get (this : SharedPtr) : option obj_addr := obj_ this.

Definition UseCount (this : SharedPtr) : M Z :=
  match block_ this with
  | Some b => GetSharedCount b
  | None => ret 0
  end.

(** [explicit operator bool() const] *)
Definition to_bool (this : SharedPtr) : bool := bool_decide (block_ this ≠ None).

(** A payload constructor that either completes or throws. *)
Definition payload_ctor (fail : option nat) (p : obj_addr) : M unit :=
  match fail, p with
  | Some code, _ => throw (PayloadFailure code)
  | None, StorageOf b => emit (EvConstruct b)
  | None, ObjAt _ => ret tt
  end.

(** [MakeShared<T>(args...)] *)
Definition MakeShared (ctor : obj_addr → M unit) : M SharedPtr :=
  let* block_ptr := new_MakeSharedControlBlock in
  try_rethrow (ctor (StorageOf block_ptr)) (delete_block block_ptr) ;;
  ret (adopt (Some (StorageOf block_ptr)) (Some block_ptr)).

(** Programs over the pointer objects, each named by its position. *)
Record World := {
  mem : Mem;
  sps : list SharedPtr
}.

Definition init : World := {| mem := empty_mem; sps := [] |}.

Inductive Op :=
| SDefault                                   (* SharedPtr<T> p;                 *)
| SNew (ptr : option obj_addr)               (* SharedPtr<T> p(ptr);            *)
| SMakeShared (fail : option nat)            (* auto p = MakeShared<T>(...);    *)
| SCopy (src : nat)                          (* SharedPtr<T> p(src);            *)
| SMove (src : nat)                          (* SharedPtr<T> p(std::move(src)); *)
| SAlias (src : nat) (ptr : option obj_addr) (* SharedPtr<T> p(src, ptr);       *)
| SAssign (dst src : nat)                    (* dst = src;                      *)
| SMoveAssign (dst src : nat)                (* dst = std::move(src);           *)
| SReset (i : nat)                           (* i.Reset();  or  i.~SharedPtr(); *)
| SResetPtr (i : nat) (ptr : option obj_addr)(* i.Reset(ptr);                   *)
| SSwap (i j : nat).                         (* i.Swap(j);                      *)

Inductive outcome :=
| Next (w : World)
| Raised (e : exn) (w : World)
| Stuck
| Undefined.

Definition exec {A} (c : M A) (k : A → Mem → World) (w : World) : outcome :=
  match c (mem w) with
  | Ok a m => Next (k a m)
  | Throw e m => Raised e {| mem := m; sps := sps w |}
  | UB => Undefined
  end.

Definition step (op : Op) (w : World) : outcome :=
  match op with
  | SDefault => Next {| mem := mem w; sps := sps w ++ [default] |}
  | SNew ptr =>
      exec (from_raw ptr) (λ p m, {| mem := m; sps := sps w ++ [p] |}) w
  | SMakeShared fail =>
      exec (MakeShared (payload_ctor fail)) (λ p m, {| mem := m; sps := sps w ++ [p] |}) w
  | SCopy src =>
      match sps w !! src with
      | Some other => exec (copy other) (λ p m, {| mem := m; sps := sps w ++ [p] |}) w
      | None => Stuck
      end
  | SMove src =>
      match sps w !! src with
      | Some other =>
          let '(this, other') := move other in
          Next {| mem := mem w; sps := <[src := other']> (sps w) ++ [this] |}
      | None => Stuck
      end
  | SAlias src ptr =>
      match sps w !! src with
      | Some other => exec (alias other ptr) (λ p m, {| mem := m; sps := sps w ++ [p] |}) w
      | None => Stuck
      end
  | SAssign dst src =>
      match sps w !! dst, sps w !! src with
      | Some this, Some other =>
          exec (assign (bool_decide (dst = src)) this other)
               (λ p m, {| mem := m; sps := <[dst := p]> (sps w) |}) w
      | _, _ => Stuck
      end
  | SMoveAssign dst src =>
      match sps w !! dst, sps w !! src with
      | Some this, Some other =>
          exec (move_assign (bool_decide (dst = src)) this other)
               (λ r m, {| mem := m; sps := <[dst := r.1]> (<[src := r.2]> (sps w)) |}) w
      | _, _ => Stuck
      end
  | SReset i =>
      match sps w !! i with
      | Some this => exec (Reset this) (λ p m, {| mem := m; sps := <[i := p]> (sps w) |}) w
      | None => Stuck
      end
  | SResetPtr i ptr =>
      match sps w !! i with
      | Some this =>
          exec (Reset_ptr this ptr) (λ p m, {| mem := m; sps := <[i := p]> (sps w) |}) w
      | None => Stuck
      end
  | SSwap i j =>
      match sps w !! i, sps w !! j with
      | Some this, Some other =>
          let '(this', other') := Swap this other in
          Next {| mem := mem w; sps := <[i := this']> (<[j := other']> (sps w)) |}
      | _, _ => Stuck
      end
  end.

(** An exception is caught by the caller and the program goes on. *)
Fixpoint run (ops : list Op) (w : World) : outcome :=
  match ops with
  | [] => Next w
  | op :: ops' =>
      match step op w with
      | Next w' => run ops' w'
      | Raised _ w' => run ops' w'
      | Stuck => Stuck
      | Undefined => Undefined
      end
  end.

End Strong.

(** *** The first variant seen from the second

    A store of shared/shared.h as the store of weak/shared.h it stands for:
    every block has weak count 0 and an untouched payload. *)
Definition embed_data (d : Strong.BlockData) : BlockData :=
  match d with
  | Strong.PtrData ptr => PtrData ptr
  | Strong.StorageData => MakeSharedData false
  end.

Definition embed_block (cb : Strong.ControlBlock) : ControlBlock :=
  {| shared_counter_ := Strong.shared_counter_ cb;
     weak_counter_ := 0;
     payload_ := embed_data (Strong.payload_ cb) |}.

Definition embed_event (e : Strong.event) : event :=
  match e with
  | Strong.EvAlloc b d => EvAlloc b (embed_data d)
  | Strong.EvConstruct b => EvConstruct b
  | Strong.EvDestroy b p => EvDestroy b p
  | Strong.EvFree b => EvFree b
  end.

Definition embed_mem (m : Strong.Mem) : Mem :=
  {| heap := embed_block <$> Strong.heap m;
     next_block := Strong.next_block m;
     log := embed_event <$> Strong.log m |}.

Definition embed_ptr (p : Strong.SharedPtr) : SharedPtr :=
  {| sp_obj_ := Strong.obj_ p; sp_block_ := Strong.block_ p |}.

Definition embed_world (w : Strong.World) : World :=
  {| mem := embed_mem (Strong.mem w); sps := embed_ptr <$> Strong.sps w; wps := [] |}.

Definition embed_outcome (o : Strong.outcome) : outcome :=
  match o with
  | Strong.Next w => Next (embed_world w)
  | Strong.Raised e w => Raised e (embed_world w)
  | Strong.Stuck => Stuck
  | Strong.Undefined => Undefined
  end.

Definition embed_result {A B} (f : A → B) (r : Strong.result A) : result B :=
  match r with
  | Strong.Ok a m => Ok (f a) (embed_mem m)
  | Strong.Throw e m => Throw e (embed_mem m)
  | Strong.UB => UB
  end.

(** The operation of weak/shared.h an operation of shared/shared.h
    corresponds to. *)
Definition embed_op (op : Strong.Op) : Op :=
  match op with
  | Strong.SDefault => ODefault
  | Strong.SNew ptr => ONew ptr
  | Strong.SMakeShared fail => OMakeShared fail
  | Strong.SCopy src => OCopy src
  | Strong.SMove src => OMove src
  | Strong.SAlias src ptr => OAlias src ptr
  | Strong.SAssign dst src => OAssign dst src
  | Strong.SMoveAssign dst src => OMoveAssign dst src
  | Strong.SReset i => OReset i
  | Strong.SResetPtr i ptr => OResetPtr i ptr
  | Strong.SSwap i j => OSwap i j
  end.

(** * Specification vocabulary *)

(** The store after a call differs from the store before at block [b] only. *)
Definition same_but (b : nat) (m m' : Mem) : Prop :=
  next_block m' = next_block m ∧ ∀ b', b' ≠ b → heap m' !! b' = heap m !! b'.

(** The state [DeleteData] leaves the payload field in, and what it logs. *)
Definition deleted (d : BlockData) : BlockData :=
  match d with
  | PtrData _ => PtrData None
  | MakeSharedData _ => MakeSharedData true
  end.

Definition destroy_events (b : nat) (d : BlockData) : list event :=
  match d with
  | PtrData (Some p) => [EvDestroy b p]
  | PtrData None => []
  | MakeSharedData false => [EvDestroy b (StorageOf b)]
  | MakeSharedData true => []
  end.

(** The payload a block holds: a non-null handle, or storage whose object
    was not destroyed yet. *)
Definition has_payload (d : BlockData) : bool :=
  match d with
  | PtrData (Some _) => true
  | PtrData None => false
  | MakeSharedData was_deleted => negb was_deleted
  end.

Definition holds_payload (cb : ControlBlock) : bool := has_payload (payload_ cb).

(** [Reset()] of a shared pointer attached to block [b]. *)
Definition release_shared_post (b : nat) (cb : ControlBlock) (m m' : Mem) : Prop :=
  same_but b m m' ∧
  let c := size_decr (shared_counter_ cb) in
  if (c =? 0)%Z
  then log m' = log m ++ destroy_events b (payload_ cb)
                      ++ (if (weak_counter_ cb =? 0)%Z then [EvFree b] else [])
       ∧ heap m' !! b =
           (if (weak_counter_ cb =? 0)%Z then None
            else Some {| shared_counter_ := c; weak_counter_ := weak_counter_ cb;
                         payload_ := deleted (payload_ cb) |})
  else log m' = log m ∧ heap m' !! b = Some (set_shared c cb).

(** [Reset()] of a weak pointer attached to block [b]. *)
Definition release_weak_post (b : nat) (cb : ControlBlock) (m m' : Mem) : Prop :=
  same_but b m m' ∧
  let c := size_decr (weak_counter_ cb) in
  if (shared_counter_ cb =? 0)%Z && (c =? 0)%Z
  then log m' = log m ++ destroy_events b (payload_ cb) ++ [EvFree b] ∧ heap m' !! b = None
  else log m' = log m ∧ heap m' !! b = Some (set_weak c cb).

(** ** Counting references and events *)

(** Number of entries of [l] that point to block [b]. *)
Fixpoint nrefs (b : nat) (l : list (option nat)) : nat :=
  match l with
  | [] => 0
  | x :: l' => (if decide (x = Some b) then 1 else 0) + nrefs b l'
  end%nat.

Definition srefs (b : nat) (l : list SharedPtr) : nat := nrefs b (sp_block_ <$> l).
Definition wrefs (b : nat) (l : list WeakPtr) : nat := nrefs b (wp_block_ <$> l).

Definition points (b : nat) (x : option nat) : nat := if decide (x = Some b) then 1%nat else 0%nat.

Fixpoint count (f : event → bool) (l : list event) : nat :=
  match l with
  | [] => 0
  | e :: l' => (if f e then 1 else 0) + count f l'
  end%nat.

Definition is_destroy (b : nat) (e : event) : bool :=
  match e with EvDestroy b' _ => bool_decide (b' = b) | _ => false end.
Definition is_free (b : nat) (e : event) : bool :=
  match e with EvFree b' => bool_decide (b' = b) | _ => false end.

Definition is_birth (b : nat) (e : event) : bool :=
  match e with EvAlloc b' d => bool_decide (b' = b) && has_payload d | _ => false end.

(** How often the payload of block [b] was destroyed, how often the block
    was freed, and whether it was created holding a payload. *)
Definition destroyed (b : nat) (l : list event) : nat := count (is_destroy b) l.
Definition freed (b : nat) (l : list event) : nat := count (is_free b) l.
Definition born (b : nat) (l : list event) : bool := negb (count (is_birth b) l =? 0)%nat.

(** ** The bookkeeping invariant

    The invariant speaks of a world only through its store and the number
    of shared and weak pointers attached to each block. *)

(** A store with, for each block, the number of shared and of weak
    pointers attached to it. *)
Record AState := {
  am : Mem;
  aS : nat → nat;
  aW : nat → nat
}.

Definition abs (w : World) : AState :=
  {| am := mem w; aS := λ b, srefs b (sps w); aW := λ b, wrefs b (wps w) |}.

(** Counters never wrap; a live block carries the numbers of pointers
    attached to it, at least one of them, was never freed, and its payload
    was destroyed once exactly if it was created with one and holds none
    now; a block that is gone has no pointers attached, was freed once, and
    its payload, if it had one, was destroyed once; nothing is known yet of
    the blocks to come. *)
Record Inv (a : AState) : Prop := {
  inv_bound : ∀ b, Z.of_nat (aS a b) < SIZE_MOD ∧ Z.of_nat (aW a b) < SIZE_MOD;
  inv_live : ∀ b cb, heap (am a) !! b = Some cb →
    shared_counter_ cb = Z.of_nat (aS a b) ∧
    weak_counter_ cb = Z.of_nat (aW a b) ∧
    (0 < aS a b + aW a b)%nat ∧
    (b < next_block (am a))%nat ∧
    freed b (log (am a)) = 0%nat ∧
    (holds_payload cb = true → born b (log (am a)) = true) ∧
    destroyed b (log (am a))
      = (if born b (log (am a)) && negb (holds_payload cb) then 1 else 0)%nat;
  inv_dead : ∀ b, heap (am a) !! b = None →
    aS a b = 0%nat ∧ aW a b = 0%nat ∧
    freed b (log (am a)) = (if decide (b < next_block (am a))%nat then 1 else 0)%nat ∧
    destroyed b (log (am a)) = (if born b (log (am a)) then 1 else 0)%nat ∧
    ((next_block (am a) ≤ b)%nat → born b (log (am a)) = false)
}.

(** For a block created with a payload, the payload is there exactly while
    the strong count is positive. *)
Definition AliveAt (b : nat) (a : AState) : Prop :=
  ∀ cb, heap (am a) !! b = Some cb →
        holds_payload cb = born b (log (am a)) && (0 <? aS a b)%nat.

(** Every operation is a release phase followed by an acquire phase. *)
Inductive phase1 (a a' : AState) : Prop :=
| P1_none :
    am a' = am a → (∀ b, aS a' b = aS a b) → (∀ b, aW a' b = aW a b) → phase1 a a'
| P1_release_shared b cb :
    heap (am a) !! b = Some cb →
    release_shared_post b cb (am a) (am a') →
    (∀ b', aS a' b' + (if decide (b' = b) then 1 else 0) = aS a b')%nat →
    (∀ b', aW a' b' = aW a b') →
    phase1 a a'
| P1_release_weak b cb :
    heap (am a) !! b = Some cb →
    release_weak_post b cb (am a) (am a') →
    (∀ b', aS a' b' = aS a b') →
    (∀ b', aW a' b' + (if decide (b' = b) then 1 else 0) = aW a b')%nat →
    phase1 a a'.

(** [lock] says whether the strong count may be raised from 0, which only
    [Lock] does. *)
Inductive phase2 (lock : bool) (a a' : AState) : Prop :=
| P2_none :
    am a' = am a → (∀ b, aS a' b = aS a b) → (∀ b, aW a' b = aW a b) → phase2 lock a a'
| P2_acquire_shared b cb :
    heap (am a) !! b = Some cb →
    (lock = false → (0 < aS a b)%nat) →
    same_but b (am a) (am a') →
    log (am a') = log (am a) →
    heap (am a') !! b = Some (set_shared (size_incr (shared_counter_ cb)) cb) →
    (∀ b', aS a' b' = aS a b' + (if decide (b' = b) then 1 else 0))%nat →
    (∀ b', aW a' b' = aW a b') →
    Z.of_nat (aS a' b) < SIZE_MOD →
    phase2 lock a a'
| P2_acquire_weak b cb :
    heap (am a) !! b = Some cb →
    same_but b (am a) (am a') →
    log (am a') = log (am a) →
    heap (am a') !! b = Some (set_weak (size_incr (weak_counter_ cb)) cb) →
    (∀ b', aS a' b' = aS a b') →
    (∀ b', aW a' b' = aW a b' + (if decide (b' = b) then 1 else 0))%nat →
    Z.of_nat (aW a' b) < SIZE_MOD →
    phase2 lock a a'
| P2_alloc d evs :
    let b := next_block (am a) in
    next_block (am a') = S b →
    (∀ b', b' ≠ b → heap (am a') !! b' = heap (am a) !! b') →
    log (am a') = log (am a) ++ EvAlloc b d :: evs →
    evs = [] ∨ evs = [EvConstruct b] →
    heap (am a') !! b = Some {| shared_counter_ := 1; weak_counter_ := 0; payload_ := d |} →
    (∀ b', aS a' b' = aS a b' + (if decide (b' = b) then 1 else 0))%nat →
    (∀ b', aW a' b' = aW a b') →
    phase2 lock a a'
| P2_failed :
    let b := next_block (am a) in
    next_block (am a') = S b →
    (∀ b', b' ≠ b → heap (am a') !! b' = heap (am a) !! b') →
    log (am a') = log (am a) ++ [EvAlloc b (MakeSharedData false);
                                 EvDestroy b (StorageOf b); EvFree b] →
    heap (am a') !! b = None →
    (∀ b', aS a' b' = aS a b') →
    (∀ b', aW a' b' = aW a b') →
    phase2 lock a a'.

(** One more pointer object of either kind still has a count that fits
    [size_t]. *)
Definition room (w : World) : Prop :=
  Z.of_nat (length (sps w)) + 1 < SIZE_MOD ∧ Z.of_nat (length (wps w)) + 1 < SIZE_MOD.

Definition is_lock (op : Op) : bool :=
  match op with OLock _ => true | _ => false end.

(** The two phases of one operation; [Lock] has no release phase. *)
Definition summary (lock : bool) (w w' : World) : Prop :=
  ∃ a1, phase1 (abs w) a1 ∧ phase2 lock a1 (abs w') ∧
        (lock = true → am a1 = mem w ∧ ∀ b, aS a1 b = srefs b (sps w)).

Definition summarised (lock : bool) (w : World) (o : outcome) : Prop :=
  match o with
  | Next w' | Raised _ w' => summary lock w w'
  | Stuck => True
  | Undefined => False
  end.

(** [n] more pointer objects of either kind still have counts that fit
    [size_t]. *)
Definition fits (n : nat) (w : World) : Prop :=
  Z.of_nat (length (sps w) + n) < SIZE_MOD ∧ Z.of_nat (length (wps w) + n) < SIZE_MOD.

(** Worlds reached from the empty program state by a program that leaves
    room for one more pointer object. *)
Definition reachable (w : World) : Prop :=
  ∃ ops, run ops init = Next w ∧ Z.of_nat (length ops) + 1 < SIZE_MOD.

(** Programs that never call [Lock]. *)
Definition no_lock (ops : list Op) : bool := forallb (λ o, negb (is_lock o)) ops.

(** The strong count of block [b], read as 0 once the block is gone. *)
Definition strong_count (b : nat) (m : Mem) : Z :=
  match heap m !! b with
  | Some cb => shared_counter_ cb
  | None => 0
  end.

(** [SFT.Reset] of a weak pointer attached to block [b]. *)
Definition sft_release_post (flag : bool) (b : nat) (cb : ControlBlock) (m m' : Mem) : Prop :=
  same_but b m m' ∧
  let c := size_decr (weak_counter_ cb) in
  if (shared_counter_ cb =? 0)%Z && (c =? 0)%Z && flag
  then log m' = log m ++ destroy_events b (payload_ cb) ++ [EvFree b] ∧ heap m' !! b = None
  else log m' = log m ∧ heap m' !! b = Some (set_weak c cb).

(** The operations that write to shared pointer object [k]. *)
Definition touches (k : nat) (op : Op) : bool :=
  match op with
  | OMove src => bool_decide (src = k)
  | OAssign dst _ => bool_decide (dst = k)
  | OMoveAssign dst src => bool_decide (dst = k) || bool_decide (src = k)
  | OReset i | OResetPtr i _ => bool_decide (i = k)
  | OSwap i j => bool_decide (i = k) || bool_decide (j = k)
  | _ => false
  end.

(** Calls that never throw. *)
Definition quiet {A} (c : M A) : Prop := ∀ m e m', c m ≠ Throw e m'.

(** How often block [b] was allocated. *)
Definition is_alloc (b : nat) (e : event) : bool :=
  match e with EvAlloc b' _ => bool_decide (b' = b) | _ => false end.

Definition allocated (b : nat) (l : list event) : nat := count (is_alloc b) l.

(** Whether block [b] is in the store. *)
Definition live (b : nat) (m : Mem) : nat :=
  match heap m !! b with Some _ => 1%nat | None => 0%nat end.

(** Every block identity below [next_block] was handed out once. *)
Definition AllocInv (m : Mem) : Prop :=
  ∀ b, allocated b (log m) = (if decide (b < next_block m)%nat then 1 else 0)%nat.

(** The result of a call, with the value seen through [f]. *)
Definition map_result {A B} (f : A → B) (r : result A) : result B :=
  match r with
  | Ok a m => Ok (f a) m
  | Throw e m => Throw e m
  | UB => UB
  end.

(** ** Intrusive pointers: counting and bookkeeping *)

(** Number of pointer objects that hold object [o]. *)
Definition holders (o : nat) (l : list Intrusive.IntrusivePtr) : nat :=
  nrefs o (Intrusive.obj_ <$> l).

(** How often object [o] was deleted. *)
Definition deletions (o : nat) (l : list nat) : nat :=
  length (filter (λ o', o' = o) l).

(** The store is determined by the pointer objects: an object is in the
    store exactly while some pointer holds it, and then its counter is the
    number of its holders; an object that was created and has no holder
    was deleted once, and nothing else was deleted. *)
Record IInv (s : Intrusive.Store) (H : nat → nat) : Prop := {
  iinv_objs : ∀ o, Intrusive.objs s !! o
                   = if (H o =? 0)%nat then None
                     else Some {| Intrusive.count_ := Z.of_nat (H o) |};
  iinv_log : ∀ o, deletions o (Intrusive.destroy_log s)
                  = (if (o <? Intrusive.next_obj s)%nat && (H o =? 0)%nat then 1 else 0)%nat;
  iinv_fresh : ∀ o, (Intrusive.next_obj s ≤ o)%nat → H o = 0%nat
}.

Definition IntrusiveInv (w : Intrusive.World) : Prop :=
  IInv (Intrusive.store w) (λ o, holders o (Intrusive.ptrs w)).

(** One more pointer object still has a count that fits [size_t]. *)
Definition iroom (w : Intrusive.World) : Prop :=
  Z.of_nat (length (Intrusive.ptrs w)) + 1 < SIZE_MOD.

(** The pointer at [i] is the only holder of the object [ptr] names. *)
Definition sole_self (l : list Intrusive.IntrusivePtr) (p : Intrusive.IntrusivePtr)
    (ptr : option nat) : bool :=
  match ptr with
  | Some o => bool_decide (Intrusive.obj_ p = Some o) && (holders o l =? 1)%nat
  | None => false
  end.

(** ** shared/shared.h seen through weak/shared.h *)

(** A call of weak/shared.h does to the store a store of shared/shared.h
    stands for what the call of shared/shared.h does to that store. *)
Definition simulates {A B} (f : A → B) (c : M B) (sc : Strong.M A) : Prop :=
  ∀ m, c (embed_mem m) = embed_result f (sc m).

(** Events of shared/shared.h, counted per block. *)
Fixpoint tally {A} (f : A → bool) (l : list A) : nat :=
  match l with
  | [] => 0
  | e :: l' => (if f e then 1 else 0) + tally f l'
  end%nat.

Definition strong_destroyed (b : nat) (l : list Strong.event) : nat :=
  tally (λ e, match e with Strong.EvDestroy b' _ => bool_decide (b' = b) | _ => false end) l.

Definition strong_freed (b : nat) (l : list Strong.event) : nat :=
  tally (λ e, match e with Strong.EvFree b' => bool_decide (b' = b) | _ => false end) l.

Definition strong_allocated (b : nat) (l : list Strong.event) : nat :=
  tally (λ e, match e with Strong.EvAlloc b' _ => bool_decide (b' = b) | _ => false end) l.

(** Whether block [b] was created holding a payload: a non-null handle or
    the storage of [MakeShared]. *)
Definition strong_born (b : nat) (l : list Strong.event) : bool :=
  negb (tally (λ e, match e with
                    | Strong.EvAlloc b' (Strong.PtrData (Some _))
                    | Strong.EvAlloc b' Strong.StorageData => bool_decide (b' = b)
                    | _ => false
                    end) l =? 0)%nat.

(** Number of pointer objects attached to block [b]. *)
Definition strong_refs (b : nat) (l : list Strong.SharedPtr) : nat :=
  nrefs b (Strong.block_ <$> l).

(** ** Programs whose payloads own no pointers *)

(** The store and the world of a program none of whose payloads has a
    pointer member. *)
Definition plain_store (m : Mem) : Payload.Store :=
  {| Payload.base := m; Payload.objects := ∅ |}.

Definition plain_world (w : World) : Payload.World :=
  {| Payload.store := plain_store (mem w); Payload.sptrs := sps w; Payload.wptrs := wps w |}.

(** The operation a command stands for when it gives no payload a pointer
    member. *)
Definition plain_op (c : Payload.Command) : option Op :=
  match c with
  | Payload.Do op => Some op
  | Payload.KeepShared _ _ | Payload.KeepWeak _ _ => None
  end.

Definition plain_ops (cs : list Payload.Command) : list Op := omap plain_op cs.

(** No command of the program assigns to a pointer member of a payload. *)
Definition owns_nothing (cs : list Payload.Command) : bool :=
  forallb (λ c, match plain_op c with Some _ => true | None => false end) cs.

(** A call on payloads with their destructors gives what the call on inert
    payloads gives. *)
Definition matches {A} (r0 : result A) (r : Payload.res A) : Prop :=
  match r0, r with
  | Ok a m, Payload.Returns a' s => a' = a ∧ s = plain_store m
  | Throw e m, Payload.Throws e' s => e' = e ∧ s = plain_store m
  | UB, Payload.Faults _ => True
  | _, _ => False
  end.

Definition agrees {A} (c0 : M A) (c : Payload.P A) : Prop :=
  ∀ m, matches (c0 m) (c (plain_store m)).

Definition same_outcome (o : outcome) (o' : Payload.outcome) : Prop :=
  match o, o' with
  | Next w, Payload.Next w' => w' = plain_world w
  | Raised e w, Payload.Raised e' w' => e' = e ∧ w' = plain_world w
  | Stuck, Payload.Stuck => True
  | Undefined, Payload.Undefined _ => True
  | _, _ => False
  end.

(** The world a command leaves behind, whether it returned or threw. *)
Definition payload_after (o : Payload.outcome) : option Payload.World :=
  match o with
  | Payload.Next w' | Payload.Raised _ w' => Some w'
  | Payload.Stuck | Payload.Undefined _ | Payload.OutOfFuel => None
  end.

(** * Worlds and programs used as examples *)

(** The world a program ends in. *)
Definition world_of (o : outcome) : World :=
  match o with
  | Next w => w
  | _ => init
  end.

(** One object with three owners. *)
Definition three_owners_world : World :=
  world_of (run [ONew (Some (ObjAt 7)); OCopy 0; OCopy 1]%nat init).

(** One object with one owner. *)
Definition single_owner_world : World :=
  world_of (run [ONew (Some (ObjAt 7))]%nat init).

(** One object with two owners. *)
Definition co_owned_world : World :=
  world_of (run [ONew (Some (ObjAt 7)); OCopy 0]%nat init).

(** Two owners, the first already reset; then the second reset too. *)
Definition last_owner_world : World :=
  world_of (run [ONew (Some (ObjAt 7)); OCopy 0; OReset 0]%nat init).

Definition last_owner_released_world : World :=
  world_of (step (OReset 1) last_owner_world).

(** A weak pointer that outlived the only owner; then the weak pointer
    reset too. *)
Definition expired_world : World :=
  world_of (run [ONew (Some (ObjAt 7)); WFromShared 0; OReset 0]%nat init).

Definition weak_released_world : World :=
  world_of (step (WReset 0) expired_world).

(** A block is created for an object and handed to a shared pointer and,
    through the back-reference constructor, to a weak pointer (both
    constructors are public); then the two pointers are reset. *)
Definition esft_weak_program : M SFT.WeakPtr :=
  let* b := new_PtrControlBlock (Some (ObjAt 1)) in
  let sp := SharedPtr_adopt (Some (ObjAt 1)) (Some b) in
  let* w := SFT.from_esft (Some (ObjAt 1)) (Some b) in
  SharedPtr_Reset sp ;;
  SFT.Reset w.

(** Two pointers, a move between them, a release and the destructors. *)
Definition unique_example_program : list (Unique.Op nat) :=
  [Unique.UNewDel (Some (ObjAt 1)) 5%nat; Unique.UNew (Some (ObjAt 2));
   Unique.UMoveAssign 1 0; Unique.UNew (Some (ObjAt 3)); Unique.URelease 2;
   Unique.UDestroy 0; Unique.UDestroy 1; Unique.UDestroy 2]%nat.

Definition unique_example_world : Unique.World nat :=
  default (Unique.init nat) (Unique.run nat 0%nat false unique_example_program (Unique.init nat)).

(** Two pointers made from one raw pointer, then both reset. *)
Definition intrusive_example_program : list Intrusive.Op :=
  [Intrusive.IMake None; Intrusive.IFromRaw 0; Intrusive.IReset 0]%nat.

Definition intrusive_world_of (o : Intrusive.outcome) : Intrusive.World :=
  match o with
  | Intrusive.Next w => w
  | _ => Intrusive.init
  end.

Definition intrusive_example_world : Intrusive.World :=
  intrusive_world_of (Intrusive.run intrusive_example_program Intrusive.init).

(** Two owners of one object and a factory-made object, all released. *)
Definition strong_example_program : list Strong.Op :=
  [Strong.SNew (Some (ObjAt 7)); Strong.SCopy 0; Strong.SMakeShared None;
   Strong.SReset 0; Strong.SReset 1; Strong.SReset 2]%nat.

Definition strong_world_of (o : Strong.outcome) : Strong.World :=
  match o with
  | Strong.Next w => w
  | _ => Strong.init
  end.

Definition strong_example_world : Strong.World :=
  strong_world_of (Strong.run strong_example_program Strong.init).

(** A node that observes itself: the payload is given a weak pointer to its
    own block and the program drops its own weak pointer, so that the
    payload holds the only one.
    [struct Node { WeakPtr<Node> self; };
     SharedPtr<Node> p(new Node); WeakPtr<Node> w(p); p->self = w; w.Reset();] *)
Definition self_observing_program : list Payload.Command :=
  [Payload.Do (ONew (Some (ObjAt 7))); Payload.Do (WFromShared 0);
   Payload.KeepWeak 0 0; Payload.Do (WReset 0)]%nat.

Definition payload_world_of (o : Payload.outcome) : Payload.World :=
  match o with
  | Payload.Next w | Payload.Raised _ w => w
  | Payload.Stuck | Payload.Undefined _ | Payload.OutOfFuel => Payload.init
  end.

Definition self_observing_world : Payload.World :=
  payload_world_of (Payload.run 0 self_observing_program Payload.init).

(** The same node while the program still holds its weak pointer. *)
Definition self_observed_world : Payload.World :=
  payload_world_of
    (Payload.run 0 [Payload.Do (ONew (Some (ObjAt 7))); Payload.Do (WFromShared 0);
                    Payload.KeepWeak 0 0]%nat Payload.init).

(** A list of two nodes: the first payload owns the only shared pointer to
    the second.
    [struct Node { SharedPtr<Node> next; };
     SharedPtr<Node> a(new Node), b(new Node); a->next = b; b.Reset();] *)
Definition two_nodes_world : Payload.World :=
  payload_world_of
    (Payload.run 0 [Payload.Do (ONew (Some (ObjAt 1))); Payload.Do (ONew (Some (ObjAt 2)));
                    Payload.KeepShared 0 1; Payload.Do (OReset 1)]%nat Payload.init).

(** * Proofs *)

(** ** Reasoning about library calls *)

(** [size_t] arithmetic away from the boundaries. *)
Lemma size_incr_small c : 0 ≤ c < SIZE_MOD - 1 → size_incr c = c + 1.
Proof. intros. unfold size_incr, size_wrap. apply Z.mod_small. lia. Qed.

Lemma size_decr_small c : 0 < c < SIZE_MOD → size_decr c = c - 1.
Proof. intros. unfold size_decr, size_wrap. apply Z.mod_small. lia. Qed.

Ltac mstep :=
  repeat first
    [ progress (unfold bind, ret, throw, get_block, put_block, emit, free_block; simpl)
    | rewrite lookup_insert_eq
    | match goal with
      | H : heap ?m !! ?b = _ |- context [heap ?m !! ?b] => rewrite H
      end ].

Lemma IncrementShared_spec b cb m :
  heap m !! b = Some cb →
  ∃ m', IncrementShared b m = Ok tt m' ∧ same_but b m m' ∧ log m' = log m ∧
        heap m' !! b = Some (set_shared (size_incr (shared_counter_ cb)) cb).
Proof.
  intros Hb. unfold IncrementShared. mstep.
  eexists; split; [done|]. repeat split; simpl; [|by rewrite lookup_insert_eq].
  intros b' ?. by rewrite lookup_insert_ne.
Qed.

Lemma IncrementWeak_spec b cb m :
  heap m !! b = Some cb →
  ∃ m', IncrementWeak b m = Ok tt m' ∧ same_but b m m' ∧ log m' = log m ∧
        heap m' !! b = Some (set_weak (size_incr (weak_counter_ cb)) cb).
Proof.
  intros Hb. unfold IncrementWeak. mstep.
  eexists; split; [done|]. repeat split; simpl; [|by rewrite lookup_insert_eq].
  intros b' ?. by rewrite lookup_insert_ne.
Qed.

Ltac mfin :=
  simpl;
  first
    [ done
    | by rewrite ?lookup_delete_eq, ?lookup_insert_eq
    | intros ? ?; by rewrite ?lookup_delete_ne, ?lookup_insert_ne by done
    | by rewrite <- ?app_assoc
    | by rewrite ?app_nil_r ].

Lemma SharedPtr_Reset_spec this b cb m :
  sp_block_ this = Some b →
  heap m !! b = Some cb →
  ∃ m', SharedPtr_Reset this m = Ok SharedPtr_default m' ∧ release_shared_post b cb m m'.
Proof.
  intros Hthis Hb. unfold SharedPtr_Reset, release_shared_post. rewrite Hthis.
  unfold DecrementShared, CanBlockBeDeleted, DeleteData. mstep.
  destruct (size_decr (shared_counter_ cb) =? 0)%Z eqn:Hc; mstep.
  - destruct cb as [s k [[p|]|[|]]]; simpl in *; mstep; rewrite ?Hc; simpl;
      destruct (k =? 0)%Z eqn:Hk; simpl; unfold delete_block, DeleteData; mstep;
      (eexists; split; [done|]; repeat split; mfin).
  - rewrite Hc. simpl. eexists; split; [done|]; repeat split; mfin.
Qed.

Lemma WeakPtr_Reset_spec this b cb m :
  wp_block_ this = Some b →
  heap m !! b = Some cb →
  ∃ m', WeakPtr_Reset this m = Ok WeakPtr_default m' ∧ release_weak_post b cb m m'.
Proof.
  intros Hthis Hb. unfold WeakPtr_Reset, release_weak_post. rewrite Hthis.
  unfold DecrementWeak, CanBlockBeDeleted. mstep.
  destruct ((shared_counter_ cb =? 0)%Z && (size_decr (weak_counter_ cb) =? 0)%Z) eqn:Hc; mstep.
  - unfold delete_block, DeleteData. mstep.
    destruct cb as [s k [[p|]|[|]]]; simpl in *; mstep;
      (eexists; split; [done|]; repeat split; mfin).
  - eexists; split; [done|]; repeat split; mfin.
Qed.

Lemma new_PtrControlBlock_spec ptr m :
  ∃ m', new_PtrControlBlock ptr m = Ok (next_block m) m' ∧
        same_but (next_block m) {| heap := heap m; next_block := S (next_block m); log := log m |} m' ∧
        log m' = log m ++ [EvAlloc (next_block m) (PtrData ptr)] ∧
        heap m' !! next_block m =
          Some {| shared_counter_ := 1; weak_counter_ := 0; payload_ := PtrData ptr |}.
Proof.
  unfold new_PtrControlBlock, alloc_block, IncrementShared. mstep.
  eexists; split; [done|]; repeat split; mfin.
Qed.

Lemma MakeShared_spec fail m :
  let b := next_block m in
  match fail with
  | None =>
      ∃ m', MakeShared (payload_ctor fail) m
              = Ok {| sp_obj_ := Some (StorageOf b); sp_block_ := Some b |} m' ∧
            same_but b {| heap := heap m; next_block := S b; log := log m |} m' ∧
            log m' = log m ++ [EvAlloc b (MakeSharedData false); EvConstruct b] ∧
            heap m' !! b =
              Some {| shared_counter_ := 1; weak_counter_ := 0; payload_ := MakeSharedData false |}
  | Some code =>
      ∃ m', MakeShared (payload_ctor fail) m = Throw (PayloadFailure code) m' ∧
            same_but b {| heap := heap m; next_block := S b; log := log m |} m' ∧
            log m' = log m ++ [EvAlloc b (MakeSharedData false);
                               EvDestroy b (StorageOf b); EvFree b] ∧
            heap m' !! b = None
  end.
Proof.
  destruct fail as [code|]; simpl;
    unfold MakeShared, try_rethrow, new_MakeSharedControlBlock, alloc_block, IncrementShared,
      payload_ctor, delete_block, SharedPtr_adopt; mstep;
    (eexists; split; [done|]; repeat split; mfin).
Qed.

(** ** Counting *)

Lemma nrefs_app b l1 l2 : nrefs b (l1 ++ l2) = (nrefs b l1 + nrefs b l2)%nat.
Proof. induction l1 as [|x l1 IH]; simpl; [done|]. rewrite IH. lia. Qed.

Lemma nrefs_insert b l i x y :
  l !! i = Some x →
  (nrefs b (<[i := y]> l) + points b x = nrefs b l + points b y)%nat.
Proof.
  revert i. induction l as [|z l IH]; intros [|i] Hi; simpl in *; try done.
  - injection Hi as ->. unfold points. lia.
  - specialize (IH i Hi). lia.
Qed.

Lemma nrefs_le_length b l : (nrefs b l ≤ length l)%nat.
Proof. induction l as [|x l IH]; simpl; [done|]. destruct (decide _); lia. Qed.

Lemma nrefs_lookup b l i : l !! i = Some (Some b) → (0 < nrefs b l)%nat.
Proof.
  revert i. induction l as [|z l IH]; intros [|i] Hi; simpl in *; try done.
  - injection Hi as ->. rewrite decide_True by done. lia.
  - specialize (IH i Hi). lia.
Qed.

Lemma srefs_app b l1 l2 : srefs b (l1 ++ l2) = (srefs b l1 + srefs b l2)%nat.
Proof. unfold srefs. by rewrite fmap_app, nrefs_app. Qed.

Lemma wrefs_app b l1 l2 : wrefs b (l1 ++ l2) = (wrefs b l1 + wrefs b l2)%nat.
Proof. unfold wrefs. by rewrite fmap_app, nrefs_app. Qed.

Lemma srefs_insert b l i x y :
  l !! i = Some x →
  (srefs b (<[i := y]> l) + points b (sp_block_ x) = srefs b l + points b (sp_block_ y))%nat.
Proof.
  intros Hi. unfold srefs. rewrite list_fmap_insert.
  apply nrefs_insert. by rewrite list_lookup_fmap, Hi.
Qed.

Lemma wrefs_insert b l i x y :
  l !! i = Some x →
  (wrefs b (<[i := y]> l) + points b (wp_block_ x) = wrefs b l + points b (wp_block_ y))%nat.
Proof.
  intros Hi. unfold wrefs. rewrite list_fmap_insert.
  apply nrefs_insert. by rewrite list_lookup_fmap, Hi.
Qed.

Lemma srefs_le_length b l : (srefs b l ≤ length l)%nat.
Proof. unfold srefs. etrans; [apply nrefs_le_length|]. by rewrite length_fmap. Qed.

Lemma wrefs_le_length b l : (wrefs b l ≤ length l)%nat.
Proof. unfold wrefs. etrans; [apply nrefs_le_length|]. by rewrite length_fmap. Qed.

Lemma srefs_lookup b l i p : l !! i = Some p → sp_block_ p = Some b → (0 < srefs b l)%nat.
Proof.
  intros Hi Hp. unfold srefs. apply (nrefs_lookup b _ i).
  by rewrite list_lookup_fmap, Hi, <- Hp.
Qed.

Lemma wrefs_lookup b l i p : l !! i = Some p → wp_block_ p = Some b → (0 < wrefs b l)%nat.
Proof.
  intros Hi Hp. unfold wrefs. apply (nrefs_lookup b _ i).
  by rewrite list_lookup_fmap, Hi, <- Hp.
Qed.

Lemma count_app f l1 l2 : count f (l1 ++ l2) = (count f l1 + count f l2)%nat.
Proof. induction l1 as [|x l1 IH]; simpl; [done|]. rewrite IH. lia. Qed.

Lemma destroyed_app b l1 l2 : destroyed b (l1 ++ l2) = (destroyed b l1 + destroyed b l2)%nat.
Proof. apply count_app. Qed.
Lemma freed_app b l1 l2 : freed b (l1 ++ l2) = (freed b l1 + freed b l2)%nat.
Proof. apply count_app. Qed.
Lemma born_app b l1 l2 : born b (l1 ++ l2) = born b l1 || born b l2.
Proof.
  unfold born. rewrite count_app.
  destruct (count (is_birth b) l1), (count (is_birth b) l2); done.
Qed.

Lemma destroyed_destroy_events b b0 d :
  destroyed b (destroy_events b0 d) = (if bool_decide (b0 = b) && has_payload d then 1 else 0)%nat.
Proof.
  unfold destroyed. destruct d as [[p|]|[|]]; simpl; rewrite ?andb_false_r, ?andb_true_r; try done.
  all: by destruct (bool_decide _).
Qed.
Lemma freed_destroy_events b b0 d : freed b (destroy_events b0 d) = 0%nat.
Proof. by destruct d as [[p|]|[|]]. Qed.
Lemma born_destroy_events b b0 d : born b (destroy_events b0 d) = false.
Proof. by destruct d as [[p|]|[|]]. Qed.

(** ** Every phase keeps the invariant *)

Lemma SIZE_MOD_big : 2 < SIZE_MOD.
Proof. done. Qed.

Lemma Inv_init : Inv (abs init).
Proof.
  pose proof SIZE_MOD_big.
  split; simpl.
  - intros b. unfold srefs, wrefs; simpl. lia.
  - intros b cb. by rewrite lookup_empty.
  - intros b _. done.
Qed.

Lemma Inv_ext a a' :
  am a' = am a → (∀ b, aS a' b = aS a b) → (∀ b, aW a' b = aW a b) → Inv a → Inv a'.
Proof.
  intros Hm HS HW [Hb Hl Hd]. split.
  - intros b. rewrite HS, HW. apply Hb.
  - intros b cb. rewrite Hm, HS, HW. apply Hl.
  - intros b. rewrite Hm, HS, HW. apply Hd.
Qed.

Lemma has_payload_deleted d : has_payload (deleted d) = false.
Proof. by destruct d as [[p|]|[|]]. Qed.

Ltac logsimp :=
  repeat first
    [ rewrite destroyed_app | rewrite freed_app | rewrite born_app
    | rewrite destroyed_destroy_events | rewrite freed_destroy_events
    | rewrite born_destroy_events
    | rewrite app_nil_r
    | rewrite bool_decide_eq_true_2 by done
    | rewrite bool_decide_eq_false_2 by done
    | rewrite decide_True by done
    | rewrite decide_False by done
    | progress (cbn [destroyed freed born count is_destroy is_free is_birth
                     andb orb negb Nat.eqb Nat.add has_payload]) ].

Lemma Inv_release_shared a a' b cb :
  Inv a →
  heap (am a) !! b = Some cb →
  release_shared_post b cb (am a) (am a') →
  (∀ b', aS a' b' + (if decide (b' = b) then 1 else 0) = aS a b')%nat →
  (∀ b', aW a' b' = aW a b') →
  Inv a'.
Proof.
  intros [Hbound Hlive Hdead] Hb [[Hnext Hframe] Hpost] HS HW.
  destruct (Hlive b cb Hb) as (Hs & Hw & Hpos & Hlt & Hfr & Hborn & Hdes).
  assert (size_decr (shared_counter_ cb) = Z.of_nat (aS a' b)) as Hc.
  { rewrite size_decr_small.
    - rewrite Hs. specialize (HS b). rewrite decide_True in HS by done. lia.
    - rewrite Hs. specialize (HS b). rewrite decide_True in HS by done.
      destruct (Hbound b). lia. }
  simpl in Hpost. rewrite Hc in Hpost.
  split.
  - intros b'. rewrite HW. specialize (HS b'). destruct (Hbound b').
    split; [|done]. destruct (decide (b' = b)); lia.
  - intros b' cb' Hb'. rewrite HW, Hnext.
    destruct (decide (b' = b)) as [->|Hne].
    + destruct (Z.of_nat (aS a' b) =? 0) eqn:Hz.
      * destruct Hpost as [Hlog Hheap]. rewrite Hlog.
        destruct (weak_counter_ cb =? 0) eqn:Hk; rewrite Hheap in Hb'; [done|].
        injection Hb' as <-. unfold holds_payload in *. simpl.
        rewrite has_payload_deleted. logsimp.
        apply Z.eqb_eq in Hz. apply Z.eqb_neq in Hk.
        repeat split; try lia; try done.
        rewrite Hdes. destruct (has_payload (payload_ cb)); [rewrite Hborn by done|]; simpl.
        -- done.
        -- destruct (born b (log (am a))); simpl; lia.
      * destruct Hpost as [Hlog Hheap]. rewrite Hlog. rewrite Hheap in Hb'.
        injection Hb' as <-. unfold holds_payload in *. simpl.
        apply Z.eqb_neq in Hz.
        repeat split; try lia; try done.
    + rewrite Hframe in Hb' by done.
      destruct (Hlive b' cb' Hb') as (Hs' & Hw' & Hpos' & Hlt' & Hfr' & Hborn' & Hdes').
      specialize (HS b'). rewrite decide_False in HS by done.
      assert (aS a' b' = aS a b') as -> by lia.
      assert (∃ evs, log (am a') = log (am a) ++ evs ∧ destroyed b' evs = 0%nat ∧
                     freed b' evs = 0%nat ∧ born b' evs = false) as (evs & -> & Hd0 & Hf0 & Hb0).
      { destruct (Z.of_nat (aS a' b) =? 0); destruct Hpost as [-> _].
        - eexists; split; [done|]. 
          destruct (weak_counter_ cb =? 0); logsimp; by rewrite ?andb_false_l.
        - exists []. by rewrite app_nil_r. }
      logsimp. rewrite Hd0, Hf0, Hb0, orb_false_r, !Nat.add_0_r.
      repeat split; try lia; try done.
  - intros b' Hb'. rewrite HW, Hnext.
    destruct (decide (b' = b)) as [->|Hne].
    + destruct (Z.of_nat (aS a' b) =? 0) eqn:Hz; [|destruct Hpost as [_ Hheap]; congruence].
      destruct Hpost as [Hlog Hheap]. rewrite Hlog.
      destruct (weak_counter_ cb =? 0) eqn:Hk; [|congruence].
      apply Z.eqb_eq in Hz. apply Z.eqb_eq in Hk. logsimp.
      repeat split; try lia.
      * rewrite Hdes. unfold holds_payload in *.
        destruct (has_payload (payload_ cb)); [rewrite Hborn by done|]; simpl; [done|].
        destruct (born b (log (am a))); simpl; lia.
    + rewrite Hframe in Hb' by done.
      destruct (Hdead b' Hb') as (Hs' & Hw' & Hfr' & Hdes' & Hborn').
      specialize (HS b'). rewrite decide_False in HS by done.
      assert (aS a' b' = aS a b') as -> by lia.
      assert (∃ evs, log (am a') = log (am a) ++ evs ∧ destroyed b' evs = 0%nat ∧
                     freed b' evs = 0%nat ∧ born b' evs = false) as (evs & -> & Hd0 & Hf0 & Hb0).
      { destruct (Z.of_nat (aS a' b) =? 0); destruct Hpost as [-> _].
        - eexists; split; [done|]. 
          destruct (weak_counter_ cb =? 0); logsimp; by rewrite ?andb_false_l.
        - exists []. by rewrite app_nil_r. }
      logsimp. rewrite Hd0, Hf0, Hb0, orb_false_r, !Nat.add_0_r.
      repeat split; try lia; try done.
Qed.

Lemma Inv_release_weak a a' b cb :
  Inv a →
  heap (am a) !! b = Some cb →
  release_weak_post b cb (am a) (am a') →
  (∀ b', aS a' b' = aS a b') →
  (∀ b', aW a' b' + (if decide (b' = b) then 1 else 0) = aW a b')%nat →
  Inv a'.
Proof.
  intros [Hbound Hlive Hdead] Hb [[Hnext Hframe] Hpost] HS HW.
  destruct (Hlive b cb Hb) as (Hs & Hw & Hpos & Hlt & Hfr & Hborn & Hdes).
  assert (size_decr (weak_counter_ cb) = Z.of_nat (aW a' b)) as Hc.
  { rewrite size_decr_small.
    - rewrite Hw. specialize (HW b). rewrite decide_True in HW by done. lia.
    - rewrite Hw. specialize (HW b). rewrite decide_True in HW by done.
      destruct (Hbound b). lia. }
  simpl in Hpost. rewrite Hc, Hs in Hpost.
  assert (aS a' b = aS a b) as HSb by apply HS.
  split.
  - intros b'. rewrite HS. specialize (HW b'). destruct (Hbound b').
    split; [done|]. destruct (decide (b' = b)); lia.
  - intros b' cb' Hb'. rewrite HS, Hnext.
    destruct (decide (b' = b)) as [->|Hne].
    + destruct ((Z.of_nat (aS a b) =? 0) && (Z.of_nat (aW a' b) =? 0)) eqn:Hz;
        destruct Hpost as [Hlog Hheap]; rewrite Hheap in Hb'; [done|].
      rewrite Hlog. injection Hb' as <-. unfold holds_payload in *. simpl.
      apply andb_false_iff in Hz. rewrite !Z.eqb_neq in Hz.
      repeat split; try lia; try done.
    + rewrite Hframe in Hb' by done.
      destruct (Hlive b' cb' Hb') as (Hs' & Hw' & Hpos' & Hlt' & Hfr' & Hborn' & Hdes').
      specialize (HW b'). rewrite decide_False in HW by done.
      assert (aW a' b' = aW a b') as -> by lia.
      assert (∃ evs, log (am a') = log (am a) ++ evs ∧ destroyed b' evs = 0%nat ∧
                     freed b' evs = 0%nat ∧ born b' evs = false) as (evs & -> & Hd0 & Hf0 & Hb0).
      { destruct (_ && _); destruct Hpost as [-> _].
        - eexists; split; [done|]. logsimp; by rewrite ?andb_false_l.
        - exists []. by rewrite app_nil_r. }
      logsimp. rewrite Hd0, Hf0, Hb0, orb_false_r, !Nat.add_0_r.
      repeat split; try lia; try done.
  - intros b' Hb'. rewrite HS, Hnext.
    destruct (decide (b' = b)) as [->|Hne].
    + destruct ((Z.of_nat (aS a b) =? 0) && (Z.of_nat (aW a' b) =? 0)) eqn:Hz;
        [|destruct Hpost as [_ Hheap]; congruence].
      destruct Hpost as [Hlog Hheap]. rewrite Hlog.
      apply andb_true_iff in Hz. rewrite !Z.eqb_eq in Hz. logsimp.
      repeat split; try lia.
      rewrite Hdes. unfold holds_payload in *.
      destruct (has_payload (payload_ cb)); [rewrite Hborn by done|]; simpl; [done|].
      destruct (born b (log (am a))); simpl; lia.
    + rewrite Hframe in Hb' by done.
      destruct (Hdead b' Hb') as (Hs' & Hw' & Hfr' & Hdes' & Hborn').
      specialize (HW b'). rewrite decide_False in HW by done.
      assert (aW a' b' = aW a b') as -> by lia.
      assert (∃ evs, log (am a') = log (am a) ++ evs ∧ destroyed b' evs = 0%nat ∧
                     freed b' evs = 0%nat ∧ born b' evs = false) as (evs & -> & Hd0 & Hf0 & Hb0).
      { destruct (_ && _); destruct Hpost as [-> _].
        - eexists; split; [done|]. logsimp; by rewrite ?andb_false_l.
        - exists []. by rewrite app_nil_r. }
      logsimp. rewrite Hd0, Hf0, Hb0, orb_false_r, !Nat.add_0_r.
      repeat split; try lia; try done.
Qed.

Lemma Inv_phase1 a a' : Inv a → phase1 a a' → Inv a'.
Proof.
  intros HI [Hm HS HW | b cb Hb Hpost HS HW | b cb Hb Hpost HS HW].
  - by eapply Inv_ext.
  - by eapply Inv_release_shared.
  - by eapply Inv_release_weak.
Qed.

Lemma Inv_acquire_shared a a' b cb :
  Inv a →
  heap (am a) !! b = Some cb →
  same_but b (am a) (am a') →
  log (am a') = log (am a) →
  heap (am a') !! b = Some (set_shared (size_incr (shared_counter_ cb)) cb) →
  (∀ b', aS a' b' = aS a b' + (if decide (b' = b) then 1 else 0))%nat →
  (∀ b', aW a' b' = aW a b') →
  Z.of_nat (aS a' b) < SIZE_MOD →
  Inv a'.
Proof.
  intros [Hbound Hlive Hdead] Hb [Hnext Hframe] Hlog Hheap HS HW Hroom.
  destruct (Hlive b cb Hb) as (Hs & Hw & Hpos & Hlt & Hfr & Hborn & Hdes).
  assert (size_incr (shared_counter_ cb) = Z.of_nat (aS a' b)) as Hc.
  { rewrite HS, decide_True in * by done. rewrite size_incr_small; lia. }
  rewrite Hc in Hheap.
  split.
  - intros b'. rewrite HW. destruct (Hbound b'). split; [|done].
    destruct (decide (b' = b)) as [->|]; [done|]. rewrite HS, decide_False by done. lia.
  - intros b' cb' Hb'. rewrite HW, Hnext, Hlog.
    destruct (decide (b' = b)) as [->|Hne].
    + rewrite Hheap in Hb'. injection Hb' as <-. unfold holds_payload in *. simpl.
      repeat split; try lia; try done.
      rewrite HS, decide_True by done. lia.
    + rewrite Hframe in Hb' by done. rewrite HS, decide_False, Nat.add_0_r by done.
      by apply Hlive.
  - intros b' Hb'. rewrite HW, Hnext, Hlog.
    destruct (decide (b' = b)) as [->|Hne]; [congruence|].
    rewrite Hframe in Hb' by done. rewrite HS, decide_False, Nat.add_0_r by done.
    by apply Hdead.
Qed.

Lemma Inv_acquire_weak a a' b cb :
  Inv a →
  heap (am a) !! b = Some cb →
  same_but b (am a) (am a') →
  log (am a') = log (am a) →
  heap (am a') !! b = Some (set_weak (size_incr (weak_counter_ cb)) cb) →
  (∀ b', aS a' b' = aS a b') →
  (∀ b', aW a' b' = aW a b' + (if decide (b' = b) then 1 else 0))%nat →
  Z.of_nat (aW a' b) < SIZE_MOD →
  Inv a'.
Proof.
  intros [Hbound Hlive Hdead] Hb [Hnext Hframe] Hlog Hheap HS HW Hroom.
  destruct (Hlive b cb Hb) as (Hs & Hw & Hpos & Hlt & Hfr & Hborn & Hdes).
  assert (size_incr (weak_counter_ cb) = Z.of_nat (aW a' b)) as Hc.
  { rewrite HW, decide_True in * by done. rewrite size_incr_small; lia. }
  rewrite Hc in Hheap.
  split.
  - intros b'. rewrite HS. destruct (Hbound b'). split; [done|].
    destruct (decide (b' = b)) as [->|]; [done|]. rewrite HW, decide_False by done. lia.
  - intros b' cb' Hb'. rewrite HS, Hnext, Hlog.
    destruct (decide (b' = b)) as [->|Hne].
    + rewrite Hheap in Hb'. injection Hb' as <-. unfold holds_payload in *. simpl.
      repeat split; try lia; try done.
      rewrite HW, decide_True by done. lia.
    + rewrite Hframe in Hb' by done. rewrite HW, decide_False, Nat.add_0_r by done.
      by apply Hlive.
  - intros b' Hb'. rewrite HS, Hnext, Hlog.
    destruct (decide (b' = b)) as [->|Hne]; [congruence|].
    rewrite Hframe in Hb' by done. rewrite HW, decide_False, Nat.add_0_r by done.
    by apply Hdead.
Qed.

Lemma Inv_fresh a :
  Inv a →
  heap (am a) !! next_block (am a) = None ∧
  aS a (next_block (am a)) = 0%nat ∧ aW a (next_block (am a)) = 0%nat.
Proof.
  intros [Hbound Hlive Hdead].
  assert (heap (am a) !! next_block (am a) = None) as Hn.
  { destruct (heap (am a) !! next_block (am a)) as [cb|] eqn:E; [|done].
    destruct (Hlive _ _ E) as (_ & _ & _ & ? & _). lia. }
  split; [done|]. destruct (Hdead _ Hn) as (? & ? & _). done.
Qed.

Lemma Inv_alloc a a' d evs :
  let b := next_block (am a) in
  Inv a →
  next_block (am a') = S b →
  (∀ b', b' ≠ b → heap (am a') !! b' = heap (am a) !! b') →
  log (am a') = log (am a) ++ EvAlloc b d :: evs →
  evs = [] ∨ evs = [EvConstruct b] →
  heap (am a') !! b = Some {| shared_counter_ := 1; weak_counter_ := 0; payload_ := d |} →
  (∀ b', aS a' b' = aS a b' + (if decide (b' = b) then 1 else 0))%nat →
  (∀ b', aW a' b' = aW a b') →
  Inv a'.
Proof.
  intros b HI Hnext Hframe Hlog Hevs Hheap HS HW.
  destruct (Inv_fresh a HI) as (Hn & HSn & HWn). fold b in Hn, HSn, HWn.
  destruct HI as [Hbound Hlive Hdead].
  destruct (Hdead b Hn) as (_ & _ & Hfr & Hdes & Hborn).
  rewrite decide_False in Hfr by (unfold b; lia).
  rewrite Hborn in Hdes by done. specialize (Hborn (le_n _)).
  pose proof SIZE_MOD_big.
  assert (∀ b', b' ≠ b → destroyed b' (EvAlloc b d :: evs) = 0%nat ∧
                 freed b' (EvAlloc b d :: evs) = 0%nat ∧
                 born b' (EvAlloc b d :: evs) = false) as Hother.
  { intros b' Hne. destruct Hevs as [-> | ->]; unfold born; simpl;
      rewrite bool_decide_eq_false_2 by done; done. }
  assert (destroyed b (EvAlloc b d :: evs) = 0%nat ∧
          freed b (EvAlloc b d :: evs) = 0%nat ∧
          born b (EvAlloc b d :: evs) = has_payload d) as (Hd1 & Hf1 & Hb1).
  { destruct Hevs as [-> | ->]; unfold born; simpl;
      rewrite bool_decide_eq_true_2 by done; simpl; by destruct (has_payload d). }
  split.
  - intros b'. rewrite HW, HS. destruct (Hbound b').
    destruct (decide (b' = b)) as [->|]; [rewrite HSn|]; lia.
  - intros b' cb' Hb'. rewrite HW, HS, Hnext, Hlog.
    destruct (decide (b' = b)) as [->|Hne].
    + rewrite Hheap in Hb'. injection Hb' as <-. unfold holds_payload. simpl.
      rewrite ?destroyed_app, ?freed_app, ?born_app. rewrite Hd1, Hf1, Hb1, Hfr, Hdes, HSn, HWn, Hborn. simpl.
      repeat split; try lia; try done.
      by destruct (has_payload d).
    + rewrite Hframe in Hb' by done.
      destruct (Hlive b' cb' Hb') as (Hs' & Hw' & Hpos' & Hlt' & Hfr' & Hborn' & Hdes').
      destruct (Hother b' Hne) as (Hd0 & Hf0 & Hb0).
      rewrite ?destroyed_app, ?freed_app, ?born_app. rewrite Hd0, Hf0, Hb0, orb_false_r, !Nat.add_0_r.
      fold b in Hlt'. repeat split; try lia; try done.
  - intros b' Hb'. rewrite HW, HS, Hnext, Hlog.
    destruct (decide (b' = b)) as [->|Hne]; [congruence|].
    rewrite Hframe in Hb' by done.
    destruct (Hdead b' Hb') as (Hs' & Hw' & Hfr' & Hdes' & Hborn').
    destruct (Hother b' Hne) as (Hd0 & Hf0 & Hb0).
    rewrite ?destroyed_app, ?freed_app, ?born_app. rewrite Hd0, Hf0, Hb0, orb_false_r, !Nat.add_0_r.
    fold b in Hfr', Hborn'.
    repeat split; try lia; try done.
    + rewrite Hfr'. destruct (decide (b' < b)%nat), (decide (b' < S b)%nat); lia.
    + intros. apply Hborn'. lia.
Qed.

Lemma Inv_failed a a' :
  let b := next_block (am a) in
  Inv a →
  next_block (am a') = S b →
  (∀ b', b' ≠ b → heap (am a') !! b' = heap (am a) !! b') →
  log (am a') = log (am a) ++ [EvAlloc b (MakeSharedData false);
                               EvDestroy b (StorageOf b); EvFree b] →
  heap (am a') !! b = None →
  (∀ b', aS a' b' = aS a b') →
  (∀ b', aW a' b' = aW a b') →
  Inv a'.
Proof.
  intros b HI Hnext Hframe Hlog Hheap HS HW.
  destruct (Inv_fresh a HI) as (Hn & HSn & HWn). fold b in Hn, HSn, HWn.
  destruct HI as [Hbound Hlive Hdead].
  destruct (Hdead b Hn) as (_ & _ & Hfr & Hdes & Hborn).
  rewrite decide_False in Hfr by (unfold b; lia).
  rewrite Hborn in Hdes by done. specialize (Hborn (le_n _)).
  set (evs := [EvAlloc b (MakeSharedData false); EvDestroy b (StorageOf b); EvFree b]) in *.
  assert (∀ b', b' ≠ b → destroyed b' evs = 0%nat ∧ freed b' evs = 0%nat ∧
                 born b' evs = false) as Hother.
  { intros b' Hne. unfold born, destroyed, freed; simpl.
    rewrite !bool_decide_eq_false_2 by done. done. }
  assert (destroyed b evs = 1%nat ∧ freed b evs = 1%nat ∧ born b evs = true)
    as (Hd1 & Hf1 & Hb1).
  { unfold born, destroyed, freed; simpl. rewrite !bool_decide_eq_true_2 by done. done. }
  split.
  - intros b'. rewrite HW, HS. apply Hbound.
  - intros b' cb' Hb'. rewrite HW, HS, Hnext, Hlog.
    destruct (decide (b' = b)) as [->|Hne]; [congruence|].
    rewrite Hframe in Hb' by done.
    destruct (Hlive b' cb' Hb') as (Hs' & Hw' & Hpos' & Hlt' & Hfr' & Hborn' & Hdes').
    destruct (Hother b' Hne) as (Hd0 & Hf0 & Hb0).
    rewrite ?destroyed_app, ?freed_app, ?born_app. rewrite Hd0, Hf0, Hb0, orb_false_r, !Nat.add_0_r.
    fold b in Hlt'. repeat split; try lia; try done.
  - intros b' Hb'. rewrite HW, HS, Hnext, Hlog.
    destruct (decide (b' = b)) as [->|Hne].
    + rewrite ?destroyed_app, ?freed_app, ?born_app. rewrite Hd1, Hf1, Hb1, Hfr, Hdes, Hborn, HSn, HWn. simpl.
      rewrite decide_True by lia. repeat split; try done. lia.
    + rewrite Hframe in Hb' by done.
      destruct (Hdead b' Hb') as (Hs' & Hw' & Hfr' & Hdes' & Hborn').
      destruct (Hother b' Hne) as (Hd0 & Hf0 & Hb0).
      rewrite ?destroyed_app, ?freed_app, ?born_app. rewrite Hd0, Hf0, Hb0, orb_false_r, !Nat.add_0_r.
      fold b in Hfr', Hborn'.
      repeat split; try lia; try done.
      * rewrite Hfr'. destruct (decide (b' < b)%nat), (decide (b' < S b)%nat); lia.
      * intros. apply Hborn'. lia.
Qed.

Lemma Inv_phase2 lock a a' : Inv a → phase2 lock a a' → Inv a'.
Proof.
  intros HI [Hm HS HW | b cb Hb _ Hsame Hlog Hheap HS HW Hroom
            | b cb Hb Hsame Hlog Hheap HS HW Hroom
            | d evs b Hnext Hframe Hlog Hevs Hheap HS HW
            | b Hnext Hframe Hlog Hheap HS HW].
  - by eapply Inv_ext.
  - by eapply Inv_acquire_shared.
  - by eapply Inv_acquire_weak.
  - by eapply Inv_alloc.
  - by eapply Inv_failed.
Qed.

(** What a phase appends to the log never creates an old block anew. *)
Lemma phase1_log a a' :
  phase1 a a' →
  next_block (am a') = next_block (am a) ∧
  ∃ evs, log (am a') = log (am a) ++ evs ∧ ∀ b, born b evs = false.
Proof.
  intros [Hm HS HW | b cb Hb [[Hnext _] Hpost] HS HW | b cb Hb [[Hnext _] Hpost] HS HW].
  - rewrite Hm. split; [done|]. exists []. by rewrite app_nil_r.
  - split; [done|]. simpl in Hpost.
    destruct (_ =? 0); destruct Hpost as [-> _].
    + eexists; split; [done|]. intros b'.
      destruct (weak_counter_ cb =? 0); by logsimp.
    + exists []. by rewrite app_nil_r.
  - split; [done|]. simpl in Hpost.
    destruct (_ && _); destruct Hpost as [-> _].
    + eexists; split; [done|]. intros b'. by logsimp.
    + exists []. by rewrite app_nil_r.
Qed.

Lemma phase2_log lock a a' :
  phase2 lock a a' →
  (next_block (am a) ≤ next_block (am a'))%nat ∧
  ∃ evs, log (am a') = log (am a) ++ evs ∧
         ∀ b, (b < next_block (am a))%nat →
              born b evs = false ∧ destroyed b evs = 0%nat ∧ freed b evs = 0%nat.
Proof.
  intros [Hm HS HW | b cb Hb _ [Hnext _] Hlog Hheap HS HW Hroom
         | b cb Hb [Hnext _] Hlog Hheap HS HW Hroom
         | d evs b Hnext Hframe Hlog Hevs Hheap HS HW
         | b Hnext Hframe Hlog Hheap HS HW].
  - rewrite Hm. split; [done|]. exists []. by rewrite app_nil_r.
  - rewrite Hnext, Hlog. split; [done|]. exists []. by rewrite app_nil_r.
  - rewrite Hnext, Hlog. split; [done|]. exists []. by rewrite app_nil_r.
  - rewrite Hnext, Hlog. split; [lia|]. eexists; split; [done|].
    intros b' Hlt. assert (b ≠ b') by (unfold b; lia).
    destruct Hevs as [-> | ->]; unfold born, destroyed, freed; simpl;
      rewrite !bool_decide_eq_false_2 by done; done.
  - rewrite Hnext, Hlog. split; [lia|]. eexists; split; [done|].
    intros b' Hlt. assert (b ≠ b') by (unfold b; lia).
    unfold born, destroyed, freed; simpl.
    rewrite !bool_decide_eq_false_2 by done; done.
Qed.

Lemma Alive_phase1 b a a' : Inv a → AliveAt b a → phase1 a a' → AliveAt b a'.
Proof.
  intros HI HA Hph cb' Hb'.
  destruct (phase1_log a a' Hph) as (_ & evs & Hlog & Hevs).
  rewrite Hlog, born_app, Hevs, orb_false_r.
  destruct Hph as [Hm HS HW | b0 cb Hb [[Hnext Hframe] Hpost] HS HW
                  | b0 cb Hb [[Hnext Hframe] Hpost] HS HW].
  - rewrite HS. apply HA. by rewrite <- Hm.
  - destruct (inv_live a HI b0 cb Hb) as (Hs & _).
    destruct (inv_bound a HI b0) as [Hbd _].
    specialize (HS b). destruct (decide (b = b0)) as [->|Hne].
    + assert (size_decr (shared_counter_ cb) = Z.of_nat (aS a' b0)) as Hc.
      { rewrite size_decr_small; lia. }
      simpl in Hpost. rewrite Hc in Hpost.
      specialize (HA cb Hb).
      destruct (Z.of_nat (aS a' b0) =? 0) eqn:Hz; destruct Hpost as [_ Hheap].
      * apply Z.eqb_eq in Hz. destruct (weak_counter_ cb =? 0); [congruence|].
        rewrite Hheap in Hb'. injection Hb' as <-.
        unfold holds_payload. simpl. rewrite has_payload_deleted.
        replace (aS a' b0) with 0%nat by lia. by rewrite andb_false_r.
      * apply Z.eqb_neq in Hz. rewrite Hheap in Hb'. injection Hb' as <-.
        unfold holds_payload in *. simpl. rewrite HA.
        f_equal. destruct (aS a' b0), (aS a b0); simpl; try done; lia.
    + rewrite Hframe in Hb' by done. rewrite Nat.add_0_r in HS. rewrite HS. by apply HA.
  - rewrite HS. destruct (decide (b = b0)) as [->|Hne].
    + simpl in Hpost. destruct (_ && _); destruct Hpost as [_ Hheap]; [congruence|].
      rewrite Hheap in Hb'. injection Hb' as <-. by apply (HA cb).
    + rewrite Hframe in Hb' by done. by apply HA.
Qed.

Lemma Alive_phase2 lock b a a' :
  Inv a → AliveAt b a → phase2 lock a a' →
  lock = false ∨ (0 < aS a b)%nat →
  AliveAt b a'.
Proof.
  intros HI HA Hph Hlock cb' Hb'.
  destruct (Inv_fresh a HI) as (Hn & HSn & HWn).
  destruct Hph as [Hm HS HW | b0 cb Hb Hpos [Hnext Hframe] Hlog Hheap HS HW Hroom
                  | b0 cb Hb [Hnext Hframe] Hlog Hheap HS HW Hroom
                  | d evs b0 Hnext Hframe Hlog Hevs Hheap HS HW
                  | b0 Hnext Hframe Hlog Hheap HS HW].
  - rewrite HS, Hm. apply HA. by rewrite <- Hm.
  - rewrite Hlog, HS. destruct (decide (b = b0)) as [->|Hne].
    + rewrite Hheap in Hb'. injection Hb' as <-.
      specialize (HA cb Hb). unfold holds_payload in *. simpl. rewrite HA.
      f_equal. assert (0 < aS a b0)%nat by (destruct Hlock; auto).
      destruct (aS a b0); simpl; [lia|done].
    + rewrite Hframe in Hb' by done. rewrite Nat.add_0_r. by apply HA.
  - rewrite Hlog, HS. destruct (decide (b = b0)) as [->|Hne].
    + rewrite Hheap in Hb'. injection Hb' as <-. by apply (HA cb).
    + rewrite Hframe in Hb' by done. by apply HA.
  - rewrite Hlog, HS, born_app. destruct (decide (b = b0)) as [->|Hne].
    + rewrite Hheap in Hb'. injection Hb' as <-. fold b0 in Hn, HSn.
      destruct (inv_dead a HI b0 Hn) as (_ & _ & _ & _ & Hborn).
      rewrite Hborn, HSn by done. unfold holds_payload. simpl.
      destruct Hevs as [-> | ->]; unfold born; simpl;
        rewrite bool_decide_eq_true_2 by done; by destruct (has_payload d).
    + rewrite Hframe in Hb' by done. rewrite Nat.add_0_r.
      replace (born b (EvAlloc b0 d :: evs)) with false.
      * rewrite orb_false_r. by apply HA.
      * destruct Hevs as [-> | ->]; unfold born; simpl;
          rewrite bool_decide_eq_false_2 by done; done.
  - rewrite Hlog, HS, born_app. destruct (decide (b = b0)) as [->|Hne]; [congruence|].
    rewrite Hframe in Hb' by done.
    assert (born b [EvAlloc b0 (MakeSharedData false); EvDestroy b0 (StorageOf b0);
                    EvFree b0] = false) as ->.
    { unfold born; simpl. rewrite bool_decide_eq_false_2 by done. done. }
    rewrite orb_false_r. by apply HA.
Qed.

(** ** From operations to phases *)

Lemma points_Some b b0 : points b (Some b0) = if decide (b = b0) then 1%nat else 0%nat.
Proof.
  unfold points. destruct (decide (b = b0)) as [->|];
    [by rewrite decide_True|rewrite decide_False; congruence].
Qed.

Lemma points_None b : points b None = 0%nat.
Proof. done. Qed.

(** A block some pointer of the world is attached to is live. *)
Lemma Inv_attached w b :
  Inv (abs w) → (0 < srefs b (sps w) + wrefs b (wps w))%nat →
  ∃ cb, heap (mem w) !! b = Some cb.
Proof.
  intros HI Hpos. destruct (heap (mem w) !! b) as [cb|] eqn:E; [eauto|].
  destruct (inv_dead _ HI b E) as (HS & HW & _). simpl in *. lia.
Qed.

Lemma exec_Reset w i this :
  Inv (abs w) → sps w !! i = Some this →
  ∃ m1, SharedPtr_Reset this (mem w) = Ok SharedPtr_default m1 ∧
        phase1 (abs w)
          (abs {| mem := m1; sps := <[i := SharedPtr_default]> (sps w); wps := wps w |}).
Proof.
  intros HI Hi. destruct (sp_block_ this) as [b|] eqn:Hblk.
  - destruct (Inv_attached w b HI) as [cb Hb].
    { pose proof (srefs_lookup b _ _ _ Hi Hblk). lia. }
    destruct (SharedPtr_Reset_spec this b cb (mem w) Hblk Hb) as (m1 & Hrun & Hpost).
    exists m1. split; [done|].
    eapply (P1_release_shared _ _ b cb); simpl; try done.
    intros b'. pose proof (srefs_insert b' _ _ _ SharedPtr_default Hi) as H.
    rewrite Hblk, points_Some in H. simpl in H. rewrite points_None in H. lia.
  - exists (mem w). split.
    + unfold SharedPtr_Reset. by rewrite Hblk.
    + apply P1_none; simpl; try done.
      intros b'. pose proof (srefs_insert b' _ _ _ SharedPtr_default Hi) as H.
      rewrite Hblk in H. simpl in H. rewrite !points_None in H. lia.
Qed.

Lemma exec_WReset w i this :
  Inv (abs w) → wps w !! i = Some this →
  ∃ m1, WeakPtr_Reset this (mem w) = Ok WeakPtr_default m1 ∧
        phase1 (abs w)
          (abs {| mem := m1; sps := sps w; wps := <[i := WeakPtr_default]> (wps w) |}).
Proof.
  intros HI Hi. destruct (wp_block_ this) as [b|] eqn:Hblk.
  - destruct (Inv_attached w b HI) as [cb Hb].
    { pose proof (wrefs_lookup b _ _ _ Hi Hblk). lia. }
    destruct (WeakPtr_Reset_spec this b cb (mem w) Hblk Hb) as (m1 & Hrun & Hpost).
    exists m1. split; [done|].
    eapply (P1_release_weak _ _ b cb); simpl; try done.
    intros b'. pose proof (wrefs_insert b' _ _ _ WeakPtr_default Hi) as H.
    rewrite Hblk, points_Some in H. simpl in H. rewrite points_None in H. lia.
  - exists (mem w). split.
    + unfold WeakPtr_Reset. by rewrite Hblk.
    + apply P1_none; simpl; try done.
      intros b'. pose proof (wrefs_insert b' _ _ _ WeakPtr_default Hi) as H.
      rewrite Hblk in H. simpl in H. rewrite !points_None in H. lia.
Qed.

Lemma exec_IncrementShared lock w b sps' :
  Inv (abs w) →
  (0 < srefs b (sps w) + wrefs b (wps w))%nat →
  (lock = false → (0 < srefs b (sps w))%nat) →
  (∀ b', srefs b' sps' = srefs b' (sps w) + (if decide (b' = b) then 1 else 0))%nat →
  Z.of_nat (length sps') < SIZE_MOD →
  ∃ m', IncrementShared b (mem w) = Ok tt m' ∧
        phase2 lock (abs w) (abs {| mem := m'; sps := sps'; wps := wps w |}).
Proof.
  intros HI Hpos Hlock HS Hroom.
  destruct (Inv_attached w b HI Hpos) as [cb Hb].
  destruct (IncrementShared_spec b cb (mem w) Hb) as (m' & Hrun & Hsame & Hlog & Hheap).
  exists m'. split; [done|].
  eapply (P2_acquire_shared _ _ _ b cb); simpl; try done.
  pose proof (srefs_le_length b sps'). lia.
Qed.

Lemma exec_IncrementWeak lock w b wps' :
  Inv (abs w) →
  (0 < srefs b (sps w) + wrefs b (wps w))%nat →
  (∀ b', wrefs b' wps' = wrefs b' (wps w) + (if decide (b' = b) then 1 else 0))%nat →
  Z.of_nat (length wps') < SIZE_MOD →
  ∃ m', IncrementWeak b (mem w) = Ok tt m' ∧
        phase2 lock (abs w) (abs {| mem := m'; sps := sps w; wps := wps' |}).
Proof.
  intros HI Hpos HW Hroom.
  destruct (Inv_attached w b HI Hpos) as [cb Hb].
  destruct (IncrementWeak_spec b cb (mem w) Hb) as (m' & Hrun & Hsame & Hlog & Hheap).
  exists m'. split; [done|].
  eapply (P2_acquire_weak _ _ _ b cb); simpl; try done.
  pose proof (wrefs_le_length b wps'). lia.
Qed.

Lemma exec_new_PtrControlBlock lock w ptr sps' :
  (∀ b', srefs b' sps'
         = srefs b' (sps w) + (if decide (b' = next_block (mem w)) then 1 else 0))%nat →
  ∃ m', new_PtrControlBlock ptr (mem w) = Ok (next_block (mem w)) m' ∧
        phase2 lock (abs w) (abs {| mem := m'; sps := sps'; wps := wps w |}).
Proof.
  intros HS.
  destruct (new_PtrControlBlock_spec ptr (mem w)) as (m' & Hrun & [Hnext Hframe] & Hlog & Hheap).
  exists m'. split; [done|].
  eapply (P2_alloc _ _ _ (PtrData ptr) []); simpl; try done. by left.
Qed.

Lemma srefs_snoc b l p :
  srefs b (l ++ [p]) = (srefs b l + points b (sp_block_ p))%nat.
Proof. rewrite srefs_app. unfold srefs at 2. simpl. unfold points. lia. Qed.

Lemma wrefs_snoc b l p :
  wrefs b (l ++ [p]) = (wrefs b l + points b (wp_block_ p))%nat.
Proof. rewrite wrefs_app. unfold wrefs at 2. simpl. unfold points. lia. Qed.

Lemma phase1_refl a : phase1 a a.
Proof. by apply P1_none. Qed.

Lemma summary_phase1 w w' : phase1 (abs w) (abs w') → summary false w w'.
Proof. intros H. exists (abs w'). split; [done|]. split; [by apply P2_none|done]. Qed.

Lemma summary_phase2 lock w w' : phase2 lock (abs w) (abs w') → summary lock w w'.
Proof. intros H. exists (abs w). split; [apply phase1_refl|]. by split. Qed.

Lemma summary_same lock w w' :
  mem w' = mem w →
  (∀ b, srefs b (sps w') = srefs b (sps w)) →
  (∀ b, wrefs b (wps w') = wrefs b (wps w)) →
  summary lock w w'.
Proof. intros. apply summary_phase2. by apply P2_none. Qed.

Lemma step_ODefault w : summarised false w (step ODefault w).
Proof.
  simpl. apply summary_same; simpl; try done.
  intros b. rewrite srefs_snoc. simpl. rewrite points_None. lia.
Qed.

Lemma step_ONew ptr w : summarised false w (step (ONew ptr) w).
Proof.
  simpl. unfold exec, SharedPtr_from_raw, bind.
  edestruct (exec_new_PtrControlBlock false w ptr) as (m' & -> & Hph); [|simpl; apply summary_phase2, Hph].
  intros b. rewrite srefs_snoc. simpl. by rewrite points_Some.
Qed.

Lemma step_OMakeShared fail w : summarised false w (step (OMakeShared fail) w).
Proof.
  simpl. unfold exec. pose proof (MakeShared_spec fail (mem w)) as H.
  destruct fail as [code|]; simpl in H;
    destruct H as (m' & -> & [Hnext Hframe] & Hlog & Hheap); simpl in *.
  - apply summary_phase2. by eapply P2_failed.
  - apply summary_phase2.
    eapply (P2_alloc _ _ _ (MakeSharedData false) [EvConstruct (next_block (mem w))]);
      simpl; try done; [by right|].
    intros b. rewrite srefs_snoc. simpl. by rewrite points_Some.
Qed.

(** Copy construction and the aliasing constructor share their effect. *)
Lemma step_copy_like w src other obj :
  Inv (abs w) → room w → sps w !! src = Some other →
  let this := {| sp_obj_ := obj; sp_block_ := sp_block_ other |} in
  summarised false w
    (exec (match sp_block_ this with
           | Some b => IncrementShared b ;; ret this
           | None => ret this
           end)
          (λ p m, {| mem := m; sps := sps w ++ [p]; wps := wps w |}) w).
Proof.
  intros HI [Hroom _] Hsrc this. unfold exec. simpl.
  destruct (sp_block_ other) as [b|] eqn:Hblk.
  - pose proof (srefs_lookup b _ _ _ Hsrc Hblk) as Hpos.
    edestruct (exec_IncrementShared false w b (sps w ++ [this])) as (m' & Hrun & Hph);
      try done; [lia| | |].
    + intros b'. rewrite srefs_snoc. simpl. by rewrite ?Hblk, points_Some.
    + rewrite length_app. simpl. lia.
    + unfold bind. rewrite Hrun. simpl. by apply summary_phase2.
  - simpl. apply summary_same; simpl; try done.
    intros b. rewrite srefs_snoc. simpl. by rewrite ?Hblk, points_None, Nat.add_0_r.
Qed.

Lemma step_OCopy src w : Inv (abs w) → room w → summarised false w (step (OCopy src) w).
Proof.
  intros HI Hroom. simpl. destruct (sps w !! src) as [other|] eqn:Hsrc; [|done].
  by apply (step_copy_like w src other (sp_obj_ other)).
Qed.

Lemma step_OAlias src ptr w :
  Inv (abs w) → room w → summarised false w (step (OAlias src ptr) w).
Proof.
  intros HI Hroom. simpl. destruct (sps w !! src) as [other|] eqn:Hsrc; [|done].
  by apply (step_copy_like w src other ptr).
Qed.

Lemma step_OMove src w : summarised false w (step (OMove src) w).
Proof.
  simpl. destruct (sps w !! src) as [other|] eqn:Hsrc; [|done]. simpl.
  apply summary_same; simpl; try done.
  intros b. rewrite srefs_snoc. simpl.
  pose proof (srefs_insert b _ _ _ {| sp_obj_ := None; sp_block_ := None |} Hsrc) as H.
  simpl in H. rewrite points_None in H. lia.
Qed.

Lemma step_OSwap i j w : summarised false w (step (OSwap i j) w).
Proof.
  simpl. destruct (sps w !! i) as [this|] eqn:Hi; [|done].
  destruct (sps w !! j) as [other|] eqn:Hj; [|done]. simpl.
  apply summary_same; simpl; try done.
  intros b.
  set (t := {| sp_obj_ := sp_obj_ this; sp_block_ := sp_block_ this |}).
  set (o := {| sp_obj_ := sp_obj_ other; sp_block_ := sp_block_ other |}).
  pose proof (srefs_insert b _ _ _ t Hj) as H1. simpl in H1.
  destruct (decide (i = j)) as [->|Hne].
  - assert (this = other) as -> by congruence.
    rewrite list_insert_insert_eq.
    pose proof (srefs_insert b _ _ _ o Hj) as H2. simpl in H2. lia.
  - assert (<[j:=t]> (sps w) !! i = Some this) as Hi' by by rewrite list_lookup_insert_ne.
    pose proof (srefs_insert b _ _ _ o Hi') as H2. simpl in H2. lia.
Qed.

Lemma step_OReset i w : Inv (abs w) → summarised false w (step (OReset i) w).
Proof.
  intros HI. simpl. destruct (sps w !! i) as [this|] eqn:Hi; [|done].
  destruct (exec_Reset w i this HI Hi) as (m1 & Hrun & Hph).
  unfold exec. rewrite Hrun. simpl. by apply summary_phase1.
Qed.

Lemma WeakPtr_Expired_spec other b cb m :
  wp_block_ other = Some b → heap m !! b = Some cb →
  WeakPtr_Expired other m = Ok (shared_counter_ cb =? 0) m.
Proof. intros Hblk Hb. unfold WeakPtr_Expired, GetSharedCount. rewrite Hblk. by mstep. Qed.

Lemma step_OPromote wsrc w :
  Inv (abs w) → room w → summarised false w (step (OPromote wsrc) w).
Proof.
  intros HI [Hroom _]. simpl. destruct (wps w !! wsrc) as [other|] eqn:Hsrc; [|done].
  unfold exec, SharedPtr_from_weak. simpl.
  destruct (wp_block_ other) as [b|] eqn:Hblk.
  - pose proof (wrefs_lookup b _ _ _ Hsrc Hblk) as Hpos.
    destruct (Inv_attached w b HI) as [cb Hb]; [lia|].
    unfold bind at 1. rewrite (WeakPtr_Expired_spec other b cb) by done.
    destruct (shared_counter_ cb =? 0) eqn:Hz.
    + simpl. by apply summary_same.
    + apply Z.eqb_neq in Hz.
      destruct (inv_live _ HI b cb Hb) as (Hs & _). simpl in Hs.
      set (this := {| sp_obj_ := wp_obj_ other; sp_block_ := Some b |}).
      edestruct (exec_IncrementShared false w b (sps w ++ [this])) as (m' & Hrun & Hph);
        try done; [lia| | | |].
      * intros _. lia.
      * intros b'. rewrite srefs_snoc. simpl. by rewrite points_Some.
      * rewrite length_app. simpl. lia.
      * unfold bind, ret. rewrite Hrun. by apply summary_phase2.
  - simpl. apply summary_same; simpl; try done.
    intros b. rewrite srefs_snoc. simpl. by rewrite points_None, Nat.add_0_r.
Qed.

Lemma step_OLock wsrc w :
  Inv (abs w) → room w → summarised true w (step (OLock wsrc) w).
Proof.
  intros HI [Hroom _]. simpl. destruct (wps w !! wsrc) as [other|] eqn:Hsrc; [|done].
  unfold exec, WeakPtr_Lock, SharedPtr_from_weak. simpl.
  destruct (wp_block_ other) as [b|] eqn:Hblk.
  - pose proof (wrefs_lookup b _ _ _ Hsrc Hblk) as Hpos.
    destruct (Inv_attached w b HI) as [cb Hb]; [lia|].
    unfold bind at 1. rewrite (WeakPtr_Expired_spec other b cb) by done.
    set (this := if shared_counter_ cb =? 0
                 then {| sp_obj_ := None; sp_block_ := Some b |}
                 else {| sp_obj_ := wp_obj_ other; sp_block_ := Some b |}).
    edestruct (exec_IncrementShared true w b (sps w ++ [this])) as (m' & Hrun & Hph);
      try done; [lia| | |].
    + intros b'. rewrite srefs_snoc. unfold this.
      destruct (_ =? 0); simpl; by rewrite points_Some.
    + rewrite length_app. simpl. lia.
    + unfold this in *. destruct (shared_counter_ cb =? 0);
        unfold bind, ret; rewrite Hrun; by apply summary_phase2.
  - simpl. apply summary_same; simpl; try done.
    intros b. rewrite srefs_snoc. simpl. by rewrite points_None, Nat.add_0_r.
Qed.

Lemma step_OAssign dst src w :
  Inv (abs w) → room w → summarised false w (step (OAssign dst src) w).
Proof.
  intros HI [Hroom _]. simpl. destruct (sps w !! dst) as [this|] eqn:Hdst; [|done].
  destruct (sps w !! src) as [other|] eqn:Hsrc; [|done].
  unfold exec, SharedPtr_assign. case_bool_decide as Hself.
  - simpl. apply summary_same; simpl; try done. by rewrite list_insert_id.
  - destruct (exec_Reset w dst this HI Hdst) as (m1 & Hrun & Hph1).
    unfold bind at 1. rewrite Hrun.
    set (w1 := {| mem := m1; sps := <[dst := SharedPtr_default]> (sps w); wps := wps w |}) in *.
    assert (Inv (abs w1)) as HI1 by by eapply Inv_phase1.
    assert (sps w1 !! src = Some other) as Hsrc1 by (simpl; by rewrite list_lookup_insert_ne).
    assert (sps w1 !! dst = Some SharedPtr_default) as Hdst1.
    { simpl. apply list_lookup_insert_eq. by eapply lookup_lt_Some. }
    simpl. destruct (sp_block_ other) as [b|] eqn:Hblk.
    + set (p := {| sp_obj_ := sp_obj_ other; sp_block_ := Some b |}).
      pose proof (srefs_lookup b _ _ _ Hsrc1 Hblk) as Hpos.
      edestruct (exec_IncrementShared false w1 b (<[dst := p]> (sps w)))
        as (m' & Hrun' & Hph2); try done; [lia| | |].
      * intros b'. pose proof (srefs_insert b' _ _ _ p Hdst1) as H.
        simpl in H. rewrite list_insert_insert_eq in H.
        rewrite points_Some, points_None in H. unfold w1; simpl. lia.
      * rewrite length_insert. lia.
      * unfold bind, ret. simpl in Hrun'. rewrite Hrun'. simpl.
        exists (abs w1). by repeat split.
    + simpl. exists (abs w1). split; [done|]. split; [|done].
      apply P2_none; simpl; try done.
      intros b.
      pose proof (srefs_insert b _ _ _ {| sp_obj_ := sp_obj_ other; sp_block_ := None |} Hdst1)
        as H.
      simpl in H. rewrite list_insert_insert_eq in H. rewrite !points_None in H. lia.
Qed.

Lemma step_OMoveAssign dst src w :
  Inv (abs w) → summarised false w (step (OMoveAssign dst src) w).
Proof.
  intros HI. simpl. destruct (sps w !! dst) as [this|] eqn:Hdst; [|done].
  destruct (sps w !! src) as [other|] eqn:Hsrc; [|done].
  unfold exec, SharedPtr_move_assign. case_bool_decide as Hself.
  - simpl. apply summary_same; simpl; try done. subst dst.
    by rewrite list_insert_insert_eq, list_insert_id.
  - destruct (exec_Reset w dst this HI Hdst) as (m1 & Hrun & Hph1).
    unfold bind at 1. rewrite Hrun. simpl.
    exists (abs {| mem := m1; sps := <[dst := SharedPtr_default]> (sps w); wps := wps w |}).
    split; [done|]. split; [|done].
    apply P2_none; simpl; try done.
    intros b.
    set (o := {| sp_obj_ := sp_obj_ other; sp_block_ := sp_block_ other |}).
    set (e := {| sp_obj_ := None; sp_block_ := None |}).
    pose proof (srefs_insert b _ _ _ e Hsrc) as H1.
    assert (<[src:=e]> (sps w) !! dst = Some this) as Hdst' by by rewrite list_lookup_insert_ne.
    pose proof (srefs_insert b _ _ _ o Hdst') as H2.
    pose proof (srefs_insert b _ _ _ SharedPtr_default Hdst) as H3.
    simpl in *. rewrite !points_None in *. lia.
Qed.

Lemma step_OResetPtr i ptr w :
  Inv (abs w) → summarised false w (step (OResetPtr i ptr) w).
Proof.
  intros HI. simpl. destruct (sps w !! i) as [this|] eqn:Hi; [|done].
  unfold exec, SharedPtr_Reset_ptr.
  destruct (exec_Reset w i this HI Hi) as (m1 & Hrun & Hph1).
  unfold bind at 1. rewrite Hrun.
  set (w1 := {| mem := m1; sps := <[i := SharedPtr_default]> (sps w); wps := wps w |}) in *.
  assert (sps w1 !! i = Some SharedPtr_default) as Hi1.
  { simpl. apply list_lookup_insert_eq. by eapply lookup_lt_Some. }
  set (p := {| sp_obj_ := ptr; sp_block_ := Some (next_block m1) |}).
  edestruct (exec_new_PtrControlBlock false w1 ptr (<[i := p]> (sps w))) as (m' & Hrun' & Hph2).
  - intros b'. pose proof (srefs_insert b' _ _ _ p Hi1) as H.
    simpl in H. rewrite list_insert_insert_eq in H.
    rewrite points_Some, points_None in H. unfold w1; simpl. lia.
  - unfold bind, ret. simpl in Hrun'. rewrite Hrun'. simpl.
    exists (abs w1). by repeat split.
Qed.

Lemma step_WDefault w : summarised false w (step WDefault w).
Proof.
  simpl. apply summary_same; simpl; try done.
  intros b. rewrite wrefs_snoc. simpl. rewrite points_None. lia.
Qed.

Lemma step_WCopy src w : Inv (abs w) → room w → summarised false w (step (WCopy src) w).
Proof.
  intros HI [_ Hroom]. simpl. destruct (wps w !! src) as [other|] eqn:Hsrc; [|done].
  unfold exec, WeakPtr_copy. simpl.
  destruct (wp_block_ other) as [b|] eqn:Hblk.
  - pose proof (wrefs_lookup b _ _ _ Hsrc Hblk) as Hpos.
    set (this := {| wp_obj_ := wp_obj_ other; wp_block_ := Some b |}).
    edestruct (exec_IncrementWeak false w b (wps w ++ [this])) as (m' & Hrun & Hph);
      try done; [lia| | |].
    + intros b'. rewrite wrefs_snoc. simpl. by rewrite points_Some.
    + rewrite length_app. simpl. lia.
    + unfold bind, ret. rewrite Hrun. by apply summary_phase2.
  - simpl. apply summary_same; simpl; try done.
    intros b. rewrite wrefs_snoc. simpl. by rewrite points_None, Nat.add_0_r.
Qed.

Lemma step_WFromShared ssrc w :
  Inv (abs w) → room w → summarised false w (step (WFromShared ssrc) w).
Proof.
  intros HI [_ Hroom]. simpl. destruct (sps w !! ssrc) as [other|] eqn:Hsrc; [|done].
  unfold exec, WeakPtr_from_shared. simpl.
  destruct (sp_block_ other) as [b|] eqn:Hblk.
  - pose proof (srefs_lookup b _ _ _ Hsrc Hblk) as Hpos.
    set (this := {| wp_obj_ := sp_obj_ other; wp_block_ := Some b |}).
    edestruct (exec_IncrementWeak false w b (wps w ++ [this])) as (m' & Hrun & Hph);
      try done; [lia| | |].
    + intros b'. rewrite wrefs_snoc. simpl. by rewrite points_Some.
    + rewrite length_app. simpl. lia.
    + unfold bind, ret. rewrite Hrun. by apply summary_phase2.
  - simpl. apply summary_same; simpl; try done.
    intros b. rewrite wrefs_snoc. simpl. by rewrite points_None, Nat.add_0_r.
Qed.

Lemma step_WMove src w : summarised false w (step (WMove src) w).
Proof.
  simpl. destruct (wps w !! src) as [other|] eqn:Hsrc; [|done]. simpl.
  apply summary_same; simpl; try done.
  intros b. rewrite wrefs_snoc. simpl.
  pose proof (wrefs_insert b _ _ _ {| wp_obj_ := None; wp_block_ := None |} Hsrc) as H.
  simpl in H. rewrite points_None in H. lia.
Qed.

Lemma step_WSwap i j w : summarised false w (step (WSwap i j) w).
Proof.
  simpl. destruct (wps w !! i) as [this|] eqn:Hi; [|done].
  destruct (wps w !! j) as [other|] eqn:Hj; [|done]. simpl.
  apply summary_same; simpl; try done.
  intros b.
  set (t := {| wp_obj_ := wp_obj_ this; wp_block_ := wp_block_ this |}).
  set (o := {| wp_obj_ := wp_obj_ other; wp_block_ := wp_block_ other |}).
  pose proof (wrefs_insert b _ _ _ t Hj) as H1. simpl in H1.
  destruct (decide (i = j)) as [->|Hne].
  - assert (this = other) as -> by congruence.
    rewrite list_insert_insert_eq.
    pose proof (wrefs_insert b _ _ _ o Hj) as H2. simpl in H2. lia.
  - assert (<[j:=t]> (wps w) !! i = Some this) as Hi' by by rewrite list_lookup_insert_ne.
    pose proof (wrefs_insert b _ _ _ o Hi') as H2. simpl in H2. lia.
Qed.

Lemma step_WReset i w : Inv (abs w) → summarised false w (step (WReset i) w).
Proof.
  intros HI. simpl. destruct (wps w !! i) as [this|] eqn:Hi; [|done].
  destruct (exec_WReset w i this HI Hi) as (m1 & Hrun & Hph).
  unfold exec. rewrite Hrun. simpl. by apply summary_phase1.
Qed.

Lemma step_WAssign dst src w :
  Inv (abs w) → room w → summarised false w (step (WAssign dst src) w).
Proof.
  intros HI [_ Hroom]. simpl. destruct (wps w !! dst) as [this|] eqn:Hdst; [|done].
  destruct (wps w !! src) as [other|] eqn:Hsrc; [|done].
  unfold exec, WeakPtr_assign. case_bool_decide as Hself.
  - simpl. apply summary_same; simpl; try done. by rewrite list_insert_id.
  - destruct (exec_WReset w dst this HI Hdst) as (m1 & Hrun & Hph1).
    unfold bind at 1. rewrite Hrun.
    set (w1 := {| mem := m1; sps := sps w; wps := <[dst := WeakPtr_default]> (wps w) |}) in *.
    assert (Inv (abs w1)) as HI1 by by eapply Inv_phase1.
    assert (wps w1 !! src = Some other) as Hsrc1 by (simpl; by rewrite list_lookup_insert_ne).
    assert (wps w1 !! dst = Some WeakPtr_default) as Hdst1.
    { simpl. apply list_lookup_insert_eq. by eapply lookup_lt_Some. }
    simpl. destruct (wp_block_ other) as [b|] eqn:Hblk.
    + set (p := {| wp_obj_ := wp_obj_ other; wp_block_ := Some b |}).
      pose proof (wrefs_lookup b _ _ _ Hsrc1 Hblk) as Hpos.
      edestruct (exec_IncrementWeak false w1 b (<[dst := p]> (wps w)))
        as (m' & Hrun' & Hph2); try done; [lia| | |].
      * intros b'. pose proof (wrefs_insert b' _ _ _ p Hdst1) as H.
        simpl in H. rewrite list_insert_insert_eq in H.
        rewrite points_Some, points_None in H. unfold w1; simpl. lia.
      * rewrite length_insert. lia.
      * unfold bind, ret. simpl in Hrun'. rewrite Hrun'. simpl.
        exists (abs w1). by repeat split.
    + simpl. exists (abs w1). split; [done|]. split; [|done].
      apply P2_none; simpl; try done.
      intros b.
      pose proof (wrefs_insert b _ _ _ {| wp_obj_ := wp_obj_ other; wp_block_ := None |} Hdst1)
        as H.
      simpl in H. rewrite list_insert_insert_eq in H. rewrite !points_None in H. lia.
Qed.

Lemma step_WMoveAssign dst src w :
  Inv (abs w) → summarised false w (step (WMoveAssign dst src) w).
Proof.
  intros HI. simpl. destruct (wps w !! dst) as [this|] eqn:Hdst; [|done].
  destruct (wps w !! src) as [other|] eqn:Hsrc; [|done].
  unfold exec, WeakPtr_move_assign.
  destruct (exec_WReset w dst this HI Hdst) as (m1 & Hrun & Hph1).
  unfold bind at 1. rewrite Hrun.
  case_bool_decide as Hself; simpl;
    (exists (abs {| mem := m1; sps := sps w; wps := <[dst := WeakPtr_default]> (wps w) |});
     split; [done|]; split; [|done]; apply P2_none; simpl; [done|done|]).
  - subst dst. by rewrite list_insert_insert_eq.
  - intros b.
    set (o := {| wp_obj_ := wp_obj_ other; wp_block_ := wp_block_ other |}).
    set (e := {| wp_obj_ := None; wp_block_ := None |}).
    pose proof (wrefs_insert b _ _ _ e Hsrc) as H1.
    assert (<[src:=e]> (wps w) !! dst = Some this) as Hdst' by by rewrite list_lookup_insert_ne.
    pose proof (wrefs_insert b _ _ _ o Hdst') as H2.
    pose proof (wrefs_insert b _ _ _ WeakPtr_default Hdst) as H3.
    simpl in *. rewrite !points_None in *. lia.
Qed.

(** Every operation of a well-kept world is defined and is a release phase
    followed by an acquire phase. *)
Lemma step_summary op w :
  Inv (abs w) → room w → summarised (is_lock op) w (step op w).
Proof.
  intros HI Hroom. destruct op.
  - apply step_ODefault.
  - apply step_ONew.
  - apply step_OMakeShared.
  - by apply step_OCopy.
  - apply step_OMove.
  - by apply step_OAlias.
  - by apply step_OPromote.
  - by apply step_OLock.
  - by apply step_OAssign.
  - by apply step_OMoveAssign.
  - by apply step_OReset.
  - by apply step_OResetPtr.
  - apply step_OSwap.
  - apply step_WDefault.
  - by apply step_WCopy.
  - apply step_WMove.
  - by apply step_WFromShared.
  - by apply step_WAssign.
  - by apply step_WMoveAssign.
  - by apply step_WReset.
  - apply step_WSwap.
Qed.

(** ** Whole programs *)

Lemma exec_length {A} (c : M A) k w w' (n1 n2 : nat) :
  (∀ a m, length (sps (k a m)) = n1 ∧ length (wps (k a m)) = n2) →
  (length (sps w) ≤ n1)%nat → (length (wps w) ≤ n2)%nat →
  after (exec c k w) = Some w' →
  (length (sps w) ≤ length (sps w') ≤ n1)%nat ∧ (length (wps w) ≤ length (wps w') ≤ n2)%nat.
Proof.
  intros Hk H1 H2. unfold exec. destruct (c (mem w)) as [a m|e m|]; simpl; [| |done].
  - intros [= <-]. destruct (Hk a m) as [-> ->]. lia.
  - intros [= <-]. simpl. lia.
Qed.

Lemma step_length op w w' :
  after (step op w) = Some w' →
  (length (sps w) ≤ length (sps w') ≤ length (sps w) + 1)%nat ∧
  (length (wps w) ≤ length (wps w') ≤ length (wps w) + 1)%nat.
Proof.
  destruct op; simpl;
    repeat match goal with
           | |- context [match ?l !! ?i with _ => _ end] => destruct (l !! i); [|done]
           end;
    first
      [ intros [= <-]; simpl; rewrite ?length_app, ?length_insert; simpl; lia
      | intros H;
        eapply (exec_length _ _ _ _ (length (sps w) + 1) (length (wps w))) in H;
        [lia | intros; simpl; rewrite ?length_app, ?length_insert; simpl; lia | lia | lia]
      | intros H;
        eapply (exec_length _ _ _ _ (length (sps w)) (length (wps w) + 1)) in H;
        [lia | intros; simpl; rewrite ?length_app, ?length_insert; simpl; lia | lia | lia]
      | intros H;
        eapply (exec_length _ _ _ _ (length (sps w)) (length (wps w))) in H;
        [lia | intros; simpl; rewrite ?length_app, ?length_insert; simpl; lia | lia | lia] ].
Qed.

Lemma run_cons op ops w :
  run (op :: ops) w =
    match after (step op w) with
    | Some w' => run ops w'
    | None => step op w
    end.
Proof. simpl. by destruct (step op w). Qed.

Lemma run_app ops1 ops2 w w1 :
  run ops1 w = Next w1 → run (ops1 ++ ops2) w = run ops2 w1.
Proof.
  revert w. induction ops1 as [|op ops1 IH]; intros w; simpl.
  - by intros [= ->].
  - destruct (step op w); try done; apply IH.
Qed.

Lemma fits_room n w : fits (S n) w → room w.
Proof. unfold fits, room. lia. Qed.

Lemma step_Inv op w w' :
  Inv (abs w) → room w → after (step op w) = Some w' → Inv (abs w').
Proof.
  intros HI Hroom Hstep. pose proof (step_summary op w HI Hroom) as Hsum.
  destruct (step op w); simpl in *; try done; injection Hstep as ->;
    destruct Hsum as (a1 & H1 & H2 & _);
    (eapply (Inv_phase2 _ a1); [by apply (Inv_phase1 (abs w))|done]).
Qed.

Lemma step_defined op w : Inv (abs w) → room w → step op w ≠ Undefined.
Proof.
  intros HI Hroom Hstep. pose proof (step_summary op w HI Hroom) as Hsum.
  by rewrite Hstep in Hsum.
Qed.

Lemma run_Inv ops w w' :
  Inv (abs w) → fits (length ops) w → run ops w = Next w' →
  Inv (abs w') ∧ fits 0 w'.
Proof.
  revert w. induction ops as [|op ops IH]; intros w HI Hfits.
  - simpl. by intros [= <-].
  - rewrite run_cons. destruct (after (step op w)) as [w1|] eqn:Hstep.
    + intros Hrun. apply (IH w1); [| |done].
      * eapply step_Inv; eauto using fits_room.
      * destruct (step_length _ _ _ Hstep). unfold fits in *. simpl in *. lia.
    + destruct (step op w); done.
Qed.

Lemma run_defined ops w :
  Inv (abs w) → fits (length ops) w → run ops w ≠ Undefined.
Proof.
  revert w. induction ops as [|op ops IH]; intros w HI Hfits; [done|].
  rewrite run_cons. destruct (after (step op w)) as [w1|] eqn:Hstep.
  - apply IH.
    + eapply step_Inv; eauto using fits_room.
    + destruct (step_length _ _ _ Hstep). unfold fits in *. simpl in *. lia.
  - eapply step_defined; eauto using fits_room.
Qed.

Lemma reachable_Inv w : reachable w → Inv (abs w) ∧ room w.
Proof.
  intros (ops & Hrun & Hlen).
  assert (fits (S (length ops)) init) as Hfits by (unfold fits; simpl; lia).
  assert (∀ ops w0 w1 n, run ops w0 = Next w1 → fits (length ops + n) w0 → fits n w1) as Hmono.
  { clear. induction ops as [|op ops IH]; intros w0 w1 n.
    - simpl. by intros [= <-].
    - rewrite run_cons. destruct (after (step op w0)) as [w2|] eqn:Hstep.
      + intros Hrun Hfits. apply (IH w2 w1 n Hrun).
        destruct (step_length _ _ _ Hstep). unfold fits in *. simpl in *. lia.
      + destruct (step op w0); done. }
  split.
  - eapply run_Inv; [apply Inv_init| |done]. unfold fits in *; simpl in *; lia.
  - apply (fits_room 0), (Hmono ops init w 1%nat Hrun).
    unfold fits in *; simpl in *; lia.
Qed.

Lemma Inv_destroyed_le a b : Inv a → (destroyed b (log (am a)) ≤ 1)%nat.
Proof.
  intros HI. destruct (heap (am a) !! b) as [cb|] eqn:E.
  - destruct (inv_live a HI b cb E) as (_ & _ & _ & _ & _ & _ & ->). destruct (_ && _); lia.
  - destruct (inv_dead a HI b E) as (_ & _ & _ & -> & _). destruct (born _ _); lia.
Qed.

Lemma Inv_freed_le a b : Inv a → (freed b (log (am a)) ≤ 1)%nat.
Proof.
  intros HI. destruct (heap (am a) !! b) as [cb|] eqn:E.
  - destruct (inv_live a HI b cb E) as (_ & _ & _ & _ & -> & _). lia.
  - destruct (inv_dead a HI b E) as (_ & _ & -> & _). destruct (decide _); lia.
Qed.

Lemma summary_srefs lock w w' b :
  summary lock w w' → (srefs b (sps w) ≤ srefs b (sps w') + 1)%nat.
Proof.
  intros (a1 & H1 & H2 & _).
  assert (aS (abs w) b ≤ aS a1 b + 1)%nat as Ha.
  { destruct H1 as [_ HS _ | b0 cb _ _ HS _ | b0 cb _ _ HS _].
    - rewrite HS. lia.
    - specialize (HS b). destruct (decide _); lia.
    - rewrite HS. lia. }
  assert (aS a1 b ≤ aS (abs w') b)%nat as Hb.
  { destruct H2 as [_ HS _ | b0 cb _ _ _ _ _ HS _ _ | b0 cb _ _ _ _ HS _ _
                   | d evs b0 _ _ _ _ _ HS _ | b0 _ _ _ _ HS _]; rewrite HS; lia. }
  simpl in *. lia.
Qed.

Lemma summary_log lock w w' :
  summary lock w w' →
  (next_block (mem w) ≤ next_block (mem w'))%nat ∧
  ∃ evs, log (mem w') = log (mem w) ++ evs ∧
         ∀ b, (b < next_block (mem w))%nat → born b evs = false.
Proof.
  intros (a1 & H1 & H2 & _).
  destruct (phase1_log _ _ H1) as (Hn1 & evs1 & Hl1 & Hb1).
  destruct (phase2_log _ _ _ H2) as (Hn2 & evs2 & Hl2 & Hb2).
  simpl in *. split; [lia|]. exists (evs1 ++ evs2). split.
  - by rewrite Hl2, Hl1, app_assoc.
  - intros b Hlt. rewrite born_app, Hb1. simpl. apply Hb2. lia.
Qed.

Lemma step_Alive op w w' b :
  Inv (abs w) → room w → AliveAt b (abs w) →
  is_lock op = false ∨ (0 < srefs b (sps w))%nat →
  after (step op w) = Some w' →
  AliveAt b (abs w').
Proof.
  intros HI Hroom HA Hlock Hstep.
  pose proof (step_summary op w HI Hroom) as Hsum.
  assert (summary (is_lock op) w w') as (a1 & H1 & H2 & H3).
  { destruct (step op w); simpl in *; try done; by injection Hstep as <-. }
  eapply (Alive_phase2 _ b a1).
  - by eapply Inv_phase1.
  - by eapply Alive_phase1.
  - done.
  - destruct Hlock as [?|Hpos]; [by left|].
    destruct (is_lock op) eqn:E; [|by left]. right.
    destruct (H3 eq_refl) as [_ ->]. done.
Qed.

Lemma run_Alive ops w w' b :
  no_lock ops = true →
  Inv (abs w) → fits (length ops) w → AliveAt b (abs w) →
  run ops w = Next w' → AliveAt b (abs w').
Proof.
  revert w. induction ops as [|op ops IH]; intros w Hnl HI Hfits HA.
  - simpl. by intros [= <-].
  - simpl in Hnl. apply andb_true_iff in Hnl as [Hop Hnl]. apply negb_true_iff in Hop.
    rewrite run_cons. destruct (after (step op w)) as [w1|] eqn:Hstep.
    + apply IH; try done.
      * eapply step_Inv; eauto using fits_room.
      * destruct (step_length _ _ _ Hstep). unfold fits in *. simpl in *. lia.
      * eapply step_Alive; eauto using fits_room.
    + destruct (step op w); done.
Qed.

Lemma AliveAt_init b : AliveAt b (abs init).
Proof. intros cb. simpl. by rewrite lookup_empty. Qed.

(** ** Lifecycle theorems *)

(** Payloads without pointer members: in a program without [Lock], for a
    block that exists when an operation starts and was created holding a
    payload, the payload is destroyed during that operation exactly when
    the operation takes the strong count from 1 to 0; over the whole
    program (later release of the block included) it is destroyed at most
    once.  A block created on a null handle never sees a destruction. *)
Lemma inert_payload_destroyed_at_last_release ops op w w' b cb :
  run ops init = Next w →
  no_lock (ops ++ [op]) = true →
  Z.of_nat (length ops) + 1 < SIZE_MOD →
  after (step op w) = Some w' →
  heap (mem w) !! b = Some cb →
  (destroyed b (log (mem w')) ≤ 1)%nat ∧
  (destroyed b (log (mem w)) ≤ destroyed b (log (mem w')))%nat ∧
  (born b (log (mem w)) = true →
   (destroyed b (log (mem w')) = S (destroyed b (log (mem w))) ↔
    shared_counter_ cb = 1 ∧ strong_count b (mem w') = 0)) ∧
  (born b (log (mem w)) = false → destroyed b (log (mem w')) = 0%nat).
Proof.
  intros Hrun Hnl Hlen Hstep Hb.
  unfold no_lock in Hnl. rewrite forallb_app in Hnl. apply andb_true_iff in Hnl as [Hnl Hop].
  simpl in Hop. rewrite andb_true_r in Hop. apply negb_true_iff in Hop.
  destruct (reachable_Inv w) as [HI Hroom]; [by exists ops|].
  assert (AliveAt b (abs w)) as HA.
  { eapply (run_Alive ops init); [done|apply Inv_init| |apply AliveAt_init|done].
    unfold fits; simpl; lia. }
  assert (Inv (abs w')) as HI' by by eapply step_Inv.
  assert (AliveAt b (abs w')) as HA'.
  { eapply (step_Alive op w w' b); [done|done|done|by left|done]. }
  pose proof (step_summary op w HI Hroom) as Hsum.
  assert (summary (is_lock op) w w') as Hs.
  { destruct (step op w); simpl in *; try done; by injection Hstep as <-. }
  pose proof (summary_srefs _ _ _ b Hs) as Hdec.
  destruct (summary_log _ _ _ Hs) as (Hnext & evs & Hlog & Hborn).
  destruct (inv_live _ HI b cb Hb) as (Hc & _ & _ & Hlt & _ & Hpb & Hdes).
  specialize (HA cb Hb). simpl in *.
  assert (born b (log (mem w')) = born b (log (mem w))) as HB.
  { rewrite Hlog, born_app, Hborn by done. apply orb_false_r. }
  split; [apply (Inv_destroyed_le (abs w') b HI')|].
  split; [rewrite Hlog, destroyed_app; lia|].
  unfold strong_count.
  destruct (heap (mem w') !! b) as [cb'|] eqn:Hb'.
  - destruct (inv_live _ HI' b cb' Hb') as (Hc' & _ & _ & _ & _ & _ & Hdes').
    specialize (HA' cb' Hb'). simpl in *. rewrite Hdes', Hdes, HB, HA', HA, HB, Hc, Hc'.
    destruct (born b (log (mem w))); simpl; [|by split].
    split; [intros _|done].
    destruct (srefs b (sps w)) as [|[|n]], (srefs b (sps w')) as [|n']; simpl;
      split; try lia; try done.
  - destruct (inv_dead _ HI' b Hb') as (HS' & _ & _ & Hdes' & _).
    simpl in *. rewrite Hdes', Hdes, HB, HA, Hc, HS' in *.
    destruct (born b (log (mem w))); simpl; [|by split].
    split; [intros _|done].
    destruct (srefs b (sps w)) as [|[|n]]; simpl; split; try lia; try done.
Qed.

(** ** Use counts *)

Lemma UseCount_Inv w i p :
  Inv (abs w) → sps w !! i = Some p →
  SharedPtr_UseCount p (mem w)
    = Ok (match sp_block_ p with
          | Some b => Z.of_nat (srefs b (sps w))
          | None => 0
          end) (mem w).
Proof.
  intros HI Hi. unfold SharedPtr_UseCount, GetSharedCount.
  destruct (sp_block_ p) as [b|] eqn:Hblk; [|done].
  destruct (Inv_attached w b HI) as [cb Hb].
  { pose proof (srefs_lookup b _ _ _ Hi Hblk). lia. }
  destruct (inv_live _ HI b cb Hb) as (Hc & _). simpl in Hc.
  mstep. by rewrite Hc.
Qed.

Lemma step_OCopy_next w i p :
  Inv (abs w) → room w → sps w !! i = Some p →
  ∃ m', step (OCopy i) w
        = Next {| mem := m';
                  sps := sps w ++ [{| sp_obj_ := sp_obj_ p; sp_block_ := sp_block_ p |}];
                  wps := wps w |}.
Proof.
  intros HI Hroom Hi. simpl. rewrite Hi. unfold exec, SharedPtr_copy. simpl.
  destruct (sp_block_ p) as [b|] eqn:Hblk; [|by eexists].
  destruct (Inv_attached w b HI) as [cb Hb].
  { pose proof (srefs_lookup b _ _ _ Hi Hblk). lia. }
  destruct (IncrementShared_spec b cb (mem w) Hb) as (m' & Hrun & _).
  exists m'. unfold bind, ret. by rewrite Hrun.
Qed.

Lemma step_OReset_next w i p :
  Inv (abs w) → sps w !! i = Some p →
  ∃ m', step (OReset i) w
        = Next {| mem := m'; sps := <[i := SharedPtr_default]> (sps w); wps := wps w |}.
Proof.
  intros HI Hi. simpl. rewrite Hi.
  destruct (exec_Reset w i p HI Hi) as (m1 & Hrun & _).
  exists m1. unfold exec. by rewrite Hrun.
Qed.

(** C7: in every reachable world a shared pointer reports as its use count
    the number of shared pointers attached to its block (0 when it has no
    block); copy-constructing from it raises the count reported by it and by
    the new copy by exactly one, and resetting or destroying it lowers the
    count reported by every other copy by exactly one. *)
Theorem use_count_counts_the_copies ops w i p :
  run ops init = Next w →
  Z.of_nat (length ops) + 1 < SIZE_MOD →
  sps w !! i = Some p →
  let n := match sp_block_ p with
           | Some b => Z.of_nat (srefs b (sps w))
           | None => 0
           end in
  SharedPtr_UseCount p (mem w) = Ok n (mem w) ∧
  (∃ w' p', step (OCopy i) w = Next w' ∧ sps w' = sps w ++ [p'] ∧
            sp_block_ p' = sp_block_ p ∧ sp_obj_ p' = sp_obj_ p ∧
            (is_Some (sp_block_ p) →
             SharedPtr_UseCount p (mem w') = Ok (n + 1) (mem w') ∧
             SharedPtr_UseCount p' (mem w') = Ok (n + 1) (mem w'))) ∧
  (∃ w', step (OReset i) w = Next w' ∧
         sps w' !! i = Some SharedPtr_default ∧
         SharedPtr_UseCount SharedPtr_default (mem w') = Ok 0 (mem w') ∧
         ∀ j q, j ≠ i → sps w !! j = Some q →
                is_Some (sp_block_ p) → sp_block_ q = sp_block_ p →
                sps w' !! j = Some q ∧
                SharedPtr_UseCount q (mem w') = Ok (n - 1) (mem w')).
Proof.
  intros Hrun Hlen Hi n.
  destruct (reachable_Inv w) as [HI Hroom]; [by exists ops|].
  split; [by apply (UseCount_Inv w i p)|]. split.
  - destruct (step_OCopy_next w i p HI Hroom Hi) as (m' & Hstep).
    eexists _, _. split; [done|]. simpl. split; [done|]. split; [done|]. split; [done|].
    intros [b Hblk].
    assert (Inv (abs {| mem := m';
                        sps := sps w ++ [{| sp_obj_ := sp_obj_ p; sp_block_ := sp_block_ p |}];
                        wps := wps w |})) as HI'.
    { eapply (step_Inv (OCopy i) w); [done|done|]. by rewrite Hstep. }
    split.
    + pose proof (UseCount_Inv _ i p HI') as H. simpl in H.
      rewrite H by by apply lookup_app_l_Some.
      unfold n. rewrite Hblk. simpl. rewrite srefs_snoc. simpl.
      rewrite ?Hblk, points_Some, decide_True by done. f_equal. lia.
    + pose proof (UseCount_Inv _ (length (sps w))
                    {| sp_obj_ := sp_obj_ p; sp_block_ := sp_block_ p |} HI') as H.
      simpl in H. rewrite H by by rewrite lookup_app_r, Nat.sub_diag by lia.
      unfold n. simpl. rewrite Hblk. rewrite srefs_snoc. simpl.
      rewrite ?Hblk, points_Some, decide_True by done. f_equal. lia.
  - destruct (step_OReset_next w i p HI Hi) as (m' & Hstep).
    eexists. split; [done|]. simpl.
    assert (i < length (sps w))%nat as Hlt by by eapply lookup_lt_Some.
    split; [by apply list_lookup_insert_eq|]. split; [done|].
    intros j q Hne Hj [b Hblk] Hq.
    assert (Inv (abs {| mem := m'; sps := <[i := SharedPtr_default]> (sps w);
                        wps := wps w |})) as HI'.
    { eapply (step_Inv (OReset i) w); [done|done|]. by rewrite Hstep. }
    assert (<[i := SharedPtr_default]> (sps w) !! j = Some q) as Hj'
      by by rewrite list_lookup_insert_ne.
    split; [done|].
    pose proof (UseCount_Inv _ j q HI' Hj') as H0. simpl in H0. rewrite H0.
    unfold n. simpl. rewrite Hq, Hblk.
    pose proof (srefs_insert b _ _ _ SharedPtr_default Hi) as H.
    rewrite Hblk, points_Some, decide_True in H by done. simpl in H.
    rewrite points_None in H. f_equal. lia.
Qed.

Lemma use_count_counts_the_copies_witness :
  run [ONew (Some (ObjAt 7)); OCopy 0; OCopy 1]%nat init = Next three_owners_world ∧
  SharedPtr_UseCount {| sp_obj_ := Some (ObjAt 7); sp_block_ := Some 0%nat |} (mem three_owners_world)
    = Ok 3 (mem three_owners_world).
Proof.
  split; [reflexivity|].
  apply (use_count_counts_the_copies
           [ONew (Some (ObjAt 7)); OCopy 0; OCopy 1]%nat three_owners_world 2%nat
           {| sp_obj_ := Some (ObjAt 7); sp_block_ := Some 0%nat |});
    [reflexivity | reflexivity | reflexivity].
Defined.

(** ** Release of the block *)

Lemma sft_Reset_spec this b cb m :
  SFT.block_ this = Some b →
  heap m !! b = Some cb →
  ∃ m', SFT.Reset this m
          = Ok {| SFT.obj_ := None; SFT.block_ := None;
                  SFT.can_i_delete_block_ := SFT.can_i_delete_block_ this |} m' ∧
        sft_release_post (SFT.can_i_delete_block_ this) b cb m m'.
Proof.
  intros Hthis Hb. unfold SFT.Reset, sft_release_post. rewrite Hthis.
  unfold DecrementWeak, CanBlockBeDeleted. mstep.
  destruct ((shared_counter_ cb =? 0)%Z && (size_decr (weak_counter_ cb) =? 0)%Z
            && SFT.can_i_delete_block_ this) eqn:Hc; mstep.
  - unfold delete_block, DeleteData. mstep.
    destruct cb as [s k [[p|]|[|]]]; simpl in *; mstep;
      (eexists; split; [done|]; repeat split; mfin).
  - eexists; split; [done|]; repeat split; mfin.
Qed.

(** C2, counterexample: the weak pointer is the last reference to the
    block; its [Reset] brings both counts to 0, and the block is still
    allocated and was never freed. *)
Lemma esft_weak_ptr_leaves_block_allocated :
  match esft_weak_program empty_mem with
  | Ok _ m' =>
      heap m' !! 0%nat
        = Some {| shared_counter_ := 0; weak_counter_ := 0; payload_ := PtrData None |} ∧
      log m' = [EvAlloc 0 (PtrData (Some (ObjAt 1))); EvDestroy 0 (ObjAt 1)] ∧
      freed 0 (log m') = 0%nat
  | _ => False
  end.
Proof. vm_compute. done. Qed.

Lemma freed_release_log b l d (free : bool) :
  freed b (l ++ destroy_events b d ++ (if free then [EvFree b] else []))
  = (freed b l + (if free then 1 else 0))%nat.
Proof.
  rewrite !freed_app, freed_destroy_events.
  destruct free; unfold freed; simpl; [|lia].
  rewrite bool_decide_eq_true_2 by done. lia.
Qed.

Lemma SharedPtr_Reset_frees sp m b0 cb0 :
  heap m !! b0 = Some cb0 → sp_block_ sp = Some b0 →
  ∃ m', SharedPtr_Reset sp m = Ok SharedPtr_default m' ∧
        (heap m' !! b0 = None ↔
         size_decr (shared_counter_ cb0) = 0 ∧ weak_counter_ cb0 = 0) ∧
        freed b0 (log m')
          = (freed b0 (log m) + match heap m' !! b0 with Some _ => 0 | None => 1 end)%nat.
Proof.
  intros Hb0 Hsp.
  destruct (SharedPtr_Reset_spec sp b0 cb0 m Hsp Hb0) as (m' & Hrun & _ & Hpost).
  exists m'. split; [done|]. simpl in Hpost.
  destruct (size_decr (shared_counter_ cb0) =? 0) eqn:Hc; destruct Hpost as [Hlog Hheap].
  - apply Z.eqb_eq in Hc. rewrite Hlog, Hheap, freed_release_log.
    destruct (weak_counter_ cb0 =? 0) eqn:Hk.
    + apply Z.eqb_eq in Hk. done.
    + apply Z.eqb_neq in Hk. split; [|done]. split; [done|]. by intros [_ ?].
  - apply Z.eqb_neq in Hc. rewrite Hlog, Hheap. split; [|lia].
    split; [done|]. by intros [? _].
Qed.

Lemma WeakPtr_Reset_frees wk m b0 cb0 :
  heap m !! b0 = Some cb0 → wp_block_ wk = Some b0 →
  ∃ m', WeakPtr_Reset wk m = Ok WeakPtr_default m' ∧
        (heap m' !! b0 = None ↔
         shared_counter_ cb0 = 0 ∧ size_decr (weak_counter_ cb0) = 0) ∧
        freed b0 (log m')
          = (freed b0 (log m) + match heap m' !! b0 with Some _ => 0 | None => 1 end)%nat.
Proof.
  intros Hb0 Hwk.
  destruct (WeakPtr_Reset_spec wk b0 cb0 m Hwk Hb0) as (m' & Hrun & _ & Hpost).
  exists m'. split; [done|]. simpl in Hpost.
  destruct ((shared_counter_ cb0 =? 0) && (size_decr (weak_counter_ cb0) =? 0)) eqn:Hc;
    destruct Hpost as [Hlog Hheap]; rewrite Hlog, Hheap.
  - apply andb_true_iff in Hc. rewrite !Z.eqb_eq in Hc.
    rewrite (freed_release_log b0 (log m) (payload_ cb0) true). done.
  - apply andb_false_iff in Hc. rewrite !Z.eqb_neq in Hc.
    split; [|lia]. split; [done|]. intros [? ?]. by destruct Hc.
Qed.

Lemma sft_Reset_frees sw m b0 cb0 :
  heap m !! b0 = Some cb0 → SFT.block_ sw = Some b0 →
  ∃ sw' m', SFT.Reset sw m = Ok sw' m' ∧
        (heap m' !! b0 = None ↔
         shared_counter_ cb0 = 0 ∧ size_decr (weak_counter_ cb0) = 0 ∧
         SFT.can_i_delete_block_ sw = true) ∧
        freed b0 (log m')
          = (freed b0 (log m) + match heap m' !! b0 with Some _ => 0 | None => 1 end)%nat.
Proof.
  intros Hb0 Hsw.
  destruct (sft_Reset_spec sw b0 cb0 m Hsw Hb0) as (m' & Hrun & _ & Hpost).
  eexists _, m'. split; [done|]. simpl in Hpost.
  destruct ((shared_counter_ cb0 =? 0) && (size_decr (weak_counter_ cb0) =? 0)
            && SFT.can_i_delete_block_ sw) eqn:Hc;
    destruct Hpost as [Hlog Hheap]; rewrite Hlog, Hheap.
  - apply andb_true_iff in Hc as [Hc Hf]. apply andb_true_iff in Hc.
    rewrite !Z.eqb_eq in Hc. destruct Hc.
    rewrite (freed_release_log b0 (log m) (payload_ cb0) true). done.
  - split; [|lia]. split; [done|]. intros (? & ? & Hf).
    rewrite Hf, andb_true_r in Hc. apply andb_false_iff in Hc.
    rewrite !Z.eqb_neq in Hc. by destruct Hc.
Qed.

(** C2, as amended: in programs over weak/shared.h and weak/weak.h a block
    that exists when an operation starts is gone afterwards exactly when no
    shared and no weak pointer is attached to it any more, its counters
    equal the numbers of attached pointers while it exists, and it is freed
    at most once.  [SharedPtr::Reset] and [WeakPtr::Reset] free the block
    exactly when both counters are 0 after their decrement; the [Reset] of
    shared-from-this/weak.h does so only if [can_i_delete_block_] is set. *)
Theorem block_freed_exactly_at_last_release
    ops op w w' b cb (sp : SharedPtr) (wk : WeakPtr) (sw : SFT.WeakPtr) m b0 cb0 :
  run ops init = Next w →
  Z.of_nat (length ops) + 1 < SIZE_MOD →
  after (step op w) = Some w' →
  heap (mem w) !! b = Some cb →
  heap m !! b0 = Some cb0 →
  sp_block_ sp = Some b0 → wp_block_ wk = Some b0 → SFT.block_ sw = Some b0 →
  ((freed b (log (mem w')) ≤ 1)%nat ∧
   (heap (mem w') !! b = None ↔ freed b (log (mem w')) = 1%nat) ∧
   (heap (mem w') !! b = None ↔ srefs b (sps w') = 0%nat ∧ wrefs b (wps w') = 0%nat) ∧
   ((0 < wrefs b (wps w'))%nat → is_Some (heap (mem w') !! b)) ∧
   (∀ cb', heap (mem w') !! b = Some cb' →
           shared_counter_ cb' = Z.of_nat (srefs b (sps w')) ∧
           weak_counter_ cb' = Z.of_nat (wrefs b (wps w')))) ∧
  (∃ m', SharedPtr_Reset sp m = Ok SharedPtr_default m' ∧
         (heap m' !! b0 = None ↔
          size_decr (shared_counter_ cb0) = 0 ∧ weak_counter_ cb0 = 0) ∧
         freed b0 (log m')
           = (freed b0 (log m) + match heap m' !! b0 with Some _ => 0 | None => 1 end)%nat) ∧
  (∃ m', WeakPtr_Reset wk m = Ok WeakPtr_default m' ∧
         (heap m' !! b0 = None ↔
          shared_counter_ cb0 = 0 ∧ size_decr (weak_counter_ cb0) = 0) ∧
         freed b0 (log m')
           = (freed b0 (log m) + match heap m' !! b0 with Some _ => 0 | None => 1 end)%nat) ∧
  (∃ sw' m', SFT.Reset sw m = Ok sw' m' ∧
         (heap m' !! b0 = None ↔
          shared_counter_ cb0 = 0 ∧ size_decr (weak_counter_ cb0) = 0 ∧
          SFT.can_i_delete_block_ sw = true) ∧
         freed b0 (log m')
           = (freed b0 (log m) + match heap m' !! b0 with Some _ => 0 | None => 1 end)%nat).
Proof.
  intros Hrun Hlen Hstep Hb Hb0 Hsp Hwk Hsw.
  destruct (reachable_Inv w) as [HI Hroom]; [by exists ops|].
  assert (Inv (abs w')) as HI' by by eapply step_Inv.
  pose proof (step_summary op w HI Hroom) as Hsum.
  assert (summary (is_lock op) w w') as Hs.
  { destruct (step op w); simpl in *; try done; by injection Hstep as <-. }
  destruct (summary_log _ _ _ Hs) as (Hnext & _).
  destruct (inv_live _ HI b cb Hb) as (_ & _ & _ & Hlt & _). simpl in Hlt.
  split; [|split; [by apply SharedPtr_Reset_frees|
                   split; [by apply WeakPtr_Reset_frees|by apply sft_Reset_frees]]].
  split; [apply (Inv_freed_le (abs w') b HI')|]. split; [|split; [|split]].
  - split.
    + intros Hd. destruct (inv_dead _ HI' b Hd) as (_ & _ & Hfr & _).
      simpl in Hfr. rewrite Hfr, decide_True by lia. done.
    + intros Hf. destruct (heap (mem w') !! b) as [cb'|] eqn:E; [|done].
      destruct (inv_live _ HI' b cb' E) as (_ & _ & _ & _ & Hfr & _). simpl in *. lia.
  - split.
    + intros Hd. by destruct (inv_dead _ HI' b Hd) as (? & ? & _).
    + intros [HS HW]. destruct (heap (mem w') !! b) as [cb'|] eqn:E; [|done].
      destruct (inv_live _ HI' b cb' E) as (_ & _ & ? & _). simpl in *. lia.
  - intros Hpos. destruct (heap (mem w') !! b) as [cb'|] eqn:E; [by eexists|].
    destruct (inv_dead _ HI' b E) as (_ & ? & _). simpl in *. lia.
  - intros cb' E. by destruct (inv_live _ HI' b cb' E) as (? & ? & _).
Qed.

Lemma block_freed_exactly_at_last_release_witness :
  run [ONew (Some (ObjAt 7)); WFromShared 0; OReset 0]%nat init = Next expired_world ∧
  after (step (WReset 0) expired_world) = Some weak_released_world ∧
  (heap (mem weak_released_world) !! 0%nat = None ↔ freed 0 (log (mem weak_released_world)) = 1%nat).
Proof.
  split; [reflexivity|]. split; [reflexivity|].
  pose (m := {| heap := {[ 0%nat := {| shared_counter_ := 1; weak_counter_ := 1;
                                        payload_ := PtrData (Some (ObjAt 7)) |} ]};
                next_block := 1; log := [] |}).
  apply (block_freed_exactly_at_last_release
           [ONew (Some (ObjAt 7)); WFromShared 0; OReset 0]%nat (WReset 0)
           expired_world weak_released_world 0%nat
           {| shared_counter_ := 0; weak_counter_ := 1; payload_ := PtrData None |}
           {| sp_obj_ := Some (ObjAt 7); sp_block_ := Some 0%nat |}
           {| wp_obj_ := Some (ObjAt 7); wp_block_ := Some 0%nat |}
           {| SFT.obj_ := Some (ObjAt 7); SFT.block_ := Some 0%nat;
              SFT.can_i_delete_block_ := false |}
           m 0%nat
           {| shared_counter_ := 1; weak_counter_ := 1; payload_ := PtrData (Some (ObjAt 7)) |});
    reflexivity.
Defined.

(** ** Aliasing *)

Lemma exec_untouched {A} (c : M A) k' w w' k q :
  sps w !! k = Some q →
  (∀ a m, sps (k' a m) !! k = Some q) →
  after (exec c k' w) = Some w' → sps w' !! k = Some q.
Proof.
  intros Hk Hk'. unfold exec. destruct (c (mem w)) as [a m|e m|]; simpl; [| |done].
  - intros [= <-]. apply Hk'.
  - by intros [= <-].
Qed.

Lemma step_untouched k op w w' q :
  touches k op = false → sps w !! k = Some q →
  after (step op w) = Some w' → sps w' !! k = Some q.
Proof.
  intros Ht Hk.
  destruct op; simpl in *;
    repeat match goal with
           | H : _ || _ = false |- _ => apply orb_false_iff in H as [? ?]
           | H : bool_decide _ = false |- _ => apply bool_decide_eq_false in H
           | |- context [match ?l !! ?i with _ => _ end] => destruct (l !! i); [|done]
           end;
    first
      [ intros [= <-]; simpl;
        first [ done | by apply lookup_app_l_Some
              | by rewrite ?list_lookup_insert_ne by done
              | apply lookup_app_l_Some; by rewrite ?list_lookup_insert_ne by done ]
      | apply exec_untouched; [done|]; intros; simpl;
        first [ done | by apply lookup_app_l_Some
              | by rewrite ?list_lookup_insert_ne by done ] ].
Qed.

Lemma run_length ops w w' :
  run ops w = Next w' →
  (length (sps w') ≤ length (sps w) + length ops)%nat ∧
  (length (wps w') ≤ length (wps w) + length ops)%nat.
Proof.
  revert w. induction ops as [|op ops IH]; intros w.
  - simpl. intros [= <-]. lia.
  - rewrite run_cons. destruct (after (step op w)) as [w1|] eqn:Hstep;
      [|destruct (step op w); done].
    intros Hrun. destruct (IH w1 Hrun). destruct (step_length _ _ _ Hstep).
    simpl. lia.
Qed.

Lemma run_keeps_alive k q b ops w1 w2 :
  Inv (abs w1) → fits (length ops) w1 → AliveAt b (abs w1) →
  born b (log (mem w1)) = true →
  sps w1 !! k = Some q → sp_block_ q = Some b →
  forallb (λ o, negb (touches k o)) ops = true →
  run ops w1 = Next w2 →
  Inv (abs w2) ∧ AliveAt b (abs w2) ∧ born b (log (mem w2)) = true ∧ sps w2 !! k = Some q.
Proof.
  revert w1. induction ops as [|op ops IH]; intros w1 HI Hfits HA HB Hk Hq Hnt.
  - simpl. by intros [= <-].
  - simpl in Hnt. apply andb_true_iff in Hnt as [Hop Hnt]. apply negb_true_iff in Hop.
    rewrite run_cons. destruct (after (step op w1)) as [w|] eqn:Hstep;
      [|destruct (step op w1); done].
    assert (room w1) as Hroom by eauto using fits_room.
    apply IH; try done.
    + by eapply step_Inv.
    + destruct (step_length _ _ _ Hstep). unfold fits in *. simpl in *. lia.
    + eapply (step_Alive op w1 w b); try done. right. by eapply srefs_lookup.
    + pose proof (step_summary op w1 HI Hroom) as Hsum.
      assert (summary (is_lock op) w1 w) as Hs.
      { destruct (step op w1); simpl in *; try done; by injection Hstep as <-. }
      destruct (summary_log _ _ _ Hs) as (_ & evs & -> & _).
      by rewrite born_app, HB.
    + by eapply step_untouched.
Qed.

Lemma step_OAlias_next w i p ptr :
  Inv (abs w) → room w → sps w !! i = Some p →
  ∃ m', step (OAlias i ptr) w
        = Next {| mem := m';
                  sps := sps w ++ [{| sp_obj_ := ptr; sp_block_ := sp_block_ p |}];
                  wps := wps w |}.
Proof.
  intros HI Hroom Hi. simpl. rewrite Hi. unfold exec, SharedPtr_alias. simpl.
  destruct (sp_block_ p) as [b|] eqn:Hblk; [|by eexists].
  destruct (Inv_attached w b HI) as [cb Hb].
  { pose proof (srefs_lookup b _ _ _ Hi Hblk). lia. }
  destruct (IncrementShared_spec b cb (mem w) Hb) as (m' & Hrun & _).
  exists m'. unfold bind, ret. by rewrite Hrun.
Qed.

(** C9: from a shared pointer [p] whose block [b] holds a live payload, the
    aliasing constructor builds a pointer [q] on the same block with the
    strong count raised by one; [q.Get()] is the address given,
    [q.UseCount() = p.UseCount()], and whatever the program does afterwards
    to the other pointers, as long as it does not write to [q] the payload
    of [b] is not destroyed and the block stays. *)
Theorem alias_shares_block_and_keeps_payload ops w i p b cb ptr :
  run ops init = Next w →
  Z.of_nat (length ops) + 1 < SIZE_MOD →
  sps w !! i = Some p → sp_block_ p = Some b →
  heap (mem w) !! b = Some cb → holds_payload cb = true →
  ∃ w1 q,
    step (OAlias i ptr) w = Next w1 ∧
    sps w1 !! length (sps w) = Some q ∧
    SharedPtr_Get q = ptr ∧ sp_block_ q = Some b ∧
    SharedPtr_UseCount q (mem w1) = Ok (shared_counter_ cb + 1) (mem w1) ∧
    SharedPtr_UseCount p (mem w1) = Ok (shared_counter_ cb + 1) (mem w1) ∧
    destroyed b (log (mem w1)) = 0%nat ∧
    ∀ ops' w2,
      forallb (λ o, negb (touches (length (sps w)) o)) ops' = true →
      Z.of_nat (length ops + 1 + length ops') < SIZE_MOD →
      run ops' w1 = Next w2 →
      sps w2 !! length (sps w) = Some q ∧
      destroyed b (log (mem w2)) = 0%nat ∧
      ∃ cb2, heap (mem w2) !! b = Some cb2 ∧ holds_payload cb2 = true ∧
             0 < shared_counter_ cb2.
Proof.
  intros Hrun Hlen Hi Hblk Hb Hhp.
  destruct (reachable_Inv w) as [HI Hroom]; [by exists ops|].
  destruct (inv_live _ HI b cb Hb) as (Hc & _ & _ & _ & _ & Hborn & _). simpl in *.
  specialize (Hborn Hhp).
  pose proof (srefs_lookup b _ _ _ Hi Hblk) as Hpos.
  assert (AliveAt b (abs w)) as HA.
  { intros cb0 Hb0. simpl in *. assert (cb0 = cb) as -> by congruence.
    rewrite Hhp, Hborn. destruct (srefs b (sps w)); [lia|done]. }
  destruct (step_OAlias_next w i p ptr HI Hroom Hi) as (m' & Hstep).
  set (q := {| sp_obj_ := ptr; sp_block_ := sp_block_ p |}) in *.
  set (w1 := {| mem := m'; sps := sps w ++ [q]; wps := wps w |}) in *.
  assert (after (step (OAlias i ptr) w) = Some w1) as Hafter by by rewrite Hstep.
  assert (Inv (abs w1)) as HI1 by by eapply step_Inv.
  assert (AliveAt b (abs w1)) as HA1.
  { eapply (step_Alive _ w w1 b); try done. by left. }
  assert (sps w1 !! length (sps w) = Some q) as Hq.
  { simpl. by rewrite lookup_app_r, Nat.sub_diag by lia. }
  assert (born b (log (mem w1)) = true) as HB1.
  { pose proof (step_summary (OAlias i ptr) w HI Hroom) as Hsum. rewrite Hstep in Hsum.
    destruct (summary_log _ _ _ Hsum) as (_ & evs & -> & _). by rewrite born_app, Hborn. }
  assert (∀ w2, Inv (abs w2) → AliveAt b (abs w2) → born b (log (mem w2)) = true →
                sps w2 !! length (sps w) = Some q →
                destroyed b (log (mem w2)) = 0%nat ∧
                ∃ cb2, heap (mem w2) !! b = Some cb2 ∧ holds_payload cb2 = true ∧
                       0 < shared_counter_ cb2) as Hfinal.
  { intros w2 HI2 HA2 HB2 Hq2.
    pose proof (srefs_lookup b _ _ _ Hq2 Hblk) as Hpos2.
    destruct (Inv_attached w2 b HI2) as [cb2 Hb2]; [lia|].
    destruct (inv_live _ HI2 b cb2 Hb2) as (Hc2 & _ & _ & _ & _ & _ & Hdes2).
    specialize (HA2 cb2 Hb2). simpl in *.
    assert (holds_payload cb2 = true) as Hhp2.
    { rewrite HA2, HB2. destruct (srefs b (sps w2)); [lia|done]. }
    split; [by rewrite Hdes2, Hhp2, andb_false_r|].
    exists cb2. repeat split; try done. lia. }
  exists w1, q. split; [done|]. split; [done|]. split; [done|]. split; [done|].
  assert (srefs b (sps w ++ [q]) = S (srefs b (sps w))) as HS1.
  { rewrite srefs_snoc. simpl. rewrite Hblk, points_Some, decide_True by done. lia. }
  split; [|split; [|split]].
  - rewrite (UseCount_Inv w1 (length (sps w)) q HI1 Hq). simpl.
    rewrite Hblk, HS1, Hc. f_equal. lia.
  - rewrite (UseCount_Inv w1 i p HI1) by (simpl; by apply lookup_app_l_Some).
    simpl. rewrite Hblk, HS1, Hc. f_equal. lia.
  - by apply Hfinal.
  - intros ops' w2 Hnt Hlen' Hrun'.
    destruct (run_keeps_alive (length (sps w)) q b ops' w1 w2) as (HI2 & HA2 & HB2 & Hq2);
      try done.
    + destruct (run_length _ _ _ Hrun) as [Hl1 Hl2]. simpl in Hl1, Hl2.
      unfold fits. simpl. rewrite length_app. simpl. lia.
    + split; [done|]. by apply Hfinal.
Qed.

Lemma alias_shares_block_and_keeps_payload_witness :
  run [ONew (Some (ObjAt 7))]%nat init = Next single_owner_world ∧
  ∃ w1 q, step (OAlias 0 (Some (ObjAt 8))) single_owner_world = Next w1 ∧
          sps w1 !! 1%nat = Some q ∧
          SharedPtr_Get q = Some (ObjAt 8) ∧
          SharedPtr_UseCount q (mem w1) = Ok 2 (mem w1).
Proof.
  split; [reflexivity|].
  destruct (alias_shares_block_and_keeps_payload
              [ONew (Some (ObjAt 7))]%nat single_owner_world 0%nat
              {| sp_obj_ := Some (ObjAt 7); sp_block_ := Some 0%nat |} 0%nat
              {| shared_counter_ := 1; weak_counter_ := 0;
                 payload_ := PtrData (Some (ObjAt 7)) |}
              (Some (ObjAt 8)))
    as (w1 & q & H1 & H2 & H3 & _ & H4 & _); try reflexivity.
  exists w1, q. repeat split; assumption.
Defined.

(** ** Failure of the payload constructor in the factory *)

(** C3: when the payload constructor throws, [MakeShared] frees the block
    it allocated and rethrows the same exception, but on the way the block's
    destructor runs the payload destructor on the storage in which nothing
    was constructed. *)
Theorem MakeShared_failure_runs_payload_destructor code m :
  let b := next_block m in
  ∃ m', MakeShared (payload_ctor (Some code)) m = Throw (PayloadFailure code) m' ∧
        heap m' !! b = None ∧
        (∀ b', b' ≠ b → heap m' !! b' = heap m !! b') ∧
        log m' = log m ++ [EvAlloc b (MakeSharedData false);
                           EvDestroy b (StorageOf b); EvFree b] ∧
        destroyed b (log m') = S (destroyed b (log m)).
Proof.
  intros b.
  destruct (MakeShared_spec (Some code) m) as (m' & Hrun & [_ Hframe] & Hlog & Hheap).
  exists m'. repeat split; try done.
  rewrite Hlog, destroyed_app. unfold destroyed at 2. simpl.
  rewrite bool_decide_eq_true_2 by done. lia.
Qed.

(** ** Promotion of weak pointers *)

(** What [Lock] returns and does to the store. *)
Lemma WeakPtr_Lock_spec other m :
  match wp_block_ other with
  | None => WeakPtr_Lock other m = Ok {| sp_obj_ := wp_obj_ other; sp_block_ := None |} m
  | Some b =>
      ∀ cb, heap m !! b = Some cb →
        ∃ m', WeakPtr_Lock other m
                = Ok {| sp_obj_ := if shared_counter_ cb =? 0 then None else wp_obj_ other;
                        sp_block_ := Some b |} m' ∧
              same_but b m m' ∧ log m' = log m ∧
              heap m' !! b = Some (set_shared (size_incr (shared_counter_ cb)) cb)
  end.
Proof.
  unfold WeakPtr_Lock, SharedPtr_from_weak. simpl.
  destruct (wp_block_ other) as [b|] eqn:Hblk; [|done].
  intros cb Hb. unfold bind at 1. rewrite (WeakPtr_Expired_spec other b cb) by done.
  destruct (IncrementShared_spec b cb m Hb) as (m' & Hrun & Hsame & Hlog & Hheap).
  exists m'. split; [|done].
  destruct (shared_counter_ cb =? 0); unfold bind, ret; by rewrite Hrun.
Qed.

(** C4: a weak pointer whose only owner was reset is expired, with strong
    count 0.  [Lock] on it returns a pointer that has the block attached
    (its boolean conversion is [true]) and has raised the strong count to 1,
    after which the weak pointer no longer reports expiration. *)
Theorem Lock_on_expired_attaches_block_and_counts :
  let wk := {| wp_obj_ := Some (ObjAt 7); wp_block_ := Some 0%nat |} in
  let locked := {| sp_obj_ := None; sp_block_ := Some 0%nat |} in
  wps expired_world !! 0%nat = Some wk ∧
  WeakPtr_Expired wk (mem expired_world) = Ok true (mem expired_world) ∧
  strong_count 0 (mem expired_world) = 0 ∧
  ∃ w', step (OLock 0) expired_world = Next w' ∧
        sps w' !! 1%nat = Some locked ∧
        SharedPtr_bool locked = true ∧
        SharedPtr_UseCount locked (mem w') = Ok 1 (mem w') ∧
        strong_count 0 (mem w') = 1 ∧
        WeakPtr_Expired wk (mem w') = Ok false (mem w').
Proof.
  simpl. split; [reflexivity|]. split; [reflexivity|]. split; [reflexivity|].
  eexists. split; [reflexivity|]. repeat split.
Qed.

Lemma quiet_ret {A} (a : A) : quiet (ret a).
Proof. done. Qed.

Lemma quiet_bind {A B} (c : M A) (k : A → M B) :
  quiet c → (∀ a, quiet (k a)) → quiet (bind c k).
Proof.
  intros Hc Hk m e m'. unfold bind. destruct (c m) as [a m1|e1 m1|] eqn:E; [|by destruct (Hc m e1 m1)|done].
  apply Hk.
Qed.

Lemma quiet_get_block b : quiet (get_block b).
Proof. intros m e m'. unfold get_block. by destruct (heap m !! b). Qed.

Lemma quiet_put_block b cb : quiet (put_block b cb).
Proof. done. Qed.

Lemma quiet_emit ev : quiet (emit ev).
Proof. done. Qed.

Lemma quiet_free_block b : quiet (free_block b).
Proof. intros m e m'. unfold free_block. by destruct (heap m !! b). Qed.

Lemma quiet_alloc_block d : quiet (alloc_block d).
Proof. done. Qed.

Create HintDb quiet.
#[local] Hint Resolve quiet_ret quiet_get_block quiet_put_block quiet_emit
  quiet_free_block quiet_alloc_block : quiet.

Ltac quiet_tac :=
  repeat first
    [ apply quiet_bind; [|intros]
    | solve [auto with quiet]
    | match goal with
      | |- quiet (match ?x with _ => _ end) => destruct x
      | |- quiet (if ?x then _ else _) => destruct x
      end ].

Lemma quiet_IncrementShared b : quiet (IncrementShared b).
Proof. unfold IncrementShared. quiet_tac. Qed.
Lemma quiet_IncrementWeak b : quiet (IncrementWeak b).
Proof. unfold IncrementWeak. quiet_tac. Qed.
Lemma quiet_DecrementWeak b : quiet (DecrementWeak b).
Proof. unfold DecrementWeak. quiet_tac. Qed.
Lemma quiet_DeleteData b : quiet (DeleteData b).
Proof. unfold DeleteData. quiet_tac. Qed.
#[local] Hint Resolve quiet_IncrementShared quiet_IncrementWeak quiet_DecrementWeak
  quiet_DeleteData : quiet.
Lemma quiet_DecrementShared b : quiet (DecrementShared b).
Proof. unfold DecrementShared. quiet_tac. Qed.
Lemma quiet_GetSharedCount b : quiet (GetSharedCount b).
Proof. unfold GetSharedCount. quiet_tac. Qed.
Lemma quiet_CanBlockBeDeleted b : quiet (CanBlockBeDeleted b).
Proof. unfold CanBlockBeDeleted. quiet_tac. Qed.
Lemma quiet_delete_block b : quiet (delete_block b).
Proof. unfold delete_block. quiet_tac. Qed.
Lemma quiet_new_PtrControlBlock p : quiet (new_PtrControlBlock p).
Proof. unfold new_PtrControlBlock. quiet_tac. Qed.
#[local] Hint Resolve quiet_DecrementShared quiet_GetSharedCount quiet_CanBlockBeDeleted
  quiet_delete_block quiet_new_PtrControlBlock : quiet.
Lemma quiet_SharedPtr_Reset p : quiet (SharedPtr_Reset p).
Proof. unfold SharedPtr_Reset. quiet_tac. Qed.
Lemma quiet_WeakPtr_Reset p : quiet (WeakPtr_Reset p).
Proof. unfold WeakPtr_Reset. quiet_tac. Qed.
Lemma quiet_WeakPtr_Expired p : quiet (WeakPtr_Expired p).
Proof. unfold WeakPtr_Expired. quiet_tac. Qed.
#[local] Hint Resolve quiet_SharedPtr_Reset quiet_WeakPtr_Reset quiet_WeakPtr_Expired : quiet.

Lemma quiet_WeakPtr_Lock other : quiet (WeakPtr_Lock other).
Proof. unfold WeakPtr_Lock, SharedPtr_from_weak. simpl. quiet_tac. Qed.

Lemma exec_Raised {A} (c : M A) k w e w' :
  exec c k w = Raised e w' →
  ∃ m', c (mem w) = Throw e m' ∧ w' = {| mem := m'; sps := sps w; wps := wps w |}.
Proof.
  unfold exec. destruct (c (mem w)) as [a m1|e1 m1|]; try done.
  intros [= -> <-]. by exists m1.
Qed.

Lemma exec_quiet {A} (c : M A) k w e w' : quiet c → exec c k w ≠ Raised e w'.
Proof. intros Hq H. apply exec_Raised in H as (m' & H & _). by apply Hq in H. Qed.

Lemma SharedPtr_from_weak_throws other from_lock m e m' :
  SharedPtr_from_weak other from_lock m = Throw e m' →
  from_lock = false ∧ e = BadWeakPtr ∧ m' = m ∧
  ∃ b cb, wp_block_ other = Some b ∧ heap m !! b = Some cb ∧ shared_counter_ cb = 0.
Proof.
  unfold SharedPtr_from_weak. simpl.
  destruct (wp_block_ other) as [b|] eqn:Hblk; [|done].
  destruct (heap m !! b) as [cb|] eqn:Hb.
  - unfold bind at 1. rewrite (WeakPtr_Expired_spec other b cb) by done.
    destruct (shared_counter_ cb =? 0) eqn:Hz.
    + destruct from_lock.
      * intros H. exfalso. revert H. apply quiet_bind; [apply quiet_ret|]. intros. quiet_tac.
      * unfold bind, throw. intros [= <- <-]. apply Z.eqb_eq in Hz. eauto 10.
    + intros H. exfalso. revert H. apply quiet_bind; [apply quiet_ret|]. intros. quiet_tac.
  - unfold bind at 1, WeakPtr_Expired, GetSharedCount. rewrite Hblk.
    unfold bind, get_block. by rewrite Hb.
Qed.

Lemma SharedPtr_from_weak_expired other b cb m :
  wp_block_ other = Some b → heap m !! b = Some cb → shared_counter_ cb = 0 →
  SharedPtr_from_weak other false m = Throw BadWeakPtr m.
Proof.
  intros Hblk Hb Hz. unfold SharedPtr_from_weak. simpl. rewrite Hblk.
  unfold bind at 1. rewrite (WeakPtr_Expired_spec other b cb) by done.
  by rewrite Hz.
Qed.

(** C5: a weak pointer with no block attached is expired and reports use
    count 0, yet its strict promotion does not fail: the constructor
    returns a shared pointer without block and the program goes on with
    it. *)
Theorem strict_promotion_of_blockless_weak_ptr_succeeds
    (other : WeakPtr) (m : Mem) (w : World) (wsrc : nat) :
  wp_block_ other = None →
  wps w !! wsrc = Some other →
  let promoted := {| sp_obj_ := wp_obj_ other; sp_block_ := None |} in
  WeakPtr_Expired other m = Ok true m ∧
  WeakPtr_UseCount other m = Ok 0 m ∧
  SharedPtr_from_weak other false m = Ok promoted m ∧
  SharedPtr_bool promoted = false ∧
  step (OPromote wsrc) w
  = Next {| mem := mem w; sps := sps w ++ [promoted]; wps := wps w |}.
Proof.
  intros Hblk Hw promoted.
  assert (SharedPtr_from_weak other false m = Ok promoted m) as Hprom.
  { intros. unfold SharedPtr_from_weak. simpl. by rewrite Hblk. }
  split; [unfold WeakPtr_Expired; by rewrite Hblk|].
  split; [unfold WeakPtr_UseCount; by rewrite Hblk|].
  split; [done|]. split; [done|].
  simpl. rewrite Hw. unfold exec, SharedPtr_from_weak. simpl. by rewrite Hblk.
Qed.

Lemma strict_promotion_of_blockless_weak_ptr_succeeds_witness :
  WeakPtr_Expired WeakPtr_default empty_mem = Ok true empty_mem ∧
  SharedPtr_from_weak WeakPtr_default false empty_mem = Ok SharedPtr_default empty_mem ∧
  step (OPromote 0) {| mem := empty_mem; sps := []; wps := [WeakPtr_default] |}
  = Next {| mem := empty_mem; sps := [SharedPtr_default]; wps := [WeakPtr_default] |}.
Proof.
  destruct (strict_promotion_of_blockless_weak_ptr_succeeds WeakPtr_default empty_mem
              {| mem := empty_mem; sps := []; wps := [WeakPtr_default] |} 0%nat
              eq_refl eq_refl) as (H1 & _ & H3 & _ & H5).
  split; [exact H1|]. split; [exact H3|exact H5].
Defined.

Lemma step_Raised_cases op w e w' :
  step op w = Raised e w' →
  (∃ wsrc, op = OPromote wsrc ∧ e = BadWeakPtr) ∨
  (∃ code, op = OMakeShared (Some code) ∧ e = PayloadFailure code).
Proof.
  destruct op; simpl;
    repeat match goal with
           | |- context [match ?l !! ?i with _ => _ end] => destruct (l !! i); [|done]
           end;
    try done;
    try (intros H; exfalso; revert H; apply exec_quiet;
         unfold SharedPtr_from_raw, SharedPtr_copy, SharedPtr_alias, SharedPtr_assign,
           SharedPtr_move_assign, SharedPtr_Reset_ptr, WeakPtr_copy, WeakPtr_from_shared,
           WeakPtr_assign, WeakPtr_move_assign; simpl;
         first [apply quiet_WeakPtr_Lock | solve [quiet_tac]]).
  - intros H. apply exec_Raised in H as (m' & H & _). right.
    pose proof (MakeShared_spec fail (mem w)) as Hs.
    destruct fail as [code|]; simpl in Hs; destruct Hs as (m1 & Hrun & _);
      rewrite Hrun in H; [|done].
    injection H as <- _. eauto.
  - intros H. apply exec_Raised in H as (m' & H & _).
    apply SharedPtr_from_weak_throws in H as (_ & -> & _). left. eauto.
Qed.

(** X26: the promoting constructor called without [from_lock] throws
    [BadWeakPtr] exactly when the weak pointer has a block attached whose
    strong count is 0, and it does so before touching the store; [Lock]
    never throws; and among the operations of a program [BadWeakPtr]
    reaches the caller from strict promotion and from nothing else, leaving
    the store and the pointer objects as they were. *)
Theorem expired_reference_failure_only_from_strict_promotion
    (other : WeakPtr) (m : Mem) op w e w' :
  step op w = Raised e w' →
  ((∃ m', SharedPtr_from_weak other false m = Throw BadWeakPtr m') ↔
   (∃ b cb, wp_block_ other = Some b ∧ heap m !! b = Some cb ∧ shared_counter_ cb = 0)) ∧
  (∀ e' m', SharedPtr_from_weak other false m = Throw e' m' → e' = BadWeakPtr ∧ m' = m) ∧
  (∀ e' m', WeakPtr_Lock other m ≠ Throw e' m') ∧
  (e = BadWeakPtr ↔ ∃ wsrc, op = OPromote wsrc) ∧
  (e = BadWeakPtr →
   mem w' = mem w ∧ sps w' = sps w ∧ wps w' = wps w ∧
   ∃ wsrc wk b cb, op = OPromote wsrc ∧ wps w !! wsrc = Some wk ∧
                   wp_block_ wk = Some b ∧ heap (mem w) !! b = Some cb ∧
                   shared_counter_ cb = 0).
Proof.
  intros Hstep. split; [|split; [|split; [|split]]].
  - split.
    + intros (m' & H). by apply SharedPtr_from_weak_throws in H as (_ & _ & _ & ?).
    + intros (b & cb & Hblk & Hb & Hz). exists m. by eapply SharedPtr_from_weak_expired.
  - intros e' m' H. by apply SharedPtr_from_weak_throws in H as (_ & ? & ? & _).
  - intros e' m'. apply quiet_WeakPtr_Lock.
  - destruct (step_Raised_cases _ _ _ _ Hstep) as [(wsrc & -> & ->)|(code & -> & ->)].
    + split; eauto.
    + split; [done|]. by intros (? & ?).
  - intros ->.
    destruct (step_Raised_cases _ _ _ _ Hstep) as [(wsrc & -> & _)|(code & _ & ?)]; [|done].
    simpl in Hstep. destruct (wps w !! wsrc) as [wk|] eqn:Hwk; [|done].
    apply exec_Raised in Hstep as (m' & H & ->).
    apply SharedPtr_from_weak_throws in H as (_ & _ & -> & b & cb & ? & ? & ?).
    simpl. repeat split. exists wsrc, wk, b, cb. done.
Qed.

Lemma expired_reference_failure_only_from_strict_promotion_witness :
  step (OPromote 0) expired_world = Raised BadWeakPtr expired_world ∧
  (BadWeakPtr = BadWeakPtr ↔ ∃ wsrc, OPromote 0 = OPromote wsrc).
Proof.
  split; [reflexivity|].
  apply (expired_reference_failure_only_from_strict_promotion
           WeakPtr_default empty_mem (OPromote 0) expired_world BadWeakPtr expired_world).
  reflexivity.
Defined.

(** ** The exclusive-ownership pointer *)

Lemma CompressedPair_make_default (Deleter : Type) (dflt : Deleter) second_empty ptr :
  Unique.CompressedPair_make Deleter dflt second_empty ptr dflt
  = {| Unique.first_ := ptr; Unique.second_ := dflt |}.
Proof. unfold Unique.CompressedPair_make, Unique.CaseSwitch. by destruct second_empty. Qed.

(** C10: [Reset(p)] invokes the deleter that was stored before the call on
    the handle that was held (once, and only if the handle is not null),
    stores [p], and leaves a default-constructed deleter in the pointer; so
    do the destructor and move assignment, whose destination ends up with
    the source's handle and deleter while the source is left with a null
    handle and a default-constructed deleter. *)
Theorem Reset_replaces_deleter_by_default
    (Deleter : Type) (dflt : Deleter) (second_empty : bool)
    (this other : Unique.UniquePtr Deleter) (p : option obj_addr)
    (log : list (Unique.call Deleter)) :
  let invoked := match Unique.Get this with
                 | Some h => [Unique.Invoke (Unique.GetDeleter this) h]
                 | None => []
                 end in
  let r := Unique.Reset Deleter dflt second_empty this p log in
  let d := Unique.destroy Deleter dflt second_empty this log in
  let a := Unique.move_assign Deleter dflt second_empty false this other log in
  (Unique.GetDeleter r.1 = dflt ∧ Unique.Get r.1 = p ∧ r.2 = log ++ invoked) ∧
  (Unique.GetDeleter d.1 = dflt ∧ Unique.Get d.1 = None ∧ d.2 = log ++ invoked) ∧
  (Unique.GetDeleter a.1.1 = Unique.GetDeleter other ∧ Unique.Get a.1.1 = Unique.Get other ∧
   Unique.GetDeleter a.1.2 = dflt ∧ Unique.Get a.1.2 = None ∧ a.2 = log ++ invoked).
Proof.
  destruct this as [[h d0]], other as [[h' d']].
  unfold Unique.destroy, Unique.move_assign, Unique.Reset, Unique.Get, Unique.GetDeleter,
    Unique.GetFirst, Unique.GetSecond.
  rewrite !CompressedPair_make_default. simpl.
  destruct h as [h|]; simpl; rewrite ?app_nil_r; done.
Qed.

(** ** Moving *)


Lemma SharedPtr_eta p : {| sp_obj_ := sp_obj_ p; sp_block_ := sp_block_ p |} = p.
Proof. by destruct p. Qed.

Lemma step_OMoveAssign_next w dst src this other :
  Inv (abs w) → sps w !! dst = Some this → sps w !! src = Some other → dst ≠ src →
  ∃ m', step (OMoveAssign dst src) w
        = Next {| mem := m';
                  sps := <[dst := other]> (<[src := SharedPtr_default]> (sps w));
                  wps := wps w |}.
Proof.
  intros HI Hdst Hsrc Hne. simpl. rewrite Hdst, Hsrc.
  rewrite bool_decide_eq_false_2 by done.
  unfold exec, SharedPtr_move_assign.
  destruct (exec_Reset w dst this HI Hdst) as (m1 & Hrun & _).
  unfold bind at 1. rewrite Hrun. simpl. rewrite SharedPtr_eta. by exists m1.
Qed.



(** ** Allocation and release over whole programs *)

Lemma allocated_app b l1 l2 :
  allocated b (l1 ++ l2) = (allocated b l1 + allocated b l2)%nat.
Proof. apply count_app. Qed.

Lemma allocated_destroy_events b b0 d : allocated b (destroy_events b0 d) = 0%nat.
Proof. by destruct d as [[p|]|[|]]. Qed.

Lemma AllocInv_phase1 a a' : AllocInv (am a) → phase1 a a' → AllocInv (am a').
Proof.
  intros HA [Hm _ _ | b cb Hb [[Hnext _] Hpost] _ _ | b cb Hb [[Hnext _] Hpost] _ _];
    intros b'.
  - rewrite Hm. apply HA.
  - rewrite Hnext. simpl in Hpost. destruct (_ =? 0); destruct Hpost as [-> _]; [|apply HA].
    rewrite !allocated_app, allocated_destroy_events, HA.
    destruct (weak_counter_ cb =? 0); unfold allocated; simpl; case_decide; lia.
  - rewrite Hnext. simpl in Hpost. destruct (_ && _); destruct Hpost as [-> _]; [|apply HA].
    rewrite !allocated_app, allocated_destroy_events, HA.
    unfold allocated; simpl; case_decide; lia.
Qed.

Lemma AllocInv_phase2 lock a a' : AllocInv (am a) → phase2 lock a a' → AllocInv (am a').
Proof.
  intros HA [Hm _ _ | b cb _ _ [Hnext _] Hlog _ _ _ _
            | b cb _ [Hnext _] Hlog _ _ _ _
            | d evs b Hnext _ Hlog Hevs _ _ _
            | b Hnext _ Hlog _ _ _]; intros b'.
  - rewrite Hm. apply HA.
  - rewrite Hnext, Hlog. apply HA.
  - rewrite Hnext, Hlog. apply HA.
  - rewrite Hnext, Hlog, allocated_app, HA. fold b.
    destruct Hevs as [-> | ->]; unfold allocated; simpl;
      repeat case_bool_decide; repeat case_decide; lia.
  - rewrite Hnext, Hlog, allocated_app, HA. fold b.
    unfold allocated; simpl; repeat case_bool_decide; repeat case_decide; lia.
Qed.

Lemma step_AllocInv op w w' :
  Inv (abs w) → room w → AllocInv (mem w) → after (step op w) = Some w' → AllocInv (mem w').
Proof.
  intros HI Hroom HA Hstep. pose proof (step_summary op w HI Hroom) as Hsum.
  destruct (step op w); simpl in *; try done; injection Hstep as ->;
    destruct Hsum as (a1 & H1 & H2 & _);
    (eapply (AllocInv_phase2 _ a1 (abs w')); [|done]);
    by apply (AllocInv_phase1 (abs w)).
Qed.

Lemma run_AllocInv ops w w' :
  Inv (abs w) → fits (length ops) w → AllocInv (mem w) → run ops w = Next w' →
  AllocInv (mem w').
Proof.
  revert w. induction ops as [|op ops IH]; intros w HI Hfits HA.
  - simpl. by intros [= <-].
  - rewrite run_cons. destruct (after (step op w)) as [w1|] eqn:Hstep.
    + intros Hrun. apply (IH w1); [| | |done].
      * eapply step_Inv; eauto using fits_room.
      * destruct (step_length _ _ _ Hstep). unfold fits in *. simpl in *. lia.
      * eapply step_AllocInv; eauto using fits_room.
    + destruct (step op w); done.
Qed.

Lemma fits_init (ops : list Op) : Z.of_nat (length ops) + 1 < SIZE_MOD → fits (length ops) init.
Proof. unfold fits. simpl. lia. Qed.

Lemma nrefs_all_None b l : (∀ x, x ∈ l → x = None) → nrefs b l = 0%nat.
Proof.
  induction l as [|x l IH]; intros H; [done|]. simpl.
  rewrite (H x) by by left. rewrite decide_False by done.
  rewrite IH; [done|]. intros y Hy. apply H. by right.
Qed.

(** Payloads without pointer members: at every point of a program each
    block identity was allocated at most once, and allocated as often as it
    was freed unless it is still in the store.  Once every shared and weak
    pointer object is empty the store is empty: every block allocated was
    freed exactly once, and every payload a block was created with was
    destroyed exactly once. *)
Lemma inert_run_conserves_blocks ops w :
  run ops init = Next w →
  Z.of_nat (length ops) + 1 < SIZE_MOD →
  (∀ b, (allocated b (log (mem w)) ≤ 1)%nat ∧
        allocated b (log (mem w)) = (freed b (log (mem w)) + live b (mem w))%nat) ∧
  ((∀ p, p ∈ sps w → sp_block_ p = None) →
   (∀ p, p ∈ wps w → wp_block_ p = None) →
   heap (mem w) = ∅ ∧
   ∀ b, freed b (log (mem w)) = allocated b (log (mem w)) ∧
        destroyed b (log (mem w)) = (if born b (log (mem w)) then 1 else 0)%nat).
Proof.
  intros Hrun Hlen.
  destruct (run_Inv ops init w Inv_init (fits_init ops Hlen) Hrun) as [HI _].
  assert (AllocInv (mem w)) as HA.
  { apply (run_AllocInv ops init w Inv_init (fits_init ops Hlen)); [|done].
    intros b. change (0%nat = if decide (b < 0)%nat then 1%nat else 0%nat).
    case_decide; [lia|done]. }
  assert (∀ b, (allocated b (log (mem w)) ≤ 1)%nat ∧
     allocated b (log (mem w)) = (freed b (log (mem w)) + live b (mem w))%nat) as Hcons.
  { intros b. rewrite HA. unfold live. split; [case_decide; lia|].
    destruct (heap (mem w) !! b) as [cb|] eqn:E.
    - destruct (inv_live _ HI b cb E) as (_ & _ & _ & Hlt & Hfr & _). simpl in Hlt, Hfr.
      rewrite Hfr. by rewrite decide_True.
    - destruct (inv_dead _ HI b E) as (_ & _ & Hfr & _). simpl in Hfr. rewrite Hfr. lia. }
  split; [done|]. intros HS HW.
  assert (heap (mem w) = ∅) as Hempty.
  { apply map_eq. intros b. rewrite lookup_empty.
    destruct (heap (mem w) !! b) as [cb|] eqn:E; [|done].
    destruct (inv_live _ HI b cb E) as (_ & _ & Hpos & _). simpl in Hpos.
    unfold srefs, wrefs in Hpos. rewrite !nrefs_all_None in Hpos; [lia| |].
    - intros x [p [-> Hp]]%list_elem_of_fmap. by apply HW.
    - intros x [p [-> Hp]]%list_elem_of_fmap. by apply HS. }
  split; [done|]. intros b.
  assert (heap (mem w) !! b = None) as E by by rewrite Hempty, lookup_empty.
  destruct (Hcons b) as [_ ->]. unfold live. rewrite E. split; [lia|].
  by destruct (inv_dead _ HI b E) as (_ & _ & _ & Hd & _).
Qed.

(** ** What a weak pointer observes *)

(** X3: in every reachable world a weak pointer reports as its use count the
    number of shared pointers attached to its block (0 when it has no
    block), and reports expiration exactly when that number is 0. *)
Theorem weak_observers_count_the_owners ops w i wk :
  run ops init = Next w →
  Z.of_nat (length ops) + 1 < SIZE_MOD →
  wps w !! i = Some wk →
  let n := match wp_block_ wk with
           | Some b => Z.of_nat (srefs b (sps w))
           | None => 0
           end in
  WeakPtr_UseCount wk (mem w) = Ok n (mem w) ∧
  WeakPtr_Expired wk (mem w) = Ok (n =? 0) (mem w).
Proof.
  intros Hrun Hlen Hi n.
  destruct (reachable_Inv w) as [HI Hroom]; [by exists ops|].
  unfold WeakPtr_UseCount, WeakPtr_Expired, GetSharedCount, n.
  destruct (wp_block_ wk) as [b|] eqn:Hblk; [|done].
  destruct (Inv_attached w b HI) as [cb Hb].
  { pose proof (wrefs_lookup b _ _ _ Hi Hblk). lia. }
  destruct (inv_live _ HI b cb Hb) as (Hc & _). simpl in Hc.
  mstep. by rewrite Hc.
Qed.

Lemma weak_observers_count_the_owners_witness :
  WeakPtr_Expired {| wp_obj_ := Some (ObjAt 7); wp_block_ := Some 0%nat |} (mem expired_world)
    = Ok true (mem expired_world).
Proof.
  apply (weak_observers_count_the_owners
           [ONew (Some (ObjAt 7)); WFromShared 0; OReset 0]%nat expired_world 0%nat
           {| wp_obj_ := Some (ObjAt 7); wp_block_ := Some 0%nat |});
    reflexivity.
Defined.

(** X4: in every reachable world, promoting a weak pointer whose block still has
    a shared pointer attached succeeds in both modes (strict and [Lock]):
    the result has the weak pointer's handle and block, the strong count
    goes up by one, nothing is logged and no other block is touched.  A
    weak pointer without a block is promoted to a pointer without a block
    and the store is left as it is. *)
Theorem promotion_of_live_weak_ptr_shares_ownership ops w i wk from_lock :
  run ops init = Next w →
  Z.of_nat (length ops) + 1 < SIZE_MOD →
  wps w !! i = Some wk →
  match wp_block_ wk with
  | Some b =>
      (0 < srefs b (sps w))%nat →
      ∃ m', SharedPtr_from_weak wk from_lock (mem w)
              = Ok {| sp_obj_ := wp_obj_ wk; sp_block_ := Some b |} m' ∧
            strong_count b m' = Z.of_nat (srefs b (sps w)) + 1 ∧
            log m' = log (mem w) ∧ same_but b (mem w) m'
  | None =>
      SharedPtr_from_weak wk from_lock (mem w)
        = Ok {| sp_obj_ := wp_obj_ wk; sp_block_ := None |} (mem w)
  end.
Proof.
  intros Hrun Hlen Hi.
  destruct (reachable_Inv w) as [HI Hroom]; [by exists ops|].
  unfold SharedPtr_from_weak. simpl.
  destruct (wp_block_ wk) as [b|] eqn:Hblk; [|done].
  intros Hpos.
  destruct (Inv_attached w b HI) as [cb Hb]; [lia|].
  destruct (inv_live _ HI b cb Hb) as (Hc & _). simpl in Hc.
  destruct (inv_bound _ HI b) as [Hbound _]. simpl in Hbound.
  destruct Hroom as [Hroom _]. pose proof (srefs_le_length b (sps w)).
  unfold bind at 1. rewrite (WeakPtr_Expired_spec wk b cb) by done.
  destruct (IncrementShared_spec b cb (mem w) Hb) as (m' & Hinc & Hsame & Hlog & Hheap).
  exists m'.
  assert ((shared_counter_ cb =? 0) = false) as -> by lia.
  unfold bind, ret. rewrite Hinc. split; [done|]. split; [|done].
  unfold strong_count. rewrite Hheap. simpl. rewrite size_incr_small; lia.
Qed.

Lemma promotion_of_live_weak_ptr_shares_ownership_witness :
  ∃ m', SharedPtr_from_weak {| wp_obj_ := Some (ObjAt 7); wp_block_ := Some 0%nat |} false
          (mem (world_of (run [ONew (Some (ObjAt 7)); WFromShared 0]%nat init)))
        = Ok {| sp_obj_ := Some (ObjAt 7); sp_block_ := Some 0%nat |} m' ∧
        strong_count 0 m' = 2.
Proof.
  destruct (promotion_of_live_weak_ptr_shares_ownership
              [ONew (Some (ObjAt 7)); WFromShared 0]%nat
              (world_of (run [ONew (Some (ObjAt 7)); WFromShared 0]%nat init)) 0%nat
              {| wp_obj_ := Some (ObjAt 7); wp_block_ := Some 0%nat |} false
              eq_refl eq_refl eq_refl) as (m' & H1 & H2 & _).
  - vm_compute. lia.
  - exists m'. split; [exact H1|exact H2].
Defined.

(** ** Assigning a pointer to itself *)

Lemma World_eta w : {| mem := mem w; sps := sps w; wps := wps w |} = w.
Proof. by destruct w. Qed.

(** X5: copy assignment of a shared or weak pointer to itself and move
    assignment of a shared pointer to itself change nothing.  Move
    assignment of a weak pointer has no self test: in every reachable world
    [w = std::move(w)] releases the reference [w] held and leaves [w]
    empty, lowering the number of weak pointers attached to its block by
    one. *)
Theorem self_assignment_is_guarded_except_weak_move ops w :
  run ops init = Next w →
  Z.of_nat (length ops) + 1 < SIZE_MOD →
  (∀ i, is_Some (sps w !! i) →
        step (OAssign i i) w = Next w ∧ step (OMoveAssign i i) w = Next w) ∧
  (∀ i wk, wps w !! i = Some wk →
        step (WAssign i i) w = Next w ∧
        ∃ w', step (WMoveAssign i i) w = Next w' ∧
              sps w' = sps w ∧
              wps w' = <[i := WeakPtr_default]> (wps w) ∧
              ∀ b, wp_block_ wk = Some b →
                   (wrefs b (wps w') + 1 = wrefs b (wps w))%nat).
Proof.
  intros Hrun Hlen.
  destruct (reachable_Inv w) as [HI Hroom]; [by exists ops|].
  split.
  - intros i [p Hi]. simpl. rewrite Hi, bool_decide_eq_true_2 by done.
    unfold exec. simpl. rewrite !(list_insert_id _ _ _ Hi). by rewrite World_eta.
  - intros i wk Hi. split.
    + simpl. rewrite Hi, bool_decide_eq_true_2 by done.
      unfold exec. simpl. by rewrite (list_insert_id _ _ _ Hi), World_eta.
    + destruct (exec_WReset w i wk HI Hi) as (m1 & Hreset & _).
      eexists. split.
      { simpl. rewrite Hi, bool_decide_eq_true_2 by done.
        unfold exec, WeakPtr_move_assign, bind. rewrite Hreset. simpl. done. }
      simpl. split; [done|]. rewrite list_insert_insert_eq. split; [done|].
      intros b Hblk. pose proof (wrefs_insert b _ _ _ WeakPtr_default Hi) as H.
      rewrite Hblk, points_Some, decide_True in H by done. simpl in H.
      rewrite points_None in H. lia.
Qed.

Lemma self_assignment_is_guarded_except_weak_move_witness :
  ∃ w', step (WMoveAssign 0 0) (world_of (run [ONew (Some (ObjAt 7)); WFromShared 0]%nat init))
          = Next w' ∧
        wps w' = [WeakPtr_default].
Proof.
  destruct (self_assignment_is_guarded_except_weak_move
              [ONew (Some (ObjAt 7)); WFromShared 0]%nat
              (world_of (run [ONew (Some (ObjAt 7)); WFromShared 0]%nat init))
              eq_refl eq_refl) as [_ H].
  destruct (H 0%nat {| wp_obj_ := Some (ObjAt 7); wp_block_ := Some 0%nat |} eq_refl)
    as (_ & w' & H1 & _ & H2 & _).
  exists w'. split; [exact H1|exact H2].
Defined.

(** ** The deletion flag of the shared-from-this weak pointer *)

(** X8: a back-reference (built by the "For ESFT" constructor, so with the
    deletion flag cleared) is the only reference to a block whose strong
    count is 0.  A weak pointer copy-constructed from it has the flag set:
    when the back-reference and then the copy are released, the copy frees
    the block.  A weak pointer copy-assigned from it takes over the cleared
    flag: when both are released the block stays allocated with both
    counts 0. *)
Theorem sft_copy_sets_deletion_flag_but_assignment_copies_it m b cb obj :
  heap m !! b = Some cb → shared_counter_ cb = 0 → weak_counter_ cb = 1 →
  let back := {| SFT.obj_ := obj; SFT.block_ := Some b;
                 SFT.can_i_delete_block_ := false |} in
  (∃ c m', (let* c := SFT.copy back in SFT.Reset back ;; SFT.Reset c ;; ret c) m = Ok c m' ∧
           SFT.can_i_delete_block_ c = true ∧
           heap m' !! b = None ∧
           log m' = log m ++ destroy_events b (payload_ cb) ++ [EvFree b]) ∧
  (∃ c m', (let* c := SFT.assign false SFT.default back in
            SFT.Reset back ;; SFT.Reset c ;; ret c) m = Ok c m' ∧
           SFT.can_i_delete_block_ c = false ∧
           heap m' !! b = Some {| shared_counter_ := 0; weak_counter_ := 0;
                                  payload_ := payload_ cb |} ∧
           log m' = log m).
Proof.
  intros Hb Hs Hw back. destruct cb as [s k d]. simpl in *. subst s k.
  split.
  - unfold SFT.copy, SFT.Reset, back, IncrementWeak, DecrementWeak, CanBlockBeDeleted,
      delete_block, DeleteData. simpl. mstep.
    change (size_incr 1) with 2. change (size_decr 2) with 1. change (size_decr 1) with 0.
    simpl. mstep.
    destruct d as [[p|]|[|]]; simpl; mstep; (eexists _, _; split; [done|]; repeat split; mfin).
  - unfold SFT.assign, SFT.default, SFT.Reset, back, IncrementWeak, DecrementWeak,
      CanBlockBeDeleted. simpl. mstep.
    change (size_incr 1) with 2. change (size_decr 2) with 1. change (size_decr 1) with 0.
    simpl. mstep. eexists _, _; split; [done|]; repeat split; mfin.
Qed.

Lemma sft_copy_sets_deletion_flag_but_assignment_copies_it_witness :
  ∃ c m', (let* c := SFT.assign false SFT.default
                       {| SFT.obj_ := None; SFT.block_ := Some 0%nat;
                          SFT.can_i_delete_block_ := false |} in
           SFT.Reset {| SFT.obj_ := None; SFT.block_ := Some 0%nat;
                        SFT.can_i_delete_block_ := false |} ;;
           SFT.Reset c ;; ret c)
            {| heap := {[ 0%nat := {| shared_counter_ := 0; weak_counter_ := 1;
                                      payload_ := PtrData None |} ]};
               next_block := 1; log := [] |} = Ok c m' ∧
          SFT.can_i_delete_block_ c = false ∧
          heap m' !! 0%nat = Some {| shared_counter_ := 0; weak_counter_ := 0;
                                     payload_ := PtrData None |} ∧
          log m' = [].
Proof.
  apply (sft_copy_sets_deletion_flag_but_assignment_copies_it
           {| heap := {[ 0%nat := {| shared_counter_ := 0; weak_counter_ := 1;
                                      payload_ := PtrData None |} ]};
              next_block := 1; log := [] |}
           0%nat {| shared_counter_ := 0; weak_counter_ := 1; payload_ := PtrData None |} None);
    reflexivity.
Defined.

(** ** Construction and release of a single owner *)

(** X6: the boolean conversion of a shared pointer tests for a control block,
    not for a handle.  A pointer constructed from a null handle gets a
    block of its own: it converts to [true] and has use count 1 although
    [Get] is null.  An alias of a pointer without a block has no block: it
    converts to [false] and has use count 0 although [Get] is the given
    address, and making it leaves the store as it is. *)
Theorem boolean_conversion_tests_the_block_not_the_handle m other ptr :
  (∃ p m', SharedPtr_from_raw None m = Ok p m' ∧
           SharedPtr_bool p = true ∧ SharedPtr_Get p = None ∧
           SharedPtr_UseCount p m' = Ok 1 m') ∧
  (sp_block_ other = None →
   ∃ p, SharedPtr_alias other ptr m = Ok p m ∧
        SharedPtr_bool p = false ∧ SharedPtr_Get p = ptr ∧
        SharedPtr_UseCount p m = Ok 0 m).
Proof.
  split.
  - destruct (new_PtrControlBlock_spec None m) as (m' & Hnew & _ & _ & Hheap).
    eexists _, m'. unfold SharedPtr_from_raw, bind, ret. rewrite Hnew. split; [done|].
    repeat split. unfold SharedPtr_UseCount, GetSharedCount. simpl. mstep. done.
  - intros Hblk. unfold SharedPtr_alias. simpl. rewrite Hblk.
    eexists. split; [done|]. repeat split.
Qed.

(** X7: a single owner from construction to release.  Constructing a shared
    pointer from a handle and resetting it allocates one block, passes the
    handle to the destructor once if it is not null, and frees the block;
    [MakeShared] followed by a reset allocates one block, constructs the
    payload in the block's own storage, destroys it there and frees the
    block.  In both cases no other block of the store is touched. *)
Theorem single_owner_round_trip m :
  let b := next_block m in
  (∀ ptr, ∃ p m1 m2,
     SharedPtr_from_raw ptr m = Ok p m1 ∧ SharedPtr_Get p = ptr ∧
     SharedPtr_Reset p m1 = Ok SharedPtr_default m2 ∧
     log m2 = log m ++ [EvAlloc b (PtrData ptr)] ++ destroy_events b (PtrData ptr) ++ [EvFree b] ∧
     heap m2 !! b = None ∧ (∀ b', b' ≠ b → heap m2 !! b' = heap m !! b')) ∧
  (∃ p m1 m2,
     MakeShared (payload_ctor None) m = Ok p m1 ∧ SharedPtr_Get p = Some (StorageOf b) ∧
     SharedPtr_Reset p m1 = Ok SharedPtr_default m2 ∧
     log m2 = log m ++ [EvAlloc b (MakeSharedData false); EvConstruct b;
                        EvDestroy b (StorageOf b); EvFree b] ∧
     heap m2 !! b = None ∧ (∀ b', b' ≠ b → heap m2 !! b' = heap m !! b')).
Proof.
  intros b. split.
  - intros ptr.
    destruct (new_PtrControlBlock_spec ptr m) as (m1 & Hnew & [_ Hframe1] & Hlog1 & Hheap1).
    destruct (SharedPtr_Reset_spec {| sp_obj_ := ptr; sp_block_ := Some b |} b _ m1 eq_refl Hheap1)
      as (m2 & Hreset & [_ Hframe2] & Hpost).
    simpl in Hpost. change (size_decr 1 =? 0) with true in Hpost. simpl in Hpost.
    destruct Hpost as [Hlog2 Hheap2].
    eexists _, m1, m2. unfold SharedPtr_from_raw, bind, ret. rewrite Hnew.
    split; [done|]. split; [done|]. split; [done|].
    split; [by rewrite Hlog2, Hlog1, <- app_assoc|]. split; [done|].
    intros b' Hne. rewrite Hframe2, Hframe1 by done. done.
  - pose proof (MakeShared_spec None m) as (m1 & Hmk & [_ Hframe1] & Hlog1 & Hheap1).
    destruct (SharedPtr_Reset_spec {| sp_obj_ := Some (StorageOf b); sp_block_ := Some b |}
                b _ m1 eq_refl Hheap1) as (m2 & Hreset & [_ Hframe2] & Hpost).
    simpl in Hpost. change (size_decr 1 =? 0) with true in Hpost. simpl in Hpost.
    destruct Hpost as [Hlog2 Hheap2].
    eexists _, m1, m2. split; [done|]. split; [done|]. split; [done|].
    split; [by rewrite Hlog2, Hlog1, <- app_assoc|]. split; [done|].
    intros b' Hne. rewrite Hframe2, Hframe1 by done. done.
Qed.

(** ** The shared-from-this weak pointer away from back-references *)

(** X9: a weak pointer of shared-from-this/weak.h whose deletion flag is set
    behaves as the weak pointer of weak/weak.h with the same handle and
    block: releasing, copying, demoting a shared pointer, copy and move
    assignment and the observers do the same to the store and leave the
    same handle and block.  Default construction, copy construction and
    demotion give a pointer whose flag is set, [Reset] keeps the flag, and
    copy assignment takes the flag of its source; so only pointers that
    stem from a back-reference by assignment, move or swap behave
    differently. *)
Theorem sft_weak_ptr_with_flag_set_behaves_as_weak_ptr
    (self : bool) (this other : SFT.WeakPtr) (sp : SharedPtr) (m : Mem) :
  SFT.can_i_delete_block_ this = true →
  (map_result sft_view (SFT.Reset this m) = WeakPtr_Reset (sft_view this) m ∧
   map_result sft_view (SFT.copy other m) = WeakPtr_copy (sft_view other) m ∧
   map_result sft_view (SFT.from_shared sp m) = WeakPtr_from_shared sp m ∧
   map_result sft_view (SFT.assign self this other m)
     = WeakPtr_assign self (sft_view this) (sft_view other) m ∧
   map_result (prod_map sft_view sft_view) (SFT.move_assign self this other m)
     = WeakPtr_move_assign self (sft_view this) (sft_view other) m ∧
   SFT.Expired this m = WeakPtr_Expired (sft_view this) m ∧
   SFT.UseCount this m = WeakPtr_UseCount (sft_view this) m) ∧
  (SFT.can_i_delete_block_ SFT.default = true ∧
   (∀ r m', SFT.copy other m = Ok r m' → SFT.can_i_delete_block_ r = true) ∧
   (∀ r m', SFT.from_shared sp m = Ok r m' → SFT.can_i_delete_block_ r = true) ∧
   (∀ r m', SFT.Reset this m = Ok r m' → SFT.can_i_delete_block_ r = true) ∧
   (∀ r m', SFT.assign false this other m = Ok r m' →
            SFT.can_i_delete_block_ r = SFT.can_i_delete_block_ other)).
Proof.
  intros Hflag.
  assert (∀ m0, map_result sft_view (SFT.Reset this m0) = WeakPtr_Reset (sft_view this) m0)
    as HReset.
  { intros m0. unfold SFT.Reset, WeakPtr_Reset. simpl. rewrite Hflag.
    destruct (SFT.block_ this) as [b|]; [|done].
    unfold bind. destruct (DecrementWeak b m0) as [[] m1| |]; [|done|done].
    destruct (CanBlockBeDeleted b m1) as [d m2| |]; [|done|done].
    rewrite andb_true_r.
    destruct ((if d then delete_block b else ret ()) m2); done. }
  assert (∀ r m0 m', SFT.Reset this m0 = Ok r m' → SFT.can_i_delete_block_ r = true)
    as HResetFlag.
  { intros r m0 m'. unfold SFT.Reset. destruct (SFT.block_ this) as [b|].
    - unfold bind. destruct (DecrementWeak b m0) as [[] m1| |]; [|done|done].
      destruct (CanBlockBeDeleted b m1) as [d m2| |]; [|done|done].
      destruct ((if d && _ then delete_block b else ret ()) m2); [|done|done].
      by intros [= <- _].
    - by intros [= <- _]. }
  split; [|split; [done|]].
  - split; [apply HReset|]. split.
    { unfold SFT.copy, WeakPtr_copy. simpl.
      destruct (SFT.block_ other) as [b|]; [|done].
      unfold bind. by destruct (IncrementWeak b m). }
    split.
    { unfold SFT.from_shared, WeakPtr_from_shared. simpl.
      destruct (sp_block_ sp) as [b|]; [|done].
      unfold bind. by destruct (IncrementWeak b m). }
    split.
    { unfold SFT.assign, WeakPtr_assign. destruct self; [done|].
      unfold bind at 1 3. rewrite <- HReset.
      destruct (SFT.Reset this m) as [r m1| |]; [|done|done]. simpl.
      destruct (SFT.block_ other) as [b|]; [|done].
      unfold bind. by destruct (IncrementWeak b m1). }
    split.
    { unfold SFT.move_assign, WeakPtr_move_assign.
      unfold bind. rewrite <- HReset.
      destruct (SFT.Reset this m) as [r m1| |]; [|done|done]. simpl.
      by destruct self. }
    done.
  - split.
    { intros r m'. unfold SFT.copy. destruct (SFT.block_ other) as [b|].
      - unfold bind. destruct (IncrementWeak b m); [|done|done]. by intros [= <- _].
      - by intros [= <- _]. }
    split.
    { intros r m'. unfold SFT.from_shared. simpl. destruct (sp_block_ sp) as [b|].
      - unfold bind. destruct (IncrementWeak b m); [|done|done]. by intros [= <- _].
      - by intros [= <- _]. }
    split; [intros r m'; apply (HResetFlag r m m')|].
    intros r m'. unfold SFT.assign. unfold bind at 1.
    destruct (SFT.Reset this m) as [r1 m1| |]; [|done|done]. simpl.
    destruct (SFT.block_ other) as [b|].
    + unfold bind. destruct (IncrementWeak b m1); [|done|done]. by intros [= <- _].
    + by intros [= <- _].
Qed.

Lemma sft_weak_ptr_with_flag_set_behaves_as_weak_ptr_witness :
  map_result sft_view
    (SFT.Reset {| SFT.obj_ := Some (ObjAt 7); SFT.block_ := Some 0%nat;
                  SFT.can_i_delete_block_ := true |} (mem expired_world))
  = WeakPtr_Reset {| wp_obj_ := Some (ObjAt 7); wp_block_ := Some 0%nat |} (mem expired_world).
Proof.
  apply (sft_weak_ptr_with_flag_set_behaves_as_weak_ptr false
           {| SFT.obj_ := Some (ObjAt 7); SFT.block_ := Some 0%nat;
              SFT.can_i_delete_block_ := true |} SFT.default SharedPtr_default
           (mem expired_world)).
  reflexivity.
Defined.

(** ** Programs over exclusive-ownership pointers *)

Section UniquePrograms.

Context {Deleter : Type} (dflt : Deleter) (second_empty : bool).

Lemma held_app (l1 l2 : list (Unique.UniquePtr Deleter)) :
  Unique.held (l1 ++ l2) = Unique.held l1 ++ Unique.held l2.
Proof. apply bind_app. Qed.

Lemma held_singleton (p : Unique.UniquePtr Deleter) : Unique.held [p] = Unique.holding p.
Proof. unfold Unique.held. simpl. apply app_nil_r. Qed.

Lemma held_insert (l : list (Unique.UniquePtr Deleter)) i x y :
  l !! i = Some x →
  Unique.held (<[i := y]> l) ++ Unique.holding x ≡ₚ Unique.held l ++ Unique.holding y.
Proof.
  intros Hi.
  rewrite <- (take_drop_middle l i x Hi) at 2.
  rewrite insert_take_drop by by eapply lookup_lt_Some.
  rewrite !held_app. change (?a :: ?l) with ([a] ++ l).
  rewrite !held_app, !held_singleton. solve_Permutation.
Qed.

Lemma perm_cancel {A} (H H' X Y P Q : list A) :
  H' ++ X ≡ₚ H ++ Y → Y ++ P ≡ₚ X ++ Q → H' ++ P ≡ₚ H ++ Q.
Proof.
  intros H1 H2. apply (Permutation_app_inv_r X).
  trans ((H' ++ X) ++ P); [solve_Permutation|]. rewrite H1.
  trans (H ++ (Y ++ P)); [solve_Permutation|]. rewrite H2. solve_Permutation.
Qed.

Lemma held_insert2 (l : list (Unique.UniquePtr Deleter)) d s x y a b :
  d ≠ s → l !! d = Some x → l !! s = Some y →
  Unique.held (<[d := a]> (<[s := b]> l)) ++ (Unique.holding x ++ Unique.holding y)
  ≡ₚ Unique.held l ++ (Unique.holding a ++ Unique.holding b).
Proof.
  intros Hne Hd Hs.
  assert (<[s := b]> l !! d = Some x) as Hd' by by rewrite list_lookup_insert_ne.
  pose proof (held_insert _ d x a Hd') as H1.
  pose proof (held_insert _ s y b Hs) as H2.
  trans ((Unique.held (<[d := a]> (<[s := b]> l)) ++ Unique.holding x) ++ Unique.holding y);
    [solve_Permutation|].
  rewrite H1.
  trans ((Unique.held (<[s := b]> l) ++ Unique.holding y) ++ Unique.holding a);
    [solve_Permutation|].
  rewrite H2. solve_Permutation.
Qed.

Lemma holding_make ptr :
  Unique.holding {| Unique.data_ := Unique.CompressedPair_make Deleter dflt second_empty ptr dflt |}
  = match ptr with Some h => [Unique.Invoke dflt h] | None => [] end.
Proof. rewrite CompressedPair_make_default. by destruct ptr. Qed.

Lemma Reset_account (this : Unique.UniquePtr Deleter) ptr log :
  let r := Unique.Reset Deleter dflt second_empty this ptr log in
  r.2 = log ++ Unique.holding this ∧
  Unique.holding r.1 = match ptr with Some h => [Unique.Invoke dflt h] | None => [] end.
Proof.
  destruct this as [[h d0]]. unfold Unique.Reset, Unique.holding, Unique.Get, Unique.GetDeleter,
    Unique.GetFirst, Unique.GetSecond.
  rewrite !CompressedPair_make_default. simpl.
  destruct h as [h|]; simpl; rewrite ?app_nil_r; by destruct ptr.
Qed.

(** What one operation does to the account. *)
Lemma ustep_account op w w' :
  Unique.step Deleter dflt second_empty op w = Some w' → Unique.account w' ≡ₚ Unique.account w ++ Unique.supplied Deleter dflt second_empty op.
Proof.
  unfold Unique.account.
  destruct op as [ptr|ptr d|src|dst src|i|i ptr|i|i|i j]; simpl.
  - intros [= <-]. simpl. rewrite held_app, held_singleton. solve_Permutation.
  - intros [= <-]. simpl. rewrite held_app, held_singleton. solve_Permutation.
  - destruct (Unique.ups w !! src) as [other|] eqn:Hsrc; [|done].
    intros [= <-]. simpl. rewrite held_app, held_singleton, app_nil_r.
    rewrite <- ?app_assoc; eapply perm_cancel; [by apply held_insert|].
    unfold Unique.holding, Unique.Get, Unique.GetDeleter, Unique.GetFirst, Unique.GetSecond.
    simpl. rewrite !CompressedPair_make_default. simpl. solve_Permutation.
  - destruct (Unique.ups w !! dst) as [this|] eqn:Hdst; [|done].
    destruct (Unique.ups w !! src) as [other|] eqn:Hsrc; [|done].
    rewrite app_nil_r. case_bool_decide as Heq; simpl.
    + subst src. intros [= <-]. simpl.
      rewrite list_insert_insert_eq, (list_insert_id _ _ _ Hdst). done.
    + pose proof (Reset_account this None (Unique.invoked w)) as [Hlog Hhold].
      destruct (Unique.Reset Deleter dflt second_empty this None (Unique.invoked w))
        as [this1 log1] eqn:HR. simpl in Hlog, Hhold. subst log1.
      intros [= <-]. simpl.
      rewrite <- ?app_assoc; eapply perm_cancel; [by apply held_insert2|].
      destruct this1 as [dt1], other as [dto]. simpl. rewrite Hhold. solve_Permutation.
  - destruct (Unique.ups w !! i) as [this|] eqn:Hi; [|done].
    unfold Unique.assign_nullptr.
    pose proof (Reset_account this None (Unique.invoked w)) as [Hlog Hhold].
    destruct (Unique.Reset Deleter dflt second_empty this None (Unique.invoked w))
      as [this1 log1] eqn:HR. simpl in Hlog, Hhold. subst log1.
    intros [= <-]. simpl. rewrite app_nil_r.
    rewrite <- ?app_assoc; eapply perm_cancel; [by apply held_insert|]. rewrite Hhold. solve_Permutation.
  - destruct (Unique.ups w !! i) as [this|] eqn:Hi; [|done].
    pose proof (Reset_account this ptr (Unique.invoked w)) as [Hlog Hhold].
    destruct (Unique.Reset Deleter dflt second_empty this ptr (Unique.invoked w))
      as [this1 log1] eqn:HR. simpl in Hlog, Hhold. subst log1.
    intros [= <-]. simpl.
    rewrite <- ?app_assoc; eapply perm_cancel; [by apply held_insert|]. rewrite Hhold.
    destruct ptr; solve_Permutation.
  - destruct (Unique.ups w !! i) as [this|] eqn:Hi; [|done].
    unfold Unique.destroy.
    pose proof (Reset_account this None (Unique.invoked w)) as [Hlog Hhold].
    destruct (Unique.Reset Deleter dflt second_empty this None (Unique.invoked w))
      as [this1 log1] eqn:HR. simpl in Hlog, Hhold. subst log1.
    intros [= <-]. simpl. rewrite app_nil_r.
    rewrite <- ?app_assoc; eapply perm_cancel; [by apply held_insert|]. rewrite Hhold. solve_Permutation.
  - destruct (Unique.ups w !! i) as [this|] eqn:Hi; [|done].
    intros [= <-]. simpl. rewrite app_nil_r.
    rewrite <- ?app_assoc; eapply perm_cancel; [by apply held_insert|].
    unfold Unique.holding at 1. simpl. solve_Permutation.
  - destruct (Unique.ups w !! i) as [this|] eqn:Hi; [|done].
    destruct (Unique.ups w !! j) as [other|] eqn:Hj; [|done].
    intros [= <-]. simpl. rewrite app_nil_r.
    destruct (decide (i = j)) as [->|Hne].
    + rewrite list_insert_insert_eq. simplify_eq.
      destruct this as [d0]. simpl. by rewrite (list_insert_id _ _ _ Hi).
    + rewrite <- ?app_assoc; eapply perm_cancel; [by apply held_insert2|].
      destruct this, other. unfold Unique.holding. simpl. solve_Permutation.
Qed.

Lemma urun_account ops w w' :
  Unique.run Deleter dflt second_empty ops w = Some w' → Unique.account w' ≡ₚ Unique.account w ++ (ops ≫= Unique.supplied Deleter dflt second_empty).
Proof.
  revert w. induction ops as [|op ops IH]; intros w; simpl.
  - intros [= <-]. by rewrite app_nil_r.
  - destruct (Unique.step Deleter dflt second_empty op w) as [w1|] eqn:Hstep; [|done].
    intros Hrun. rewrite (IH _ Hrun), (ustep_account _ _ _ Hstep). solve_Permutation.
Qed.

End UniquePrograms.

Lemma handle_held_lookup {Deleter} (l : list (Unique.UniquePtr Deleter)) i p h :
  l !! i = Some p → Unique.Get p = Some h → h ∈ Unique.handle <$> Unique.held l.
Proof.
  intros Hi Hp. rewrite <- (take_drop_middle l i p Hi).
  change (p :: ?l) with ([p] ++ l). rewrite !held_app, held_singleton, !fmap_app.
  apply elem_of_app. right. apply elem_of_app. left.
  unfold Unique.holding. rewrite Hp. simpl. by left.
Qed.

Lemma held_NoDup_unique {Deleter} (l : list (Unique.UniquePtr Deleter)) i j p q h :
  NoDup (Unique.handle <$> Unique.held l) →
  l !! i = Some p → l !! j = Some q →
  Unique.Get p = Some h → Unique.Get q = Some h → i = j.
Proof.
  revert i j. induction l as [|x l IH]; intros i j Hnd Hi Hj Hp Hq; [done|].
  change (x :: l) with ([x] ++ l) in Hnd.
  rewrite held_app, held_singleton, fmap_app in Hnd.
  apply NoDup_app in Hnd as (_ & Hdisj & Hnd).
  destruct i as [|i], j as [|j]; simpl in *; simplify_eq.
  - done.
  - exfalso. apply (Hdisj h).
    + unfold Unique.holding. rewrite Hp. simpl. by left.
    + by eapply handle_held_lookup.
  - exfalso. apply (Hdisj h).
    + unfold Unique.holding. rewrite Hq. simpl. by left.
    + by eapply handle_held_lookup.
  - f_equal. by eapply IH.
Qed.

Lemma held_all_null {Deleter} (l : list (Unique.UniquePtr Deleter)) :
  (∀ p, p ∈ l → Unique.Get p = None) → Unique.held l = [].
Proof.
  induction l as [|x l IH]; intros H; [done|].
  change (x :: l) with ([x] ++ l). rewrite held_app, held_singleton, IH.
  - unfold Unique.holding. rewrite (H x) by by left. done.
  - intros p Hp. apply H. by right.
Qed.





(** X12: resetting a pointer to the handle it already holds passes that handle
    to the stored deleter and goes on holding it: the destructor later
    passes the same handle to a (default-constructed) deleter again. *)
Theorem Reset_to_own_handle_deletes_it_twice
    {Deleter : Type} (dflt : Deleter) (second_empty : bool)
    (this : Unique.UniquePtr Deleter) (h : obj_addr) (log : list (Unique.call Deleter)) :
  Unique.Get this = Some h →
  let r := Unique.Reset Deleter dflt second_empty this (Unique.Get this) log in
  Unique.Get r.1 = Some h ∧
  r.2 = log ++ [Unique.Invoke (Unique.GetDeleter this) h] ∧
  (Unique.destroy Deleter dflt second_empty r.1 r.2).2
    = log ++ [Unique.Invoke (Unique.GetDeleter this) h; Unique.Invoke dflt h].
Proof.
  destruct this as [[h0 d0]]. unfold Unique.destroy, Unique.Reset, Unique.Get,
    Unique.GetDeleter, Unique.GetFirst, Unique.GetSecond. simpl. intros ->.
  rewrite !CompressedPair_make_default. simpl. by rewrite <- app_assoc.
Qed.

Lemma Reset_to_own_handle_deletes_it_twice_witness :
  (Unique.destroy nat 0%nat false
     (Unique.Reset nat 0%nat false (Unique.from_raw_deleter nat 0%nat false (Some (ObjAt 1)) 5%nat)
        (Some (ObjAt 1)) []).1
     (Unique.Reset nat 0%nat false (Unique.from_raw_deleter nat 0%nat false (Some (ObjAt 1)) 5%nat)
        (Some (ObjAt 1)) []).2).2
  = [Unique.Invoke 5%nat (ObjAt 1); Unique.Invoke 0%nat (ObjAt 1)].
Proof.
  apply (Reset_to_own_handle_deletes_it_twice 0%nat false
           (Unique.from_raw_deleter nat 0%nat false (Some (ObjAt 1)) 5%nat) (ObjAt 1) []).
  reflexivity.
Defined.

(** ** Intrusive pointers *)

Lemma deletions_app o l1 l2 : deletions o (l1 ++ l2) = (deletions o l1 + deletions o l2)%nat.
Proof. unfold deletions. by rewrite filter_app, length_app. Qed.

Lemma deletions_singleton o o' : deletions o [o'] = if decide (o' = o) then 1%nat else 0%nat.
Proof.
  unfold deletions. rewrite filter_cons, filter_nil. by destruct (decide (o' = o)).
Qed.

Lemma IInv_ext s H H' : (∀ o, H o = H' o) → IInv s H → IInv s H'.
Proof.
  intros Heq [H1 H2 H3]. split; intros o; rewrite <- ?Heq; auto.
Qed.

Lemma IncRef_spec o c s :
  Intrusive.objs s !! o = Some c →
  Intrusive.IncRef o s
  = Intrusive.Ok tt
      {| Intrusive.objs := <[o := {| Intrusive.count_ := size_incr (Intrusive.count_ c) |}]>
                             (Intrusive.objs s);
         Intrusive.next_obj := Intrusive.next_obj s;
         Intrusive.destroy_log := Intrusive.destroy_log s |}.
Proof.
  intros Ho. unfold Intrusive.IncRef, Intrusive.bind, Intrusive.get_counter,
    Intrusive.put_counter. by rewrite Ho.
Qed.

Lemma DecRef_spec o c s :
  Intrusive.objs s !! o = Some c →
  Intrusive.DecRef o s
  = Intrusive.Ok tt
      (if size_decr (Intrusive.count_ c) =? 0
       then {| Intrusive.objs := delete o (Intrusive.objs s);
               Intrusive.next_obj := Intrusive.next_obj s;
               Intrusive.destroy_log := Intrusive.destroy_log s ++ [o] |}
       else {| Intrusive.objs :=
                 <[o := {| Intrusive.count_ := size_decr (Intrusive.count_ c) |}]>
                   (Intrusive.objs s);
               Intrusive.next_obj := Intrusive.next_obj s;
               Intrusive.destroy_log := Intrusive.destroy_log s |}).
Proof.
  intros Ho. unfold Intrusive.DecRef, Intrusive.bind, Intrusive.get_counter,
    Intrusive.put_counter, Intrusive.Destroy, Intrusive.ret. rewrite Ho. simpl.
  rewrite (lookup_insert_eq (Intrusive.objs s) o). simpl.
  destruct (size_decr (Intrusive.count_ c) =? 0); [|done].
  simpl. rewrite (lookup_insert_eq (Intrusive.objs s) o). by rewrite delete_insert_eq.
Qed.

(** Releasing one reference to [o]. *)
Lemma IInv_release s H o :
  IInv s H → (0 < H o)%nat → Z.of_nat (H o) < SIZE_MOD →
  ∃ s', Intrusive.DecRef o s = Intrusive.Ok tt s' ∧
        IInv s' (λ o', if decide (o' = o) then (H o' - 1)%nat else H o').
Proof.
  intros [H1 H2 H3] Hpos Hbound. pose proof SIZE_MOD_big.
  assert (Intrusive.objs s !! o = Some {| Intrusive.count_ := Z.of_nat (H o) |}) as Ho.
  { rewrite H1. destruct (H o =? 0)%nat eqn:E; [|done]. apply Nat.eqb_eq in E. lia. }
  rewrite (DecRef_spec _ _ _ Ho). eexists. split; [done|]. simpl.
  rewrite size_decr_small by lia.
  assert (o < Intrusive.next_obj s)%nat as Hlt.
  { destruct (decide (o < Intrusive.next_obj s)%nat); [done|]. rewrite H3 in Hpos; lia. }
  destruct (Z.of_nat (H o) - 1 =? 0) eqn:E.
  - assert (H o = 1%nat) as Hone by lia.
    split; simpl.
    + intros o'. destruct (decide (o' = o)) as [->|Hne].
      * rewrite lookup_delete_eq, Hone. done.
      * rewrite lookup_delete_ne by done. apply H1.
    + intros o'. rewrite deletions_app, deletions_singleton, H2.
      destruct (decide (o' = o)) as [->|Hne].
      * rewrite decide_True by done. rewrite Hone. simpl.
        apply Nat.ltb_lt in Hlt. rewrite Hlt. simpl. done.
      * rewrite decide_False by done. lia.
    + intros o' Hle. destruct (decide (o' = o)); [lia|]. by apply H3.
  - split; simpl.
    + intros o'. destruct (decide (o' = o)) as [->|Hne].
      * rewrite lookup_insert_eq.
        destruct (H o - 1 =? 0)%nat eqn:E'; [apply Nat.eqb_eq in E'; lia|].
        do 2 f_equal. lia.
      * rewrite lookup_insert_ne by done. apply H1.
    + intros o'. rewrite H2. destruct (decide (o' = o)) as [->|Hne]; [|done].
      destruct (H o =? 0)%nat eqn:E1; [apply Nat.eqb_eq in E1; lia|].
      destruct (H o - 1 =? 0)%nat eqn:E2; [apply Nat.eqb_eq in E2; lia|]. done.
    + intros o' Hle. destruct (decide (o' = o)); [lia|]. by apply H3.
Qed.

(** Taking one more reference to [o]. *)
Lemma IInv_acquire s H o :
  IInv s H → (0 < H o)%nat → Z.of_nat (H o) + 1 < SIZE_MOD →
  ∃ s', Intrusive.IncRef o s = Intrusive.Ok tt s' ∧
        IInv s' (λ o', if decide (o' = o) then (H o' + 1)%nat else H o').
Proof.
  intros [H1 H2 H3] Hpos Hbound.
  assert (Intrusive.objs s !! o = Some {| Intrusive.count_ := Z.of_nat (H o) |}) as Ho.
  { rewrite H1. destruct (H o =? 0)%nat eqn:E; [|done]. apply Nat.eqb_eq in E. lia. }
  rewrite (IncRef_spec _ _ _ Ho). eexists. split; [done|]. simpl.
  rewrite size_incr_small by lia.
  split; simpl.
  - intros o'. destruct (decide (o' = o)) as [->|Hne].
    + rewrite lookup_insert_eq.
      destruct (H o + 1 =? 0)%nat eqn:E'; [apply Nat.eqb_eq in E'; lia|].
      do 2 f_equal. lia.
    + rewrite lookup_insert_ne by done. apply H1.
  - intros o'. rewrite H2. destruct (decide (o' = o)) as [->|Hne]; [|done].
    destruct (H o =? 0)%nat eqn:E1; [apply Nat.eqb_eq in E1; lia|].
    destruct (H o + 1 =? 0)%nat eqn:E2; [apply Nat.eqb_eq in E2; lia|]. done.
  - intros o' Hle. destruct (decide (o' = o)) as [->|]; [|by apply H3].
    rewrite H3 in Hpos by done. lia.
Qed.

(** [MakeIntrusive] when the constructor succeeds. *)
Lemma IInv_make s H :
  IInv s H →
  ∃ s', Intrusive.MakeIntrusive None s
          = Intrusive.Ok {| Intrusive.obj_ := Some (Intrusive.next_obj s) |} s' ∧
        IInv s' (λ o', if decide (o' = Intrusive.next_obj s) then 1%nat else H o').
Proof.
  intros [H1 H2 H3].
  unfold Intrusive.MakeIntrusive, Intrusive.new_object, Intrusive.from_raw,
    Intrusive.Reset_ptr, Intrusive.Reset, Intrusive.bind, Intrusive.ret. simpl.
  erewrite IncRef_spec by (simpl; apply lookup_insert_eq). simpl.
  eexists. split; [done|]. change (size_incr 0) with 1.
  split; simpl.
  - intros o'. destruct (decide (o' = Intrusive.next_obj s)) as [->|Hne].
    + by rewrite lookup_insert_eq.
    + rewrite !lookup_insert_ne by done. apply H1.
  - intros o'. rewrite H2. destruct (decide (o' = Intrusive.next_obj s)) as [->|Hne].
    + rewrite H3 by done. simpl.
      assert ((Intrusive.next_obj s <? Intrusive.next_obj s)%nat = false) as ->
        by (apply Nat.ltb_ge; lia).
      by rewrite andb_false_r.
    + destruct (H o' =? 0)%nat eqn:E; rewrite ?andb_false_r, ?andb_true_r; [|done].
      destruct (o' <? Intrusive.next_obj s)%nat eqn:E1.
      * apply Nat.ltb_lt in E1.
        assert ((o' <? S (Intrusive.next_obj s))%nat = true) as -> by (apply Nat.ltb_lt; lia).
        done.
      * apply Nat.ltb_ge in E1.
        assert ((o' <? S (Intrusive.next_obj s))%nat = false) as -> by (apply Nat.ltb_ge; lia).
        done.
  - intros o' Hle. destruct (decide (o' = Intrusive.next_obj s)); [lia|]. apply H3. lia.
Qed.

Lemma holders_app o l1 l2 : holders o (l1 ++ l2) = (holders o l1 + holders o l2)%nat.
Proof. unfold holders. by rewrite fmap_app, nrefs_app. Qed.

Lemma holders_insert o l i x y :
  l !! i = Some x →
  (holders o (<[i := y]> l) + points o (Intrusive.obj_ x)
   = holders o l + points o (Intrusive.obj_ y))%nat.
Proof.
  intros Hi. unfold holders. rewrite list_fmap_insert.
  apply nrefs_insert. by rewrite list_lookup_fmap, Hi.
Qed.

Lemma holders_le_length o l : (holders o l ≤ length l)%nat.
Proof. unfold holders. etrans; [apply nrefs_le_length|]. by rewrite length_fmap. Qed.

Lemma holders_lookup o l i p :
  l !! i = Some p → Intrusive.obj_ p = Some o → (0 < holders o l)%nat.
Proof.
  intros Hi Hp. unfold holders. apply (nrefs_lookup _ _ i).
  by rewrite list_lookup_fmap, Hi, <- Hp.
Qed.

Lemma Reset_ptr_unfold p ptr s r s1 :
  Intrusive.Reset p s = Intrusive.Ok r s1 →
  Intrusive.Reset_ptr p ptr s
  = match ptr with
    | Some o =>
        match Intrusive.IncRef o s1 with
        | Intrusive.Ok _ s2 => Intrusive.Ok {| Intrusive.obj_ := ptr |} s2
        | Intrusive.Throw e s2 => Intrusive.Throw e s2
        | Intrusive.UB => Intrusive.UB
        end
    | None => Intrusive.Ok {| Intrusive.obj_ := None |} s1
    end.
Proof.
  intros Hr. unfold Intrusive.Reset_ptr, Intrusive.bind at 1. rewrite Hr.
  by destruct ptr.
Qed.

(** [Reset(ptr)] on the pointer object at [i], where [ptr] is null or held
    by some pointer object. *)
Lemma Reset_ptr_cases s l i p ptr :
  IInv s (λ o, holders o l) → l !! i = Some p →
  (∀ o, Z.of_nat (holders o l) + 1 < SIZE_MOD) →
  (∀ o, ptr = Some o → (0 < holders o l)%nat) →
  if sole_self l p ptr
  then Intrusive.Reset_ptr p ptr s = Intrusive.UB
  else ∃ s', Intrusive.Reset_ptr p ptr s = Intrusive.Ok {| Intrusive.obj_ := ptr |} s' ∧
             IInv s' (λ o, holders o (<[i := {| Intrusive.obj_ := ptr |}]> l)).
Proof.
  intros HI Hi Hlen Hheld.
  assert (∃ s1, Intrusive.Reset p s = Intrusive.Ok Intrusive.default s1 ∧
                IInv s1 (λ o, holders o (<[i := Intrusive.default]> l))) as (s1 & Hreset & HI1).
  { unfold Intrusive.Reset. destruct (Intrusive.obj_ p) as [o1|] eqn:Hp.
    - pose proof (holders_lookup o1 l i p Hi Hp) as Hpos1.
      pose proof (Hlen o1) as Hle1.
      destruct (IInv_release s _ o1 HI Hpos1) as (s1 & Hdec & HI1); [lia|].
      exists s1. unfold Intrusive.bind. rewrite Hdec. split; [done|].
      eapply IInv_ext; [|exact HI1]. intros o. simpl.
      pose proof (holders_insert o l i p Intrusive.default Hi) as H.
      rewrite Hp in H. simpl in H. rewrite points_None, points_Some in H.
      destruct (decide (o = o1)); lia.
    - exists s. split; [by destruct p; simpl in *; subst|].
      eapply IInv_ext; [|exact HI]. intros o. simpl.
      pose proof (holders_insert o l i p Intrusive.default Hi) as H.
      rewrite Hp in H. simpl in H. rewrite !points_None in H. lia. }
  rewrite (Reset_ptr_unfold _ _ _ _ _ Hreset).
  unfold sole_self. destruct ptr as [o|]; [|by exists s1].
  pose proof (holders_insert o l i p Intrusive.default Hi) as Hcount.
  simpl in Hcount. rewrite points_None in Hcount.
  pose proof (Hheld o eq_refl) as Hpos. pose proof (Hlen o) as Hle.
  assert (∀ s2, IInv s2 (λ o', if decide (o' = o)
                               then (holders o' (<[i := Intrusive.default]> l) + 1)%nat
                               else holders o' (<[i := Intrusive.default]> l)) →
                IInv s2 (λ o', holders o' (<[i := {| Intrusive.obj_ := Some o |}]> l))) as Hfin.
  { intros s2. apply IInv_ext. intros o'.
    pose proof (holders_insert o' l i p {| Intrusive.obj_ := Some o |} Hi) as H1.
    pose proof (holders_insert o' l i p Intrusive.default Hi) as H2.
    simpl in H1, H2. rewrite points_Some in H1. rewrite points_None in H2.
    destruct (decide (o' = o)); lia. }
  case_bool_decide as Hsame; simpl.
  - rewrite Hsame, points_Some, decide_True in Hcount by done.
    destruct (holders o l =? 1)%nat eqn:Hone.
    + apply Nat.eqb_eq in Hone.
      unfold Intrusive.IncRef, Intrusive.bind, Intrusive.get_counter.
      rewrite (iinv_objs _ _ HI1 o).
      assert (holders o (<[i := Intrusive.default]> l) = 0)%nat as -> by lia.
      reflexivity.
    + apply Nat.eqb_neq in Hone.
      destruct (IInv_acquire s1 _ o HI1) as (s2 & Hinc & HI2); [lia|lia|].
      exists s2. rewrite Hinc. split; [done|]. by apply Hfin.
  - assert (points o (Intrusive.obj_ p) = 0%nat) as Hz.
    { unfold points. by rewrite decide_False. }
    rewrite Hz in Hcount.
    destruct (IInv_acquire s1 _ o HI1) as (s2 & Hinc & HI2); [lia|lia|].
    exists s2. rewrite Hinc. split; [done|]. by apply Hfin.
Qed.

Lemma Reset_Inv s l i p :
  IInv s (λ o, holders o l) → l !! i = Some p →
  (∀ o, Z.of_nat (holders o l) + 1 < SIZE_MOD) →
  ∃ s1, Intrusive.Reset p s = Intrusive.Ok Intrusive.default s1 ∧
        IInv s1 (λ o, holders o (<[i := Intrusive.default]> l)).
Proof.
  intros HI Hi Hlen.
  pose proof (Reset_ptr_cases s l i p None HI Hi Hlen) as H. simpl in H.
  destruct H as (s1 & Hrun & HI1); [done|].
  unfold Intrusive.Reset_ptr, Intrusive.bind in Hrun.
  destruct (Intrusive.Reset p s) as [r s1'| |] eqn:E; simpl in Hrun; try done.
  injection Hrun as <-. exists s1'. split; [|done]. f_equal.
  unfold Intrusive.Reset in E. destruct (Intrusive.obj_ p) eqn:Hp.
  - unfold Intrusive.bind in E. destruct (Intrusive.DecRef n s); simpl in E; try done.
    by injection E as <- _.
  - injection E as <- _. destruct p; simpl in *; by subst.
Qed.

Lemma holders_two o l i j p q :
  l !! i = Some p → l !! j = Some q → i ≠ j →
  Intrusive.obj_ p = Some o → Intrusive.obj_ q = Some o → (2 ≤ holders o l)%nat.
Proof.
  intros Hi Hj Hne Hp Hq.
  pose proof (holders_insert o l i p Intrusive.default Hi) as H.
  rewrite Hp in H. simpl in H. rewrite points_None, points_Some, decide_True in H by done.
  assert (<[i := Intrusive.default]> l !! j = Some q) as Hj'
    by by rewrite list_lookup_insert_ne.
  pose proof (holders_lookup o _ j q Hj' Hq). lia.
Qed.

Lemma holders_snoc o l p : holders o (l ++ [p]) = (holders o l + points o (Intrusive.obj_ p))%nat.
Proof. rewrite holders_app. unfold holders, points. simpl. lia. Qed.

Lemma iroom_bound w o : iroom w → Z.of_nat (holders o (Intrusive.ptrs w)) + 1 < SIZE_MOD.
Proof. unfold iroom. pose proof (holders_le_length o (Intrusive.ptrs w)). lia. Qed.

Lemma IWorld_eta w : {| Intrusive.store := Intrusive.store w; Intrusive.ptrs := Intrusive.ptrs w |} = w.
Proof. by destruct w. Qed.

Lemma IPtr_eta p : {| Intrusive.obj_ := Intrusive.obj_ p |} = p.
Proof. by destruct p. Qed.

(** Constructing a pointer from the object another pointer holds. *)
Lemma from_raw_Inv w src other :
  IntrusiveInv w → iroom w → Intrusive.ptrs w !! src = Some other →
  ∃ s', Intrusive.from_raw (Intrusive.obj_ other) (Intrusive.store w)
          = Intrusive.Ok {| Intrusive.obj_ := Intrusive.obj_ other |} s' ∧
        IntrusiveInv {| Intrusive.store := s';
                        Intrusive.ptrs := Intrusive.ptrs w
                                          ++ [{| Intrusive.obj_ := Intrusive.obj_ other |}] |}.
Proof.
  intros HI Hroom Hsrc. unfold Intrusive.from_raw.
  pose proof (Reset_ptr_cases (Intrusive.store w) (Intrusive.ptrs w ++ [Intrusive.default])
                (length (Intrusive.ptrs w)) Intrusive.default (Intrusive.obj_ other)) as H.
  assert (sole_self (Intrusive.ptrs w ++ [Intrusive.default]) Intrusive.default
            (Intrusive.obj_ other) = false)
    as Hsole by (unfold sole_self; by destruct (Intrusive.obj_ other)).
  rewrite Hsole in H. destruct H as (s' & Hrun & HI').
  - eapply IInv_ext; [|exact HI]. intros o. simpl. rewrite holders_snoc. simpl.
    rewrite points_None. lia.
  - by rewrite lookup_app_r, Nat.sub_diag by lia.
  - intros o. rewrite holders_snoc. simpl. rewrite points_None, Nat.add_0_r.
    by apply iroom_bound.
  - intros o Ho. rewrite holders_snoc. simpl. rewrite points_None, Nat.add_0_r.
    by eapply holders_lookup.
  - exists s'. split; [done|]. unfold IntrusiveInv. simpl.
    eapply IInv_ext; [|exact HI']. intros o. simpl.
    by rewrite insert_app_r_alt, Nat.sub_diag by lia.
Qed.

(** What one operation does: it keeps the bookkeeping, and it runs into
    undefined behaviour only when a pointer is reset to the object of which
    it is the only holder. *)
Lemma istep_cases op w :
  IntrusiveInv w → iroom w →
  match Intrusive.step op w with
  | Intrusive.Next w' | Intrusive.Raised _ w' =>
      IntrusiveInv w' ∧
      (length (Intrusive.ptrs w') ≤ length (Intrusive.ptrs w) + 1)%nat
  | Intrusive.Stuck => True
  | Intrusive.Undefined =>
      ∃ i p o, op = Intrusive.IResetPtr i i ∧ Intrusive.ptrs w !! i = Some p ∧
               Intrusive.obj_ p = Some o ∧ holders o (Intrusive.ptrs w) = 1%nat
  end.
Proof.
  intros HI Hroom. unfold IntrusiveInv in HI.
  destruct op as [|fail|src|src|src|src|dst src|dst src|i|i src|i j]; simpl.
  - (* IDefault *)
    split; [|rewrite length_app; simpl; lia]. unfold IntrusiveInv. simpl.
    eapply IInv_ext; [|exact HI]. intros o. simpl. rewrite holders_snoc. simpl.
    rewrite points_None. lia.
  - (* IMake *)
    unfold Intrusive.exec. destruct fail as [code|].
    + simpl. split; [|lia]. unfold IntrusiveInv. simpl. done.
    + destruct (IInv_make _ _ HI) as (s' & Hrun & HI'). rewrite Hrun. simpl.
      split; [|rewrite length_app; simpl; lia]. unfold IntrusiveInv. simpl.
      eapply IInv_ext; [|exact HI']. intros o. simpl. rewrite holders_snoc. simpl.
      rewrite points_Some.
      destruct (decide (o = Intrusive.next_obj (Intrusive.store w))) as [->|]; [|lia].
      rewrite (iinv_fresh _ _ HI) by done. done.
  - (* IFromRaw *)
    destruct (Intrusive.ptrs w !! src) as [other|] eqn:Hsrc; [|done].
    destruct (from_raw_Inv w src other HI Hroom Hsrc) as (s' & Hrun & HI').
    unfold Intrusive.exec, Intrusive.Get. rewrite Hrun. simpl.
    split; [done|rewrite length_app; simpl; lia].
  - (* ICopy *)
    destruct (Intrusive.ptrs w !! src) as [other|] eqn:Hsrc; [|done].
    destruct (from_raw_Inv w src other HI Hroom Hsrc) as (s' & Hrun & HI').
    unfold Intrusive.exec, Intrusive.copy. unfold Intrusive.from_raw in Hrun. rewrite Hrun. simpl.
    split; [done|rewrite length_app; simpl; lia].
  - (* IMove *)
    destruct (Intrusive.ptrs w !! src) as [other|] eqn:Hsrc; [|done]. simpl.
    split; [|rewrite length_app, length_insert; simpl; lia]. unfold IntrusiveInv. simpl.
    eapply IInv_ext; [|exact HI]. intros o. simpl. rewrite holders_snoc. simpl.
    pose proof (holders_insert o _ src other {| Intrusive.obj_ := None |} Hsrc) as H.
    simpl in H. rewrite points_None in H. lia.
  - (* IMoveConv *)
    destruct (Intrusive.ptrs w !! src) as [other|] eqn:Hsrc; [|done]. simpl.
    split; [|rewrite length_app, length_insert; simpl; lia]. unfold IntrusiveInv. simpl.
    eapply IInv_ext; [|exact HI]. intros o. simpl. rewrite holders_snoc. simpl.
    pose proof (holders_insert o _ src other {| Intrusive.obj_ := None |} Hsrc) as H.
    simpl in H. rewrite points_None in H. lia.
  - (* IAssign *)
    destruct (Intrusive.ptrs w !! dst) as [this|] eqn:Hdst; [|done].
    destruct (Intrusive.ptrs w !! src) as [other|] eqn:Hsrc; [|done].
    unfold Intrusive.exec, Intrusive.assign. case_bool_decide as Heq; simpl.
    + rewrite (list_insert_id _ _ _ Hdst), IWorld_eta. split; [done|lia].
    + pose proof (Reset_ptr_cases (Intrusive.store w) _ dst this (Intrusive.obj_ other) HI Hdst)
        as H.
      assert (sole_self (Intrusive.ptrs w) this (Intrusive.obj_ other) = false) as Hsole.
      { unfold sole_self. destruct (Intrusive.obj_ other) as [o|] eqn:Ho; [|done].
        case_bool_decide as Hsame; [|done]. simpl.
        pose proof (holders_two o _ dst src this other Hdst Hsrc Heq Hsame Ho).
        apply Nat.eqb_neq. lia. }
      rewrite Hsole in H. destruct H as (s' & Hrun & HI').
      * intros o. by apply iroom_bound.
      * intros o Ho. by eapply holders_lookup.
      * rewrite Hrun. simpl. split; [done|]. simpl. rewrite length_insert. lia.
  - (* IMoveAssign *)
    destruct (Intrusive.ptrs w !! dst) as [this|] eqn:Hdst; [|done].
    destruct (Intrusive.ptrs w !! src) as [other|] eqn:Hsrc; [|done].
    unfold Intrusive.exec, Intrusive.move_assign. case_bool_decide as Heq; simpl.
    + subst src. simplify_eq.
      rewrite list_insert_insert_eq, (list_insert_id _ _ _ Hdst), IWorld_eta. split; [done|lia].
    + destruct (Reset_Inv (Intrusive.store w) _ dst this HI Hdst) as (s1 & Hrun & HI1).
      { intros o. by apply iroom_bound. }
      unfold Intrusive.bind. rewrite Hrun. simpl.
      split; [|rewrite !length_insert; lia]. unfold IntrusiveInv. simpl.
      eapply IInv_ext; [|exact HI1]. intros o. simpl.
      pose proof (holders_insert o _ dst this Intrusive.default Hdst) as H0.
      pose proof (holders_insert o _ src other {| Intrusive.obj_ := None |} Hsrc) as H1.
      assert (<[src := {| Intrusive.obj_ := None |}]> (Intrusive.ptrs w) !! dst = Some this)
        as Hdst' by by rewrite list_lookup_insert_ne.
      pose proof (holders_insert o _ dst this
                    {| Intrusive.obj_ := Intrusive.obj_ other |} Hdst') as H2.
      simpl in H0, H1, H2. rewrite points_None in H0, H1. lia.
  - (* IReset *)
    destruct (Intrusive.ptrs w !! i) as [this|] eqn:Hi; [|done].
    destruct (Reset_Inv (Intrusive.store w) _ i this HI Hi) as (s1 & Hrun & HI1).
    { intros o. by apply iroom_bound. }
    unfold Intrusive.exec. rewrite Hrun. simpl. split; [done|]. simpl. rewrite length_insert. lia.
  - (* IResetPtr *)
    destruct (Intrusive.ptrs w !! i) as [this|] eqn:Hi; [|done].
    destruct (Intrusive.ptrs w !! src) as [other|] eqn:Hsrc; [|done].
    unfold Intrusive.exec, Intrusive.Get.
    pose proof (Reset_ptr_cases (Intrusive.store w) _ i this (Intrusive.obj_ other) HI Hi) as H.
    destruct (sole_self (Intrusive.ptrs w) this (Intrusive.obj_ other)) eqn:Hsole.
    + rewrite H.
      * unfold sole_self in Hsole. destruct (Intrusive.obj_ other) as [o|] eqn:Ho; [|done].
        apply andb_true_iff in Hsole as [Hsame Hone].
        apply bool_decide_eq_true in Hsame. apply Nat.eqb_eq in Hone.
        destruct (decide (i = src)) as [->|Hne].
        -- by exists src, this, o.
        -- pose proof (holders_two o _ i src this other Hi Hsrc Hne Hsame Ho). lia.
      * intros o. by apply iroom_bound.
      * intros o Ho. by eapply holders_lookup.
    + destruct H as (s' & Hrun & HI').
      * intros o. by apply iroom_bound.
      * intros o Ho. by eapply holders_lookup.
      * rewrite Hrun. simpl. split; [done|]. simpl. rewrite length_insert. lia.
  - (* ISwap *)
    destruct (Intrusive.ptrs w !! i) as [this|] eqn:Hi; [|done].
    destruct (Intrusive.ptrs w !! j) as [other|] eqn:Hj; [|done]. simpl.
    split; [|rewrite !length_insert; lia]. unfold IntrusiveInv. simpl.
    eapply IInv_ext; [|exact HI]. intros o. simpl.
    destruct (decide (i = j)) as [->|Hne].
    + simplify_eq. rewrite list_insert_insert_eq, IPtr_eta.
      by rewrite (list_insert_id _ _ _ Hi).
    + pose proof (holders_insert o _ j other {| Intrusive.obj_ := Intrusive.obj_ this |} Hj) as H1.
      assert (<[j := {| Intrusive.obj_ := Intrusive.obj_ this |}]> (Intrusive.ptrs w) !! i
              = Some this) as Hi' by by rewrite list_lookup_insert_ne.
      pose proof (holders_insert o _ i this
                    {| Intrusive.obj_ := Intrusive.obj_ other |} Hi') as H2.
      simpl in H1, H2. lia.
Qed.

Lemma IntrusiveInv_init : IntrusiveInv Intrusive.init.
Proof. split; intros o; simpl; by rewrite ?lookup_empty, ?andb_true_r. Qed.

Lemma irun_cons op ops w :
  Intrusive.run (op :: ops) w
  = match Intrusive.step op w with
    | Intrusive.Next w' | Intrusive.Raised _ w' => Intrusive.run ops w'
    | Intrusive.Stuck => Intrusive.Stuck
    | Intrusive.Undefined => Intrusive.Undefined
    end.
Proof. simpl. by destruct (Intrusive.step op w). Qed.

Lemma irun_Inv ops w w' :
  IntrusiveInv w → Z.of_nat (length (Intrusive.ptrs w) + length ops) < SIZE_MOD →
  Intrusive.run ops w = Intrusive.Next w' →
  IntrusiveInv w' ∧
  (length (Intrusive.ptrs w') ≤ length (Intrusive.ptrs w) + length ops)%nat.
Proof.
  revert w. induction ops as [|op ops IH]; intros w HI Hfits.
  - simpl. intros [= <-]. split; [done|lia].
  - rewrite irun_cons. simpl in Hfits.
    assert (iroom w) as Hroom by (unfold iroom; lia).
    pose proof (istep_cases op w HI Hroom) as Hstep.
    destruct (Intrusive.step op w) as [w1|e w1| |]; try done;
      destruct Hstep as [HI1 Hlen1]; intros Hrun;
      (destruct (IH w1 HI1) as [HI' Hlen']; [lia|done|]); (split; [done|simpl; lia]).
Qed.

Lemma irun_defined ops w :
  IntrusiveInv w → Z.of_nat (length (Intrusive.ptrs w) + length ops) < SIZE_MOD →
  forallb (λ op, negb (Intrusive.self_reset op)) ops = true →
  Intrusive.run ops w ≠ Intrusive.Undefined.
Proof.
  revert w. induction ops as [|op ops IH]; intros w HI Hfits Hsafe; [done|].
  rewrite irun_cons. simpl in Hfits, Hsafe.
  apply andb_true_iff in Hsafe as [Hop Hsafe].
  assert (iroom w) as Hroom by (unfold iroom; lia).
  pose proof (istep_cases op w HI Hroom) as Hstep.
  destruct (Intrusive.step op w) as [w1|e w1| |]; try done.
  - destruct Hstep as [HI1 Hlen1]. apply IH; [done|lia|done].
  - destruct Hstep as [HI1 Hlen1]. apply IH; [done|lia|done].
  - destruct Hstep as (i & p & o & -> & _). simpl in Hop.
    by rewrite bool_decide_eq_true_2 in Hop.
Qed.

Lemma ireachable ops w :
  Intrusive.run ops Intrusive.init = Intrusive.Next w →
  Z.of_nat (length ops) + 1 < SIZE_MOD →
  IntrusiveInv w ∧ iroom w.
Proof.
  intros Hrun Hlen.
  destruct (irun_Inv ops Intrusive.init w IntrusiveInv_init) as [HI Hle]; [simpl; lia|done|].
  split; [done|]. unfold iroom. simpl in Hle. lia.
Qed.

Lemma intrusive_UseCount_Inv w i p :
  IntrusiveInv w → Intrusive.ptrs w !! i = Some p →
  Intrusive.UseCount p (Intrusive.store w)
  = Intrusive.Ok (match Intrusive.obj_ p with
                  | Some o => Z.of_nat (holders o (Intrusive.ptrs w))
                  | None => 0
                  end) (Intrusive.store w).
Proof.
  intros HI Hi. unfold Intrusive.UseCount, Intrusive.RefCount.
  destruct (Intrusive.obj_ p) as [o|] eqn:Hp; [|done].
  pose proof (holders_lookup o _ i p Hi Hp) as Hpos.
  unfold Intrusive.bind, Intrusive.get_counter. rewrite (iinv_objs _ _ HI o).
  destruct (holders o (Intrusive.ptrs w) =? 0)%nat eqn:E; [apply Nat.eqb_eq in E; lia|done].
Qed.

Lemma from_raw_log ptr s r s' :
  Intrusive.from_raw ptr s = Intrusive.Ok r s' →
  Intrusive.destroy_log s' = Intrusive.destroy_log s.
Proof.
  unfold Intrusive.from_raw, Intrusive.Reset_ptr, Intrusive.Reset, Intrusive.bind,
    Intrusive.ret, Intrusive.IncRef, Intrusive.bind, Intrusive.get_counter,
    Intrusive.put_counter. simpl.
  destruct ptr as [o|]; simpl; [|by intros [= _ <-]].
  destruct (Intrusive.objs s !! o); simpl; [|done]. by intros [= _ <-].
Qed.

(** X16: in every world a program of intrusive-pointer operations reaches, a
    pointer reports as its use count the number of pointer objects that
    hold its object (0 when it is null).  Constructing another pointer from
    the raw pointer [Get] returns joins that count instead of starting a
    second one: the new pointer holds the same object, the count reported
    goes up by one and nothing is deleted. *)
Theorem intrusive_use_count_counts_the_holders ops w i p :
  Intrusive.run ops Intrusive.init = Intrusive.Next w →
  Z.of_nat (length ops) + 1 < SIZE_MOD →
  Intrusive.ptrs w !! i = Some p →
  let n := match Intrusive.obj_ p with
           | Some o => Z.of_nat (holders o (Intrusive.ptrs w))
           | None => 0
           end in
  Intrusive.UseCount p (Intrusive.store w) = Intrusive.Ok n (Intrusive.store w) ∧
  ∃ w', Intrusive.step (Intrusive.IFromRaw i) w = Intrusive.Next w' ∧
        Intrusive.ptrs w' = Intrusive.ptrs w ++ [p] ∧
        Intrusive.destroy_log (Intrusive.store w') = Intrusive.destroy_log (Intrusive.store w) ∧
        (is_Some (Intrusive.obj_ p) →
         Intrusive.UseCount p (Intrusive.store w') = Intrusive.Ok (n + 1) (Intrusive.store w')).
Proof.
  intros Hrun Hlen Hi n. destruct (ireachable ops w Hrun Hlen) as [HI Hroom].
  split; [by apply (intrusive_UseCount_Inv w i p)|].
  destruct (from_raw_Inv w i p HI Hroom Hi) as (s' & Hraw & HI').
  rewrite IPtr_eta in Hraw, HI'.
  eexists. split.
  { simpl. rewrite Hi. unfold Intrusive.exec, Intrusive.Get. by rewrite Hraw. }
  simpl. split; [done|]. split; [by eapply from_raw_log|].
  intros [o Hp].
  pose proof (intrusive_UseCount_Inv _ i p HI') as H. simpl in H.
  rewrite H by by apply lookup_app_l_Some.
  unfold n. rewrite Hp, holders_snoc, Hp, points_Some, decide_True by done.
  f_equal. lia.
Qed.

Lemma intrusive_use_count_counts_the_holders_witness :
  Intrusive.UseCount {| Intrusive.obj_ := Some 0%nat |} (Intrusive.store intrusive_example_world)
  = Intrusive.Ok 1 (Intrusive.store intrusive_example_world).
Proof.
  apply (intrusive_use_count_counts_the_holders intrusive_example_program
           intrusive_example_world 1%nat {| Intrusive.obj_ := Some 0%nat |});
    reflexivity.
Defined.





(** X19: resetting a pointer to the raw pointer it returns itself, [p.Reset(p.Get())]:
    when [p] is the only holder of its object the object is deleted by the
    release and then touched by the increment, which is undefined
    behaviour; when the object has another holder the call returns, the
    object is not deleted, [p] holds it as before and the use count is as
    before. *)
Theorem intrusive_reset_to_own_object ops w i p o :
  Intrusive.run ops Intrusive.init = Intrusive.Next w →
  Z.of_nat (length ops) + 1 < SIZE_MOD →
  Intrusive.ptrs w !! i = Some p → Intrusive.obj_ p = Some o →
  if (holders o (Intrusive.ptrs w) =? 1)%nat
  then Intrusive.step (Intrusive.IResetPtr i i) w = Intrusive.Undefined
  else ∃ w', Intrusive.step (Intrusive.IResetPtr i i) w = Intrusive.Next w' ∧
             Intrusive.ptrs w' = Intrusive.ptrs w ∧
             deletions o (Intrusive.destroy_log (Intrusive.store w')) = 0%nat ∧
             Intrusive.UseCount p (Intrusive.store w')
             = Intrusive.Ok (Z.of_nat (holders o (Intrusive.ptrs w))) (Intrusive.store w').
Proof.
  intros Hrun Hlen Hi Hp. destruct (ireachable ops w Hrun Hlen) as [HI Hroom].
  pose proof (Reset_ptr_cases (Intrusive.store w) _ i p (Some o) HI Hi) as H.
  unfold sole_self in H. rewrite bool_decide_eq_true_2 in H by done. simpl in H.
  simpl. rewrite Hi. unfold Intrusive.exec, Intrusive.Get. rewrite Hp.
  destruct (holders o (Intrusive.ptrs w) =? 1)%nat.
  - rewrite H; [done| |].
    + intros o'. by apply iroom_bound.
    + intros o' [= <-]. by eapply holders_lookup.
  - destruct H as (s' & Hreset & HI').
    + intros o'. by apply iroom_bound.
    + intros o' [= <-]. by eapply holders_lookup.
    + rewrite Hreset. eexists. split; [done|]. simpl.
      assert (<[i := {| Intrusive.obj_ := Some o |}]> (Intrusive.ptrs w) = Intrusive.ptrs w)
        as Hsame.
      { apply list_insert_id. rewrite Hi. f_equal. destruct p; simpl in *; by subst. }
      split; [done|].
      rewrite Hsame in HI'.
      pose proof (intrusive_UseCount_Inv
                    {| Intrusive.store := s'; Intrusive.ptrs := Intrusive.ptrs w |} i p HI' Hi)
        as H1.
      simpl in H1. rewrite Hp in H1. split; [|done].
      rewrite (iinv_log _ _ HI' o). simpl.
      pose proof (holders_lookup o _ i p Hi Hp) as Hpos.
      destruct (holders o (Intrusive.ptrs w) =? 0)%nat eqn:E; [apply Nat.eqb_eq in E; lia|].
      by rewrite andb_false_r.
Qed.

Lemma intrusive_reset_to_own_object_witness :
  Intrusive.step (Intrusive.IResetPtr 1 1) intrusive_example_world = Intrusive.Undefined.
Proof.
  apply (intrusive_reset_to_own_object intrusive_example_program intrusive_example_world
           1%nat {| Intrusive.obj_ := Some 0%nat |} 0%nat); reflexivity.
Defined.

(** ** shared/shared.h against weak/shared.h *)

Lemma simulates_ret {A B} (f : A → B) a : simulates f (ret (f a)) (Strong.ret a).
Proof. done. Qed.

Lemma simulates_bind {A B A' B'} (f : A → B) (g : A' → B')
    (c : M B) (sc : Strong.M A) (k : B → M B') (sk : A → Strong.M A') :
  simulates f c sc → (∀ a, simulates g (k (f a)) (sk a)) →
  simulates g (bind c k) (Strong.bind sc sk).
Proof.
  intros Hc Hk m. unfold bind, Strong.bind. rewrite Hc.
  destruct (sc m) as [a m'|e m'|]; simpl; [apply Hk|done|done].
Qed.

Lemma simulates_get_block b : simulates embed_block (get_block b) (Strong.get_block b).
Proof.
  intros m. unfold get_block, Strong.get_block. simpl. rewrite lookup_fmap.
  by destruct (Strong.heap m !! b).
Qed.

Lemma simulates_put_block b cb :
  simulates id (put_block b (embed_block cb)) (Strong.put_block b cb).
Proof.
  intros m. unfold put_block, Strong.put_block, embed_mem. simpl. unfold embed_mem. simpl.
  by rewrite (fmap_insert embed_block (Strong.heap m)).
Qed.

Lemma simulates_IncrementShared b :
  simulates id (IncrementShared b) (Strong.IncrementShared b).
Proof.
  unfold IncrementShared, Strong.IncrementShared.
  eapply simulates_bind; [apply simulates_get_block|].
  intros cb. apply (simulates_put_block b (Strong.set_shared _ cb)).
Qed.

Lemma simulates_GetSharedCount b :
  simulates id (GetSharedCount b) (Strong.GetSharedCount b).
Proof.
  unfold GetSharedCount, Strong.GetSharedCount.
  eapply simulates_bind; [apply simulates_get_block|].
  intros cb. (by intros ?).
Qed.

Lemma embed_mem_eq h1 h2 n l1 l2 :
  h1 = h2 → l1 = l2 →
  {| heap := h1; next_block := n; log := l1 |} = {| heap := h2; next_block := n; log := l2 |}.
Proof. by intros -> ->. Qed.

Ltac sim_norm :=
  simpl;
  repeat first
    [ match goal with
      | |- context [(embed_block <$> ?h) !! ?b] => rewrite (lookup_fmap embed_block h b)
      | |- context [embed_block <$> <[?b := ?x]> ?h] => rewrite (fmap_insert embed_block h b x)
      | |- context [embed_block <$> delete ?b ?h] => rewrite (fmap_delete embed_block h b)
      | |- context [<[?b := ?x]> ?h !! ?b] => rewrite (lookup_insert_eq h b x)
      | |- context [delete ?b (<[?b := ?x]> ?h)] => rewrite (delete_insert_eq h b x)
      | |- context [<[?b := ?x]> (<[?b := ?y]> ?h)] => rewrite (insert_insert_eq h b x y)
      | H : Strong.heap ?m !! ?b = _ |- context [Strong.heap ?m !! ?b] => rewrite H
      | H : (?x =? ?y) = _ |- context [?x =? ?y] => rewrite H
      end
    | rewrite fmap_app | rewrite <- app_assoc
    | progress unfold embed_mem, embed_result
    | progress simpl ].

Lemma simulates_new_block d :
  simulates id
    (let* b := alloc_block (embed_data d) in IncrementShared b ;; ret b)
    (Strong.alloc_block d).
Proof.
  intros m. unfold bind, ret, alloc_block, IncrementShared, bind, get_block, put_block,
    Strong.alloc_block, embed_mem. sim_norm. done.
Qed.

Lemma simulates_from_raw ptr :
  simulates embed_ptr (SharedPtr_from_raw ptr) (Strong.from_raw ptr).
Proof.
  unfold SharedPtr_from_raw, Strong.from_raw.
  eapply simulates_bind; [apply (simulates_new_block (Strong.PtrData ptr))|].
  intros b. (by intros ?).
Qed.

Lemma simulates_copy other :
  simulates embed_ptr (SharedPtr_copy (embed_ptr other)) (Strong.copy other).
Proof.
  unfold SharedPtr_copy, Strong.copy. simpl.
  destruct (Strong.block_ other) as [b|]; [|(by intros ?)].
  eapply simulates_bind; [apply simulates_IncrementShared|].
  intros _. (by intros ?).
Qed.

Lemma simulates_alias other ptr :
  simulates embed_ptr (SharedPtr_alias (embed_ptr other) ptr) (Strong.alias other ptr).
Proof.
  unfold SharedPtr_alias, Strong.alias. simpl.
  destruct (Strong.block_ other) as [b|]; [|(by intros ?)].
  eapply simulates_bind; [apply simulates_IncrementShared|].
  intros _. (by intros ?).
Qed.

(** The release: where weak/shared.h destroys the payload at the decrement
    and skips it in the destructor of the block, shared/shared.h destroys
    it in the destructor of the block. *)
Lemma simulates_Reset this :
  simulates embed_ptr (SharedPtr_Reset (embed_ptr this)) (Strong.Reset this).
Proof.
  intros m. unfold SharedPtr_Reset, Strong.Reset. simpl.
  destruct (Strong.block_ this) as [b|]; [|done].
  unfold bind, ret, DecrementShared, CanBlockBeDeleted, DeleteData, delete_block, DeleteData,
    bind, ret, get_block, put_block, emit, free_block,
    Strong.bind, Strong.ret, Strong.DecrementShared, Strong.CanBlockBeDeleted,
    Strong.delete_block, Strong.bind, Strong.ret, Strong.get_block, Strong.put_block,
    Strong.emit, Strong.free_block.
  sim_norm.
  destruct (Strong.heap m !! b) as [[c d]|] eqn:Hb; sim_norm. 2: { reflexivity. }
  destruct (size_decr c =? 0) eqn:Hc; sim_norm; [|done].
  destruct d as [[p|]|]; sim_norm; rewrite ?Hc; sim_norm; done.
Qed.

Lemma simulates_Reset_ptr this ptr :
  simulates embed_ptr (SharedPtr_Reset_ptr (embed_ptr this) ptr) (Strong.Reset_ptr this ptr).
Proof.
  unfold SharedPtr_Reset_ptr, Strong.Reset_ptr.
  eapply simulates_bind; [apply simulates_Reset|]. intros _.
  eapply simulates_bind; [apply (simulates_new_block (Strong.PtrData ptr))|].
  intros b. (by intros ?).
Qed.

Lemma simulates_assign self this other :
  simulates embed_ptr (SharedPtr_assign self (embed_ptr this) (embed_ptr other))
    (Strong.assign self this other).
Proof.
  unfold SharedPtr_assign, Strong.assign. destruct self; [(by intros ?)|].
  eapply simulates_bind; [apply simulates_Reset|]. intros _. simpl.
  destruct (Strong.block_ other) as [b|]; [|(by intros ?)].
  eapply simulates_bind; [apply simulates_IncrementShared|].
  intros _. (by intros ?).
Qed.

Lemma simulates_move_assign self this other :
  simulates (prod_map embed_ptr embed_ptr)
    (SharedPtr_move_assign self (embed_ptr this) (embed_ptr other))
    (Strong.move_assign self this other).
Proof.
  unfold SharedPtr_move_assign, Strong.move_assign.
  destruct self; [(by intros ?)|].
  eapply simulates_bind; [apply simulates_Reset|]. intros this'.
  (by intros ?).
Qed.

Lemma simulates_UseCount this :
  simulates id (SharedPtr_UseCount (embed_ptr this)) (Strong.UseCount this).
Proof.
  unfold SharedPtr_UseCount, Strong.UseCount. simpl.
  destruct (Strong.block_ this); [apply simulates_GetSharedCount|(by intros ?)].
Qed.

(** The factory: when the constructor throws, both variants run the payload
    destructor in the destructor of the block. *)
Lemma simulates_MakeShared fail :
  simulates embed_ptr (MakeShared (payload_ctor fail))
    (Strong.MakeShared (Strong.payload_ctor fail)).
Proof.
  intros m.
  unfold MakeShared, new_MakeSharedControlBlock, try_rethrow, payload_ctor, delete_block,
    SharedPtr_adopt, alloc_block, IncrementShared, bind, ret, throw, get_block, put_block,
    emit, free_block,
    Strong.MakeShared, Strong.new_MakeSharedControlBlock, Strong.try_rethrow,
    Strong.payload_ctor, Strong.delete_block, Strong.adopt, Strong.alloc_block,
    Strong.bind, Strong.ret, Strong.throw, Strong.get_block, Strong.put_block, Strong.emit,
    Strong.free_block.
  destruct fail as [code|]; sim_norm; done.
Qed.

Lemma embed_exec {A B} (f : A → B) (c : M B) (sc : Strong.M A) k sk w :
  simulates f c sc →
  (∀ a m, k (f a) (embed_mem m) = embed_world (sk a m)) →
  exec c k (embed_world w) = embed_outcome (Strong.exec sc sk w).
Proof.
  intros Hc Hk. unfold exec, Strong.exec. simpl. rewrite Hc.
  destruct (sc (Strong.mem w)) as [a m|e m|]; simpl; [by rewrite Hk|done|done].
Qed.

Lemma embed_step op w :
  step (embed_op op) (embed_world w) = embed_outcome (Strong.step op w).
Proof.
  destruct op as [|ptr|fail|src|src|src ptr|dst src|dst src|i|i ptr|i j];
    cbn [embed_op step Strong.step embed_world sps wps];
    rewrite ?list_lookup_fmap;
    repeat match goal with
           | |- context [Strong.sps w !! ?i] =>
               destruct (Strong.sps w !! i); cbn [fmap option_fmap option_map]; [|done]
           end.
  - simpl; unfold embed_world; simpl. by rewrite fmap_app.
  - apply (embed_exec embed_ptr); [apply simulates_from_raw|].
    intros a m. simpl; unfold embed_world; simpl. by rewrite fmap_app.
  - apply (embed_exec embed_ptr); [apply simulates_MakeShared|].
    intros a m. simpl; unfold embed_world; simpl. by rewrite fmap_app.
  - apply (embed_exec embed_ptr); [apply simulates_copy|].
    intros a m. simpl; unfold embed_world; simpl. by rewrite fmap_app.
  - simpl; unfold embed_world; simpl. by rewrite fmap_app, list_fmap_insert.
  - apply (embed_exec embed_ptr); [apply simulates_alias|].
    intros a m. simpl; unfold embed_world; simpl. by rewrite fmap_app.
  - apply (embed_exec embed_ptr); [apply simulates_assign|].
    intros a m. simpl; unfold embed_world; simpl. by rewrite list_fmap_insert.
  - apply (embed_exec (prod_map embed_ptr embed_ptr)); [apply simulates_move_assign|].
    intros [a1 a2] m. simpl; unfold embed_world; simpl. by rewrite !list_fmap_insert.
  - apply (embed_exec embed_ptr); [apply simulates_Reset|].
    intros a m. simpl; unfold embed_world; simpl. by rewrite list_fmap_insert.
  - apply (embed_exec embed_ptr); [apply simulates_Reset_ptr|].
    intros a m. simpl; unfold embed_world; simpl. by rewrite list_fmap_insert.
  - simpl; unfold embed_world; simpl. by rewrite !list_fmap_insert.
Qed.

Lemma embed_run ops w :
  run (embed_op <$> ops) (embed_world w) = embed_outcome (Strong.run ops w).
Proof.
  revert w. induction ops as [|op ops IH]; intros w; [done|].
  simpl. rewrite embed_step. destruct (Strong.step op w); simpl; auto.
Qed.

Lemma embed_init : embed_world Strong.init = init.
Proof. unfold embed_world, embed_mem, init, empty_mem. simpl. by rewrite fmap_empty. Qed.

Lemma no_lock_embed ops : no_lock (embed_op <$> ops) = true.
Proof. induction ops as [|[] ops IH]; simpl; auto. Qed.

Lemma destroyed_embed b l : destroyed b (embed_event <$> l) = strong_destroyed b l.
Proof.
  unfold destroyed, strong_destroyed.
  induction l as [|[] l IH]; simpl; auto.
Qed.

Lemma freed_embed b l : freed b (embed_event <$> l) = strong_freed b l.
Proof.
  unfold freed, strong_freed.
  induction l as [|[] l IH]; simpl; auto.
Qed.

Lemma allocated_embed b l : allocated b (embed_event <$> l) = strong_allocated b l.
Proof.
  unfold allocated, strong_allocated.
  induction l as [|[] l IH]; simpl; auto.
Qed.

Lemma born_embed b l : born b (embed_event <$> l) = strong_born b l.
Proof.
  unfold born, strong_born. f_equal. f_equal.
  induction l as [|[b' [[p|]|]| | |] l IH]; simpl; rewrite ?andb_true_r, ?andb_false_r; auto.
Qed.

Lemma srefs_embed b l : srefs b (embed_ptr <$> l) = strong_refs b l.
Proof. unfold srefs, strong_refs. by rewrite <- list_fmap_compose. Qed.

(** Worlds of shared/shared.h programs, seen through weak/shared.h. *)
Lemma strong_reachable ops w :
  Strong.run ops Strong.init = Strong.Next w →
  Z.of_nat (length ops) + 1 < SIZE_MOD →
  Inv (abs (embed_world w)) ∧ room (embed_world w) ∧
  (∀ b, AliveAt b (abs (embed_world w))) ∧ AllocInv (mem (embed_world w)).
Proof.
  intros Hrun Hlen.
  pose proof (embed_run ops Strong.init) as H. rewrite Hrun, embed_init in H. simpl in H.
  assert (Z.of_nat (length (embed_op <$> ops)) + 1 < SIZE_MOD) as Hlen'
    by by rewrite length_fmap.
  destruct (reachable_Inv (embed_world w)) as [HI Hroom]; [by eexists|].
  split; [done|]. split; [done|]. split.
  - intros b. eapply (run_Alive (embed_op <$> ops) init); eauto using no_lock_embed, Inv_init,
      AliveAt_init, fits_init.
  - eapply (run_AllocInv (embed_op <$> ops) init); eauto using Inv_init, fits_init.
    intros b. change (0%nat = if decide (b < 0)%nat then 1%nat else 0%nat).
    case_decide; [lia|done].
Qed.

(** X20: the first variant refines the second: a program of shared-pointer
    operations run by shared/shared.h ends as the same program run by
    weak/shared.h does - the same pointer objects, the same counts, the
    same allocations, destructions and releases in the same order, the
    same exception or the same undefined behaviour - with every weak count
    0; and the observers of a pointer report the same in both. *)
Theorem strong_variant_refines_weak_variant ops w p :
  run (embed_op <$> ops) (embed_world w) = embed_outcome (Strong.run ops w) ∧
  SharedPtr_UseCount (embed_ptr p) (embed_mem (Strong.mem w))
    = embed_result id (Strong.UseCount p (Strong.mem w)) ∧
  SharedPtr_Get (embed_ptr p) = Strong.Get p ∧
  SharedPtr_bool (embed_ptr p) = Strong.to_bool p.
Proof.
  split; [apply embed_run|]. split; [apply simulates_UseCount|]. done.
Qed.



(** X22: in shared/shared.h the payload goes with its block.  In every world a
    program reaches, a block is in the store exactly while some pointer
    object is attached to it; each block identity was allocated at most
    once and freed as often as it was allocated unless it is still in the
    store; and the payload of a block created with one (a non-null handle
    or the storage of [MakeShared]) was destroyed exactly as often as the
    block was freed, while a block created on a null handle never sees a
    destruction. *)
Theorem strong_payload_goes_with_its_block ops w b :
  Strong.run ops Strong.init = Strong.Next w →
  Z.of_nat (length ops) + 1 < SIZE_MOD →
  let l := Strong.log (Strong.mem w) in
  (is_Some (Strong.heap (Strong.mem w) !! b) ↔ (0 < strong_refs b (Strong.sps w))%nat) ∧
  (strong_allocated b l ≤ 1)%nat ∧
  strong_allocated b l
    = (strong_freed b l + match Strong.heap (Strong.mem w) !! b with
                          | Some _ => 1
                          | None => 0
                          end)%nat ∧
  strong_destroyed b l = (if strong_born b l then strong_freed b l else 0)%nat.
Proof.
  intros Hrun Hlen l.
  destruct (strong_reachable ops w Hrun Hlen) as (HI & _ & HA & Halloc).
  specialize (HA b). specialize (Halloc b). simpl in Halloc.
  rewrite allocated_embed in Halloc. fold l in Halloc.
  unfold AliveAt in HA. simpl in HA.
  pose proof (inv_live _ HI b) as Hlive. pose proof (inv_dead _ HI b) as Hdead.
  simpl in Hlive, Hdead.
  rewrite lookup_fmap, ?destroyed_embed, ?freed_embed, ?born_embed, ?srefs_embed in *.
  fold l in Hlive, Hdead, HA.
  destruct (Strong.heap (Strong.mem w) !! b) as [cb|] eqn:Hb; simpl in *.
  - destruct (Hlive _ eq_refl) as (_ & _ & Hpos & Hlt & Hfreed & _ & Hdestroyed).
    specialize (HA _ eq_refl). change (wrefs b []) with 0%nat in Hpos.
    assert ((0 <? strong_refs b (Strong.sps w))%nat = true) as Hpos' by (apply Nat.ltb_lt; lia).
    rewrite Hpos', andb_true_r in HA. rewrite HA in Hdestroyed.
    split; [split; [lia|eauto]|].
    rewrite Halloc, decide_True by done. split; [lia|]. split; [lia|].
    rewrite Hdestroyed, Hfreed. by destruct (strong_born b l).
  - destruct (Hdead eq_refl) as (Hzero & _ & Hfreed & Hdestroyed & Hfresh).
    change (wrefs b []) with 0%nat in *.
    split; [split; [by intros [? ?]|lia]|].
    rewrite Halloc. split; [case_decide; lia|]. split; [rewrite Hfreed; lia|].
    rewrite Hdestroyed. destruct (strong_born b l) eqn:Hborn; [|done].
    rewrite Hfreed. case_decide; [done|]. exfalso.
    assert (true = false) by (apply Hfresh; lia). done.
Qed.

Lemma strong_payload_goes_with_its_block_witness :
  strong_destroyed 0 (Strong.log (Strong.mem strong_example_world))
  = (if strong_born 0 (Strong.log (Strong.mem strong_example_world))
     then strong_freed 0 (Strong.log (Strong.mem strong_example_world)) else 0)%nat.
Proof.
  apply (strong_payload_goes_with_its_block strong_example_program strong_example_world 0%nat);
    reflexivity.
Defined.

(** ** What the store holds between operations *)

(** X23: in every reachable world each control block in the store carries
    as its strong count the number of shared pointer objects attached to it
    and as its weak count the number of weak pointer objects attached to
    it, and at least one pointer object is attached: between operations
    [CanBlockBeDeleted] is false for every block in the store. *)
Theorem block_counters_count_the_attached_pointers ops w b cb :
  run ops init = Next w →
  Z.of_nat (length ops) + 1 < SIZE_MOD →
  heap (mem w) !! b = Some cb →
  GetSharedCount b (mem w) = Ok (Z.of_nat (srefs b (sps w))) (mem w) ∧
  GetWeakCount b (mem w) = Ok (Z.of_nat (wrefs b (wps w))) (mem w) ∧
  CanBlockBeDeleted b (mem w) = Ok false (mem w) ∧
  (0 < srefs b (sps w) + wrefs b (wps w))%nat.
Proof.
  intros Hrun Hlen Hb.
  destruct (reachable_Inv w) as [HI Hroom]; [by exists ops|].
  destruct (inv_live _ HI b cb Hb) as (Hs & Hw & Hpos & _). simpl in Hs, Hw, Hpos.
  unfold GetSharedCount, GetWeakCount, CanBlockBeDeleted. mstep.
  rewrite Hs, Hw. repeat split; [|done].
  do 2 f_equal. apply andb_false_iff. rewrite !Z.eqb_neq. lia.
Qed.

Lemma block_counters_count_the_attached_pointers_witness :
  CanBlockBeDeleted 0 (mem expired_world) = Ok false (mem expired_world).
Proof.
  apply (block_counters_count_the_attached_pointers
           [ONew (Some (ObjAt 7)); WFromShared 0; OReset 0]%nat expired_world 0%nat
           {| shared_counter_ := 0; weak_counter_ := 1; payload_ := PtrData None |});
    reflexivity.
Defined.



Lemma destroy_events_no_payload b d : has_payload d = false → destroy_events b d = [].
Proof. by destruct d as [[p|]|[|]]. Qed.

(** Payloads without pointer members: in a program that never calls
    [Lock], releasing a weak pointer (by [Reset] or by its destructor)
    never destroys a payload: it returns, leaves the pointer empty, and the
    number of destructions of every block's payload is as before, also when
    the release frees the block. *)
Lemma inert_weak_release_destroys_nothing ops w i wk :
  run ops init = Next w →
  no_lock ops = true →
  Z.of_nat (length ops) + 1 < SIZE_MOD →
  wps w !! i = Some wk →
  ∃ w', step (WReset i) w = Next w' ∧
        wps w' = <[i := WeakPtr_default]> (wps w) ∧
        ∀ b, destroyed b (log (mem w')) = destroyed b (log (mem w)).
Proof.
  intros Hrun Hnl Hlen Hi.
  destruct (reachable_Inv w) as [HI Hroom]; [by exists ops|].
  simpl. rewrite Hi. unfold exec.
  destruct (wp_block_ wk) as [b|] eqn:Hblk.
  - destruct (Inv_attached w b HI) as [cb Hb].
    { pose proof (wrefs_lookup b _ _ _ Hi Hblk). lia. }
    destruct (WeakPtr_Reset_spec wk b cb (mem w) Hblk Hb) as (m1 & Hreset & _ & Hpost).
    rewrite Hreset. eexists. split; [done|]. simpl. split; [done|]. intros b'.
    simpl in Hpost.
    destruct ((shared_counter_ cb =? 0) && (size_decr (weak_counter_ cb) =? 0)) eqn:Hz;
      destruct Hpost as [-> _]; [|done].
    apply andb_true_iff in Hz as [Hz _]. apply Z.eqb_eq in Hz.
    pose proof (run_Alive ops init w b Hnl Inv_init (fits_init ops Hlen) (AliveAt_init b) Hrun
                  cb Hb) as HA.
    destruct (inv_live _ HI b cb Hb) as (Hs & _). simpl in Hs, HA.
    assert ((0 <? srefs b (sps w))%nat = false) as Hnone by (apply Nat.ltb_ge; lia).
    rewrite Hnone, andb_false_r in HA.
    rewrite (destroy_events_no_payload b _ HA). simpl.
    rewrite destroyed_app. unfold destroyed at 2. simpl. lia.
  - exists {| mem := mem w; sps := sps w; wps := <[i := WeakPtr_default]> (wps w) |}.
    unfold WeakPtr_Reset. rewrite Hblk. done.
Qed.

(** ** Payloads that own pointers *)

Ltac pstep :=
  repeat first
    [ progress (unfold Payload.bind, Payload.ret, Payload.lift, Payload.update_block,
                  Payload.get_member, Payload.update_member, Payload.dealloc,
                  Payload.release_block, Payload.block_of, Payload.add_member,
                  bind, ret, throw, get_block, put_block, emit, free_block; simpl)
    | rewrite lookup_insert_eq
    | rewrite lookup_delete_eq
    | match goal with
      | H : heap ?m !! ?b = _ |- context [heap ?m !! ?b] => rewrite H
      | H : Payload.objects ?s !! ?p = _ |- context [Payload.objects ?s !! ?p] => rewrite H
      end ].

Lemma size_decr_1 : size_decr 1 = 0.
Proof. done. Qed.

Lemma size_decr_0_nonzero : (size_decr 0 =? 0) = false.
Proof. done. Qed.

(** C1: a payload that holds the last weak pointer to its own block is
    destroyed twice.  Releasing the last owner takes the strong count from
    1 to 0 and [DeleteData] runs the payload's destructor while [ptr_] (or
    [was_data_deleted_]) is still as it was; the destructor releases the
    weak pointer, both counts are 0 and the block is deleted; the block's
    destructor finds the payload not yet marked as destroyed and runs its
    destructor a second time, and the block is freed.  Back in the first
    destructor call the weak pointer writes to itself, in memory that is
    gone: from there on the release is undefined. *)
Theorem payload_holding_last_weak_ptr_is_destroyed_twice
    (fuel : nat) (this : SharedPtr) (b : nat) (cb : ControlBlock)
    (p : obj_addr) (o : option obj_addr) (s : Payload.Store) :
  sp_block_ this = Some b →
  heap (Payload.base s) !! b = Some cb →
  shared_counter_ cb = 1 → weak_counter_ cb = 1 →
  Payload.holds cb b p = true →
  Payload.objects s !! p
    = Some (Payload.Live [Payload.Weak {| wp_obj_ := o; wp_block_ := Some b |}]) →
  ∃ s', Payload.SharedPtr_Reset (Payload.destroy (S (S fuel))) this s = Payload.Faults s' ∧
        log (Payload.base s') = log (Payload.base s) ++ [EvDestroy b p; EvDestroy b p; EvFree b] ∧
        destroyed b (log (Payload.base s')) = (2 + destroyed b (log (Payload.base s)))%nat ∧
        heap (Payload.base s') !! b = None ∧
        Payload.objects s' !! p = Some Payload.Gone.
Proof.
  intros Hthis Hb Hs Hw Hholds Hp.
  assert (∀ l, destroyed b (l ++ [EvDestroy b p; EvDestroy b p; EvFree b])
               = (2 + destroyed b l)%nat) as Hcount.
  { intros l. unfold destroyed. rewrite count_app. simpl.
    rewrite !bool_decide_eq_true_2 by done. simpl. lia. }
  unfold Payload.SharedPtr_Reset. rewrite Hthis.
  unfold Payload.DecrementShared. pstep. rewrite Hs, size_decr_1. simpl.
  unfold Payload.DeleteData. pstep.
  destruct cb as [sc wc [ptr|was]]; simpl in *; subst sc wc.
  - unfold Payload.holds in Hholds. simpl in Hholds. apply bool_decide_eq_true in Hholds as ->.
    pstep. unfold Payload.member_Reset, DecrementWeak, CanBlockBeDeleted. pstep.
    unfold Payload.delete_block, Payload.DeleteData. pstep.
    unfold Payload.member_Reset, DecrementWeak, CanBlockBeDeleted. pstep.
    rewrite ?size_decr_0_nonzero. simpl. pstep.
    destruct (decide (p = StorageOf b)) as [->|Hne].
    + pstep. eexists. split; [done|]. simpl. rewrite <- !app_assoc. simpl.
      rewrite Hcount. repeat split; try done.
      * by rewrite lookup_delete_eq.
      * by rewrite lookup_insert_eq.
    + rewrite !lookup_insert_ne by done.
      destruct (Payload.objects s !! StorageOf b) eqn:Hst; pstep;
        rewrite ?(lookup_insert_ne _ (StorageOf b) p) by done; pstep;
        (eexists; split; [done|]; simpl; rewrite <- !app_assoc; simpl;
         rewrite Hcount; repeat split; try done;
         [by rewrite lookup_delete_eq
         |by rewrite ?(lookup_insert_ne _ (StorageOf b) p) by done; rewrite lookup_insert_eq]).
  - unfold Payload.holds in Hholds. simpl in Hholds.
    apply andb_true_iff in Hholds as [Hwas Heq]. apply negb_true_iff in Hwas.
    apply bool_decide_eq_true in Heq. subst was p.
    pstep. unfold Payload.member_Reset, DecrementWeak, CanBlockBeDeleted. pstep.
    unfold Payload.delete_block. pstep.
    unfold Payload.member_Reset, DecrementWeak, CanBlockBeDeleted. pstep.
    rewrite ?size_decr_0_nonzero. simpl. pstep.
    eexists. split; [done|]. simpl. rewrite <- !app_assoc. simpl.
    rewrite Hcount. repeat split; try done.
    + by rewrite lookup_delete_eq.
    + by rewrite lookup_insert_eq.
Qed.

Lemma payload_holding_last_weak_ptr_is_destroyed_twice_witness :
  Payload.run 0 self_observing_program Payload.init = Payload.Next self_observing_world ∧
  ∃ s', Payload.step 2 (Payload.Do (OReset 0)) self_observing_world = Payload.Undefined s' ∧
        log (Payload.base s')
        = [EvAlloc 0 (PtrData (Some (ObjAt 7))); EvDestroy 0 (ObjAt 7);
           EvDestroy 0 (ObjAt 7); EvFree 0] ∧
        destroyed 0 (log (Payload.base s')) = 2%nat.
Proof.
  split; [reflexivity|].
  destruct (payload_holding_last_weak_ptr_is_destroyed_twice 0
              {| sp_obj_ := Some (ObjAt 7); sp_block_ := Some 0%nat |} 0%nat
              {| shared_counter_ := 1; weak_counter_ := 1;
                 payload_ := PtrData (Some (ObjAt 7)) |}
              (ObjAt 7) (Some (ObjAt 7)) (Payload.store self_observing_world)
              eq_refl eq_refl eq_refl eq_refl eq_refl eq_refl)
    as (s' & Hrun & Hlog & Hcount & _).
  exists s'. split; [|split; [exact Hlog|exact Hcount]].
  change (Payload.step 2 (Payload.Do (OReset 0)) self_observing_world)
    with (Payload.exec
            (Payload.SharedPtr_Reset (Payload.destroy 2)
               {| sp_obj_ := Some (ObjAt 7); sp_block_ := Some 0%nat |})
            (λ p s, {| Payload.store := s;
                       Payload.sptrs := <[0%nat := p]> (Payload.sptrs self_observing_world);
                       Payload.wptrs := Payload.wptrs self_observing_world |})
            self_observing_world).
  unfold Payload.exec. by rewrite Hrun.
Defined.

(** X27: a payload that holds a weak pointer to its own block while the
    block has other weak pointers as well is destroyed once when its last
    owner is released: the destructor's release of the weak pointer lowers
    the weak count, the block stays in the store with strong count 0 and
    without payload, and the release returns. *)
Theorem self_observing_payload_is_destroyed_once_while_observed
    (fuel : nat) (this : SharedPtr) (b : nat) (cb : ControlBlock)
    (p : obj_addr) (o : option obj_addr) (s : Payload.Store) :
  sp_block_ this = Some b →
  heap (Payload.base s) !! b = Some cb →
  shared_counter_ cb = 1 → 1 < weak_counter_ cb < SIZE_MOD →
  Payload.holds cb b p = true →
  Payload.objects s !! p
    = Some (Payload.Live [Payload.Weak {| wp_obj_ := o; wp_block_ := Some b |}]) →
  ∃ s', Payload.SharedPtr_Reset (Payload.destroy (S fuel)) this s
          = Payload.Returns SharedPtr_default s' ∧
        log (Payload.base s') = log (Payload.base s) ++ [EvDestroy b p] ∧
        heap (Payload.base s') !! b
          = Some {| shared_counter_ := 0; weak_counter_ := weak_counter_ cb - 1;
                    payload_ := match payload_ cb with
                                | PtrData _ => PtrData None
                                | MakeSharedData _ => MakeSharedData true
                                end |} ∧
        Payload.objects s' !! p
          = Some (match payload_ cb with
                  | PtrData _ => Payload.Gone
                  | MakeSharedData _ =>
                      Payload.Live [Payload.Weak {| wp_obj_ := None; wp_block_ := None |}]
                  end).
Proof.
  intros Hthis Hb Hs Hw Hholds Hp.
  unfold Payload.SharedPtr_Reset. rewrite Hthis.
  unfold Payload.DecrementShared. pstep. rewrite Hs, size_decr_1. simpl.
  unfold Payload.DeleteData. pstep.
  destruct cb as [sc wc [ptr|was]]; simpl in *; subst sc.
  - unfold Payload.holds in Hholds. simpl in Hholds. apply bool_decide_eq_true in Hholds as ->.
    pstep. unfold Payload.member_Reset, DecrementWeak, CanBlockBeDeleted. pstep.
    rewrite size_decr_small by lia.
    destruct (wc - 1 =? 0) eqn:Hz; [apply Z.eqb_eq in Hz; lia|]. simpl. pstep.
    unfold CanBlockBeDeleted. pstep. rewrite Hz. simpl.
    eexists. split; [done|]. simpl. repeat split; by rewrite lookup_insert_eq.
  - unfold Payload.holds in Hholds. simpl in Hholds.
    apply andb_true_iff in Hholds as [Hwas Heq]. apply negb_true_iff in Hwas.
    apply bool_decide_eq_true in Heq. subst was p.
    pstep. unfold Payload.member_Reset, DecrementWeak, CanBlockBeDeleted. pstep.
    rewrite size_decr_small by lia.
    destruct (wc - 1 =? 0) eqn:Hz; [apply Z.eqb_eq in Hz; lia|]. simpl. pstep.
    unfold CanBlockBeDeleted. pstep. rewrite Hz. simpl.
    eexists. split; [done|]. simpl. repeat split; by rewrite lookup_insert_eq.
Qed.

Lemma self_observing_payload_is_destroyed_once_while_observed_witness :
  ∃ s', Payload.SharedPtr_Reset (Payload.destroy 1)
          {| sp_obj_ := Some (ObjAt 7); sp_block_ := Some 0%nat |}
          (Payload.store self_observed_world) = Payload.Returns SharedPtr_default s' ∧
        log (Payload.base s')
        = [EvAlloc 0 (PtrData (Some (ObjAt 7))); EvDestroy 0 (ObjAt 7)].
Proof.
  destruct (self_observing_payload_is_destroyed_once_while_observed 0
              {| sp_obj_ := Some (ObjAt 7); sp_block_ := Some 0%nat |} 0%nat
              {| shared_counter_ := 1; weak_counter_ := 2;
                 payload_ := PtrData (Some (ObjAt 7)) |}
              (ObjAt 7) (Some (ObjAt 7)) (Payload.store self_observed_world)
              eq_refl eq_refl eq_refl (conj eq_refl eq_refl) eq_refl eq_refl)
    as (s' & Hrun & Hlog & _).
  exists s'. split; [exact Hrun|exact Hlog].
Defined.

Ltac neq := first [done | congruence].

Ltac qstep :=
  repeat first
    [ progress pstep
    | rewrite lookup_insert_ne by neq
    | rewrite lookup_delete_ne by neq ].

(** X28: a payload that owns the only shared pointer to a second block
    takes the second payload with it: releasing the last owner of the first
    block starts the destruction of the first payload, whose destructor
    releases the member, so that the second payload is destroyed and its
    block freed; then the first payload's memory goes and the first block
    is freed.  No other block is touched. *)
Theorem owning_payload_takes_the_owned_payload_with_it
    (fuel : nat) (this : SharedPtr) (a b : nat) (cba cbb : ControlBlock)
    (x y : N) (o : option obj_addr) (s : Payload.Store) :
  sp_block_ this = Some a → a ≠ b → x ≠ y →
  heap (Payload.base s) !! a = Some cba →
  shared_counter_ cba = 1 → weak_counter_ cba = 0 → payload_ cba = PtrData (Some (ObjAt x)) →
  heap (Payload.base s) !! b = Some cbb →
  shared_counter_ cbb = 1 → weak_counter_ cbb = 0 → payload_ cbb = PtrData (Some (ObjAt y)) →
  Payload.objects s !! ObjAt x
    = Some (Payload.Live [Payload.Shared {| sp_obj_ := o; sp_block_ := Some b |}]) →
  Payload.objects s !! ObjAt y = None →
  ∃ s', Payload.SharedPtr_Reset (Payload.destroy (S fuel)) this s
          = Payload.Returns SharedPtr_default s' ∧
        log (Payload.base s')
          = log (Payload.base s)
            ++ [EvDestroy a (ObjAt x); EvDestroy b (ObjAt y); EvFree b; EvFree a] ∧
        heap (Payload.base s') !! a = None ∧
        heap (Payload.base s') !! b = None ∧
        (∀ c, c ≠ a → c ≠ b → heap (Payload.base s') !! c = heap (Payload.base s) !! c) ∧
        Payload.objects s' !! ObjAt x = Some Payload.Gone.
Proof.
  intros Hthis Hab Hxy Ha Hsa Hwa Hpa Hb Hsb Hwb Hpb Hx Hy.
  destruct cba as [sa wa da], cbb as [sb wb db]. simpl in *. subst.
  unfold Payload.SharedPtr_Reset. rewrite Hthis.
  unfold Payload.DecrementShared. pstep. unfold Payload.DeleteData. pstep.
  unfold Payload.member_Reset, Payload.DecrementShared. qstep.
  unfold Payload.DeleteData. qstep.
  assert (∀ n, Payload.destroy n (ObjAt y) = λ s0,
            match Payload.objects s0 !! ObjAt y with
            | None => Payload.Returns tt s0
            | Some Payload.Gone => Payload.Faults s0
            | Some (Payload.Live ms) =>
                match n with
                | O => Payload.Starved
                | S n' => Payload.destroy_members (Payload.destroy n') (ObjAt y) (length ms) s0
                end
            end) as Hd by by intros [|n].
  rewrite Hd. qstep. unfold CanBlockBeDeleted. qstep.
  unfold Payload.delete_block, Payload.DeleteData. qstep.
  destruct (Payload.objects s !! StorageOf b) eqn:Hstb; qstep;
    unfold CanBlockBeDeleted; qstep;
    unfold Payload.delete_block, Payload.DeleteData; qstep;
    (destruct (Payload.objects s !! StorageOf a) eqn:Hsta; qstep;
     (eexists; split; [done|]; simpl; rewrite <- !app_assoc; simpl;
      split; [done|]; split; [by qstep|]; split; [by qstep|];
      split; [intros c Hca Hcb; by qstep|]; by qstep)).
Qed.

Lemma owning_payload_takes_the_owned_payload_with_it_witness :
  ∃ s', Payload.SharedPtr_Reset (Payload.destroy 1)
          {| sp_obj_ := Some (ObjAt 1); sp_block_ := Some 0%nat |}
          (Payload.store two_nodes_world) = Payload.Returns SharedPtr_default s' ∧
        log (Payload.base s')
        = [EvAlloc 0 (PtrData (Some (ObjAt 1))); EvAlloc 1 (PtrData (Some (ObjAt 2)));
           EvDestroy 0 (ObjAt 1); EvDestroy 1 (ObjAt 2); EvFree 1; EvFree 0].
Proof.
  destruct (owning_payload_takes_the_owned_payload_with_it 0
              {| sp_obj_ := Some (ObjAt 1); sp_block_ := Some 0%nat |} 0%nat 1%nat
              {| shared_counter_ := 1; weak_counter_ := 0;
                 payload_ := PtrData (Some (ObjAt 1)) |}
              {| shared_counter_ := 1; weak_counter_ := 0;
                 payload_ := PtrData (Some (ObjAt 2)) |}
              1%N 2%N (Some (ObjAt 2)) (Payload.store two_nodes_world) eq_refl)
    as (s' & Hrun & Hlog & _);
    [discriminate | discriminate | reflexivity | reflexivity | reflexivity | reflexivity
    | reflexivity | reflexivity | reflexivity | reflexivity | reflexivity | reflexivity |].
  exists s'. split; [exact Hrun|exact Hlog].
Defined.

(** *** The self-referencing capability *)

(** C6: wrapping a self-referencing payload, by raw handle or by the
    factory, installs in the payload a weak reference to the payload's own
    address on the owner's block, with the deletion flag cleared, and the
    block counts it: strong count 1, weak count 1.  [SharedFromThis] then
    returns a shared pointer to the payload's address on the same block and
    the use count goes from 1 to 2; called at any later time it raises the
    strong count [c] of the block to [c + 1], and fails with [BadWeakPtr]
    when the strong count is 0.  The back-reference does not keep the
    payload alive: releasing the last owner destroys the payload once, the
    payload's destructor releases the back-reference without freeing the
    block, and the owner's release then frees the block. *)
Theorem SharedFromThis_round_trip (by_factory : bool) (a : obj_addr) (s : Payload.Store) :
  let b := next_block (Payload.base s) in
  let p := if by_factory then StorageOf b else a in
  let d := if by_factory then MakeSharedData false else PtrData (Some a) in
  let sp := {| sp_obj_ := Some p; sp_block_ := Some b |} in
  let weak_this :=
    {| SFT.obj_ := Some p; SFT.block_ := Some b; SFT.can_i_delete_block_ := false |} in
  Payload.objects s !! p = None →
  ∃ s1,
    (if by_factory then Payload.MakeShared_self_referencing
     else Payload.wrap_self_referencing a) s = Payload.Returns sp s1 ∧
    (if by_factory then MakeShared_self_referencing
     else wrap_self_referencing (Some a)) (Payload.base s)
      = Ok (sp, weak_this) (Payload.base s1) ∧
    SharedPtr_Get sp = Some p ∧
    Payload.objects s1 !! p = Some (Payload.Live [Payload.Back weak_this]) ∧
    heap (Payload.base s1) !! b
      = Some {| shared_counter_ := 1; weak_counter_ := 1; payload_ := d |} ∧
    GetWeakCount b (Payload.base s1) = Ok 1 (Payload.base s1) ∧
    SharedPtr_UseCount sp (Payload.base s1) = Ok 1 (Payload.base s1) ∧
    (∃ m2, SharedFromThis weak_this (Payload.base s1) = Ok sp m2 ∧
           SharedPtr_UseCount sp m2 = Ok 2 m2) ∧
    (∀ m cb, heap m !! b = Some cb →
       (shared_counter_ cb = 0 → SharedFromThis weak_this m = Throw BadWeakPtr m) ∧
       (0 < shared_counter_ cb < SIZE_MOD - 1 →
        ∃ m', SharedFromThis weak_this m = Ok sp m' ∧
              SharedPtr_UseCount sp m' = Ok (shared_counter_ cb + 1) m' ∧
              heap m' !! b = Some (set_shared (shared_counter_ cb + 1) cb) ∧
              same_but b m m' ∧ log m' = log m)) ∧
    (∀ fuel s',
       heap (Payload.base s') !! b
         = Some {| shared_counter_ := 1; weak_counter_ := 1; payload_ := d |} →
       Payload.objects s' !! p = Some (Payload.Live [Payload.Back weak_this]) →
       ∃ s2, Payload.SharedPtr_Reset (Payload.destroy (S fuel)) sp s' =
               Payload.Returns SharedPtr_default s2 ∧
             log (Payload.base s2) = log (Payload.base s') ++ [EvDestroy b p; EvFree b] ∧
             heap (Payload.base s2) !! b = None ∧
             Payload.objects s2 !! p = Some Payload.Gone).
Proof.
  intros b p d sp weak_this Hfresh.
  assert (∀ m cb, heap m !! b = Some cb →
     (shared_counter_ cb = 0 → SharedFromThis weak_this m = Throw BadWeakPtr m) ∧
     (0 < shared_counter_ cb < SIZE_MOD - 1 →
      ∃ m', SharedFromThis weak_this m = Ok sp m' ∧
            SharedPtr_UseCount sp m' = Ok (shared_counter_ cb + 1) m' ∧
            heap m' !! b = Some (set_shared (shared_counter_ cb + 1) cb) ∧
            same_but b m m' ∧ log m' = log m)) as Hpromote.
  { intros m cb Hb. split.
    - intros Hz. by apply (SharedPtr_from_weak_expired _ b cb).
    - intros Hpos. unfold SharedFromThis, SharedPtr_from_weak, sft_view. simpl.
      unfold bind at 1. rewrite (WeakPtr_Expired_spec _ b cb) by done.
      destruct (shared_counter_ cb =? 0) eqn:Hz; [apply Z.eqb_eq in Hz; lia|].
      destruct (IncrementShared_spec b cb m Hb) as (m' & Hrun & Hsame & Hlog & Hheap).
      rewrite size_incr_small in Hheap by lia.
      exists m'. unfold bind, ret. rewrite Hrun.
      split; [done|]. split; [|done].
      unfold SharedPtr_UseCount, GetSharedCount, sp. simpl. by mstep. }
  assert (∀ fuel s',
     heap (Payload.base s') !! b
       = Some {| shared_counter_ := 1; weak_counter_ := 1; payload_ := d |} →
     Payload.objects s' !! p = Some (Payload.Live [Payload.Back weak_this]) →
     ∃ s2, Payload.SharedPtr_Reset (Payload.destroy (S fuel)) sp s' =
             Payload.Returns SharedPtr_default s2 ∧
           log (Payload.base s2) = log (Payload.base s') ++ [EvDestroy b p; EvFree b] ∧
           heap (Payload.base s2) !! b = None ∧
           Payload.objects s2 !! p = Some Payload.Gone) as Hrelease.
  { intros fuel s' Hb Hp. unfold Payload.SharedPtr_Reset. simpl.
    unfold Payload.DecrementShared. pstep. unfold Payload.DeleteData. pstep.
    subst d p. destruct by_factory; pstep.
    - unfold Payload.member_Reset, DecrementWeak, CanBlockBeDeleted. pstep.
      unfold Payload.delete_block. pstep.
      eexists. split; [done|]. simpl. rewrite <- !app_assoc. simpl. repeat split.
      + by rewrite lookup_delete_eq.
      + by rewrite lookup_insert_eq.
    - unfold Payload.member_Reset, DecrementWeak, CanBlockBeDeleted. pstep.
      unfold Payload.delete_block, Payload.DeleteData. pstep.
      destruct (decide (a = StorageOf b)) as [Heq|Hne].
      + rewrite <- Heq. pstep. eexists. split; [done|]. simpl.
        rewrite <- !app_assoc. simpl. repeat split.
        * by rewrite lookup_delete_eq.
        * by rewrite lookup_insert_eq.
      + rewrite !lookup_insert_ne by done.
        destruct (Payload.objects s' !! StorageOf b) eqn:Hst; pstep;
          (eexists; split; [done|]; simpl; rewrite <- !app_assoc; simpl; repeat split;
           [by rewrite lookup_delete_eq
           |by rewrite ?(lookup_insert_ne _ (StorageOf b) a) by done; rewrite lookup_insert_eq]). }
  subst d p sp weak_this b. destruct by_factory.
  - unfold Payload.MakeShared_self_referencing, MakeShared_self_referencing, MakeShared,
      try_rethrow, new_MakeSharedControlBlock, payload_ctor, SharedPtr_adopt, alloc_block,
      SFT.from_esft, IncrementShared, IncrementWeak. pstep.
    eexists. split; [done|]. simpl. split; [done|]. split; [done|].
    split; [by rewrite lookup_insert_eq|]. rewrite !lookup_insert_eq.
    split; [done|]. split; [unfold GetWeakCount; by mstep|].
    split; [unfold SharedPtr_UseCount, GetSharedCount; by mstep|].
    split; [|done].
    unfold SharedFromThis, SharedPtr_from_weak, WeakPtr_Expired, SharedPtr_UseCount,
      GetSharedCount, IncrementShared, sft_view. mstep. eexists. split; [done|]. by mstep.
  - unfold Payload.wrap_self_referencing, wrap_self_referencing, SharedPtr_from_raw,
      new_PtrControlBlock, alloc_block, SFT.from_esft, IncrementShared, IncrementWeak. pstep.
    eexists. split; [done|]. simpl. split; [done|]. split; [done|].
    split; [by rewrite lookup_insert_eq|]. rewrite !lookup_insert_eq.
    split; [done|]. split; [unfold GetWeakCount; by mstep|].
    split; [unfold SharedPtr_UseCount, GetSharedCount; by mstep|].
    split; [|done].
    unfold SharedFromThis, SharedPtr_from_weak, WeakPtr_Expired, SharedPtr_UseCount,
      GetSharedCount, IncrementShared, sft_view. mstep. eexists. split; [done|]. by mstep.
Qed.

Lemma SharedFromThis_round_trip_witness :
  ∃ s1, Payload.wrap_self_referencing (ObjAt 7) Payload.empty_store
          = Payload.Returns {| sp_obj_ := Some (ObjAt 7); sp_block_ := Some 0%nat |} s1 ∧
        GetWeakCount 0 (Payload.base s1) = Ok 1 (Payload.base s1) ∧
        SharedPtr_UseCount {| sp_obj_ := Some (ObjAt 7); sp_block_ := Some 0%nat |}
          (Payload.base s1) = Ok 1 (Payload.base s1).
Proof.
  destruct (SharedFromThis_round_trip false (ObjAt 7) Payload.empty_store eq_refl)
    as (s1 & H1 & _ & _ & _ & _ & H6 & H7 & _).
  exists s1. split; [exact H1|]. split; [exact H6|exact H7].
Defined.

(** *** Payloads without pointer members *)

Lemma agrees_ret {A} (a : A) : agrees (ret a) (Payload.ret a).
Proof. by intros m. Qed.

Lemma agrees_lift {A} (c : M A) : agrees c (Payload.lift c).
Proof. intros m. unfold Payload.lift. simpl. by destruct (c m). Qed.

Lemma agrees_bind {A B} (c0 : M A) (k0 : A → M B) c k :
  agrees c0 c → (∀ a, agrees (k0 a) (k a)) → agrees (bind c0 k0) (Payload.bind c k).
Proof.
  intros Hc Hk m. unfold bind, Payload.bind. specialize (Hc m).
  destruct (c0 m) as [a m1|e m1|], (c (plain_store m)) as [a' s1|e' s1|s1|];
    simpl in *; try done; destruct Hc as [-> ->]; first [apply Hk|done].
Qed.

Lemma destroy_plain fuel p m :
  Payload.destroy fuel p {| Payload.base := m; Payload.objects := ∅ |}
  = Payload.Returns tt {| Payload.base := m; Payload.objects := ∅ |}.
Proof. by destruct fuel. Qed.

Ltac bstep :=
  repeat first
    [ progress (unfold Payload.bind, Payload.ret, Payload.lift, Payload.update_block,
                  Payload.dealloc, Payload.release_block,
                  bind, ret, throw, get_block, put_block, emit, free_block; simpl)
    | rewrite lookup_insert_eq
    | rewrite lookup_empty
    | rewrite destroy_plain
    | match goal with
      | H : heap ?m !! ?b = _ |- context [heap ?m !! ?b] => rewrite H
      end ].

Lemma agrees_DeleteData fuel b :
  agrees (DeleteData b) (Payload.DeleteData (Payload.destroy fuel) b).
Proof.
  intros m. unfold DeleteData, Payload.DeleteData.
  destruct (heap m !! b) as [[sc wc [[p|]|[|]]]|] eqn:Hb; bstep; done.
Qed.

Lemma agrees_delete_block fuel b :
  agrees (delete_block b) (Payload.delete_block (Payload.destroy fuel) b).
Proof.
  intros m. unfold delete_block, Payload.delete_block, DeleteData, Payload.DeleteData.
  destruct (heap m !! b) as [[sc wc [[p|]|[|]]]|] eqn:Hb; bstep; done.
Qed.

Create HintDb agree.
#[local] Hint Resolve agrees_ret agrees_lift agrees_DeleteData agrees_delete_block : agree.

Ltac agree_tac :=
  repeat first
    [ solve [auto with agree]
    | apply agrees_bind; [|intros]
    | progress cbv zeta
    | match goal with
      | |- agrees (match ?x with _ => _ end) _ => destruct x
      | |- agrees (if ?x then _ else _) _ => destruct x
      end ].

Lemma agrees_DecrementShared fuel b :
  agrees (DecrementShared b) (Payload.DecrementShared (Payload.destroy fuel) b).
Proof. unfold DecrementShared, Payload.DecrementShared. agree_tac. Qed.
#[local] Hint Resolve agrees_DecrementShared : agree.

Lemma agrees_SharedPtr_Reset fuel this :
  agrees (SharedPtr_Reset this) (Payload.SharedPtr_Reset (Payload.destroy fuel) this).
Proof. unfold SharedPtr_Reset, Payload.SharedPtr_Reset. agree_tac. Qed.

Lemma agrees_WeakPtr_Reset fuel this :
  agrees (WeakPtr_Reset this) (Payload.WeakPtr_Reset (Payload.destroy fuel) this).
Proof. unfold WeakPtr_Reset, Payload.WeakPtr_Reset. agree_tac. Qed.
#[local] Hint Resolve agrees_SharedPtr_Reset agrees_WeakPtr_Reset : agree.

Lemma agrees_SharedPtr_Reset_ptr fuel this ptr :
  agrees (SharedPtr_Reset_ptr this ptr)
         (Payload.SharedPtr_Reset_ptr (Payload.destroy fuel) this ptr).
Proof. unfold SharedPtr_Reset_ptr, Payload.SharedPtr_Reset_ptr. agree_tac. Qed.

Lemma agrees_SharedPtr_assign fuel self this other :
  agrees (SharedPtr_assign self this other)
         (Payload.SharedPtr_assign (Payload.destroy fuel) self this other).
Proof. unfold SharedPtr_assign, Payload.SharedPtr_assign. simpl. agree_tac. Qed.

Lemma agrees_SharedPtr_move_assign fuel self this other :
  agrees (SharedPtr_move_assign self this other)
         (Payload.SharedPtr_move_assign (Payload.destroy fuel) self this other).
Proof. unfold SharedPtr_move_assign, Payload.SharedPtr_move_assign. agree_tac. Qed.

Lemma agrees_WeakPtr_assign fuel self this other :
  agrees (WeakPtr_assign self this other)
         (Payload.WeakPtr_assign (Payload.destroy fuel) self this other).
Proof. unfold WeakPtr_assign, Payload.WeakPtr_assign. simpl. agree_tac. Qed.

Lemma agrees_WeakPtr_move_assign fuel self this other :
  agrees (WeakPtr_move_assign self this other)
         (Payload.WeakPtr_move_assign (Payload.destroy fuel) self this other).
Proof. unfold WeakPtr_move_assign, Payload.WeakPtr_move_assign. agree_tac. Qed.

Lemma agrees_try_rethrow {A} (c0 : M A) h0 c h :
  agrees c0 c → agrees h0 h → agrees (try_rethrow c0 h0) (Payload.try_rethrow c h).
Proof.
  intros Hc Hh m. unfold try_rethrow, Payload.try_rethrow. specialize (Hc m).
  destruct (c0 m) as [a m1|e m1|], (c (plain_store m)) as [a' s1|e' s1|s1|];
    simpl in *; try done; destruct Hc as [-> ->]; try done.
  specialize (Hh m1).
  destruct (h0 m1) as [a m2|e2 m2|], (h (plain_store m1)) as [a' s2|e' s2|s2|];
    simpl in *; try done; by destruct Hh as [-> ->].
Qed.

Lemma agrees_MakeShared fuel ctor :
  agrees (MakeShared ctor) (Payload.MakeShared (Payload.destroy fuel) ctor).
Proof.
  unfold MakeShared, Payload.MakeShared.
  apply agrees_bind; [auto with agree|]. intros b.
  apply agrees_bind; [|auto with agree].
  apply agrees_try_rethrow; auto with agree.
Qed.

#[local] Hint Resolve agrees_SharedPtr_Reset_ptr agrees_SharedPtr_assign
  agrees_SharedPtr_move_assign agrees_WeakPtr_assign agrees_WeakPtr_move_assign
  agrees_MakeShared : agree.

Lemma exec_agrees {A} (c0 : M A) c k0 k w :
  agrees c0 c →
  (∀ a m, k a (plain_store m) = plain_world (k0 a m)) →
  same_outcome (exec c0 k0 w) (Payload.exec c k (plain_world w)).
Proof.
  intros Hc Hk. unfold exec, Payload.exec. simpl. specialize (Hc (mem w)).
  destruct (c0 (mem w)) as [a m1|e m1|], (c (plain_store (mem w))) as [a' s1|e' s1|s1|];
    simpl in *; try done; destruct Hc as [-> ->]; first [apply Hk|done].
Qed.

Lemma step_plain fuel op w :
  same_outcome (step op w) (Payload.step fuel (Payload.Do op) (plain_world w)).
Proof.
  destruct op; simpl;
    repeat match goal with
           | |- context [match ?l !! ?i with _ => _ end] => destruct (l !! i)
           end;
    try done;
    apply exec_agrees; auto with agree.
Qed.

Lemma same_outcome_Next w o : same_outcome (Next w) o → o = Payload.Next (plain_world w).
Proof. destruct o; simpl; try done. by intros ->. Qed.

(** A program that gives no payload a pointer member runs with the payload
    destructors as it runs with inert payloads. *)
Lemma run_plain fuel ops w :
  same_outcome (run ops w) (Payload.run fuel (map Payload.Do ops) (plain_world w)).
Proof.
  revert w. induction ops as [|op ops IH]; intros w; [done|].
  simpl map. simpl run. unfold Payload.run; fold Payload.run.
  pose proof (step_plain fuel op w) as Hstep.
  destruct (step op w) as [w1|e w1| |],
    (Payload.step fuel (Payload.Do op) (plain_world w)) as [w1'|e' w1'| |s|];
    simpl in Hstep; try done.
  - subst. apply IH.
  - destruct Hstep as [_ ->]. apply IH.
Qed.

Lemma owns_nothing_plain cs : owns_nothing cs = true → cs = map Payload.Do (plain_ops cs).
Proof.
  induction cs as [|c cs IH]; [done|]. simpl. intros [Hc Hcs]%andb_true_iff.
  destruct c; try done. simpl. by rewrite <- IH.
Qed.

Lemma plain_ops_length cs : owns_nothing cs = true → length (plain_ops cs) = length cs.
Proof.
  intros H. rewrite (owns_nothing_plain cs H) at 2. by rewrite length_map.
Qed.

Lemma run_plain_Next fuel cs w :
  owns_nothing cs = true →
  Payload.run fuel cs Payload.init = Payload.Next w →
  ∃ w0, run (plain_ops cs) init = Next w0 ∧ w = plain_world w0.
Proof.
  intros Hcs Hrun. rewrite (owns_nothing_plain cs Hcs) in Hrun.
  pose proof (run_plain fuel (plain_ops cs) init) as H.
  change (plain_world init) with Payload.init in H. rewrite Hrun in H.
  destruct (run (plain_ops cs) init) as [w0| | |]; simpl in H; try done.
  by exists w0.
Qed.

Lemma step_plain_after fuel op w0 w' :
  payload_after (Payload.step fuel (Payload.Do op) (plain_world w0)) = Some w' →
  ∃ w0', after (step op w0) = Some w0' ∧ w' = plain_world w0'.
Proof.
  intros Hstep. pose proof (step_plain fuel op w0) as H.
  destruct (step op w0) as [w1|e w1| |],
    (Payload.step fuel (Payload.Do op) (plain_world w0)) as [w1'|e' w1'| |s|];
    simpl in *; try done.
  - injection Hstep as <-. by exists w1.
  - injection Hstep as <-. destruct H as [_ ->]. by exists w1.
Qed.

(** X1: a program of shared and weak pointer operations, [Lock] and
    throwing constructors included, none of whose payloads has a pointer
    member, never dereferences a control block that was freed and never
    frees one twice; no payload destructor nests. *)
Theorem programs_never_touch_a_freed_block fuel cs :
  owns_nothing cs = true →
  Z.of_nat (length cs) + 1 < SIZE_MOD →
  (∀ s, Payload.run fuel cs Payload.init ≠ Payload.Undefined s) ∧
  Payload.run fuel cs Payload.init ≠ Payload.OutOfFuel.
Proof.
  intros Hcs Hlen.
  assert (run (plain_ops cs) init ≠ Undefined) as Hdef.
  { apply run_defined; [apply Inv_init|]. apply fits_init.
    by rewrite plain_ops_length. }
  pose proof (run_plain fuel (plain_ops cs) init) as H.
  change (plain_world init) with Payload.init in H.
  rewrite <- (owns_nothing_plain cs Hcs) in H.
  destruct (run (plain_ops cs) init), (Payload.run fuel cs Payload.init); simpl in H; done.
Qed.

Lemma programs_never_touch_a_freed_block_witness :
  Payload.run 0 (map Payload.Do [ONew (Some (ObjAt 7)); WFromShared 0; OReset 0; OLock 0;
                                 WReset 0; OReset 1]%nat) Payload.init
    ≠ Payload.OutOfFuel.
Proof.
  apply (programs_never_touch_a_freed_block 0
           (map Payload.Do [ONew (Some (ObjAt 7)); WFromShared 0; OReset 0; OLock 0;
                            WReset 0; OReset 1]%nat));
    reflexivity.
Defined.

(** X2: in a program none of whose payloads has a pointer member, at every
    point each block identity was allocated at most once, and allocated as
    often as it was freed unless it is still in the store.  Once every
    shared and weak pointer object is empty the store is empty: every block
    allocated was freed exactly once, and every payload a block was
    created with was destroyed exactly once. *)
Theorem every_block_is_freed_once_all_pointers_are_gone fuel cs w :
  Payload.run fuel cs Payload.init = Payload.Next w →
  owns_nothing cs = true →
  Z.of_nat (length cs) + 1 < SIZE_MOD →
  let m := Payload.base (Payload.store w) in
  (∀ b, (allocated b (log m) ≤ 1)%nat ∧
        allocated b (log m) = (freed b (log m) + live b m)%nat) ∧
  ((∀ p, p ∈ Payload.sptrs w → sp_block_ p = None) →
   (∀ p, p ∈ Payload.wptrs w → wp_block_ p = None) →
   heap m = ∅ ∧
   ∀ b, freed b (log m) = allocated b (log m) ∧
        destroyed b (log m) = (if born b (log m) then 1 else 0)%nat).
Proof.
  intros Hrun Hcs Hlen.
  destruct (run_plain_Next fuel cs w Hcs Hrun) as (w0 & Hrun0 & ->).
  apply (inert_run_conserves_blocks (plain_ops cs) w0 Hrun0).
  by rewrite plain_ops_length.
Qed.

Lemma every_block_is_freed_once_all_pointers_are_gone_witness :
  heap (Payload.base (Payload.store (plain_world weak_released_world))) = ∅ ∧
  freed 0 (log (Payload.base (Payload.store (plain_world weak_released_world))))
  = allocated 0 (log (Payload.base (Payload.store (plain_world weak_released_world)))).
Proof.
  pose proof (every_block_is_freed_once_all_pointers_are_gone 0
                (map Payload.Do [ONew (Some (ObjAt 7)); WFromShared 0; OReset 0; WReset 0]%nat)
                (plain_world weak_released_world) eq_refl eq_refl eq_refl) as [_ H].
  destruct H as [H1 H2].
  - intros p Hp. vm_compute in Hp. apply list_elem_of_singleton in Hp. by subst.
  - intros p Hp. vm_compute in Hp. apply list_elem_of_singleton in Hp. by subst.
  - split; [done|]. apply H2.
Defined.

(** X25: in a program that never calls [Lock] and none of whose payloads
    has a pointer member, releasing a weak pointer (by [Reset] or by its
    destructor) never destroys a payload: it returns, leaves the pointer
    empty, and the number of destructions of every block's payload is as
    before, also when the release frees the block. *)
Theorem weak_release_never_destroys_a_payload fuel cs w i wk :
  Payload.run fuel cs Payload.init = Payload.Next w →
  owns_nothing cs = true →
  no_lock (plain_ops cs) = true →
  Z.of_nat (length cs) + 1 < SIZE_MOD →
  Payload.wptrs w !! i = Some wk →
  ∃ w', Payload.step fuel (Payload.Do (WReset i)) w = Payload.Next w' ∧
        Payload.wptrs w' = <[i := WeakPtr_default]> (Payload.wptrs w) ∧
        Payload.objects (Payload.store w') = ∅ ∧
        ∀ b, destroyed b (log (Payload.base (Payload.store w')))
             = destroyed b (log (Payload.base (Payload.store w))).
Proof.
  intros Hrun Hcs Hnl Hlen Hi.
  destruct (run_plain_Next fuel cs w Hcs Hrun) as (w0 & Hrun0 & ->).
  destruct (inert_weak_release_destroys_nothing (plain_ops cs) w0 i wk Hrun0 Hnl)
    as (w0' & Hstep & Hwps & Hdes); [by rewrite plain_ops_length|done|].
  pose proof (step_plain fuel (WReset i) w0) as H. rewrite Hstep in H.
  apply same_outcome_Next in H. exists (plain_world w0'). by rewrite H.
Qed.

Lemma weak_release_never_destroys_a_payload_witness :
  ∃ w', Payload.step 0 (Payload.Do (WReset 0)) (plain_world expired_world) = Payload.Next w' ∧
        Payload.wptrs w' = [WeakPtr_default] ∧
        Payload.objects (Payload.store w') = ∅ ∧
        ∀ b, destroyed b (log (Payload.base (Payload.store w')))
             = destroyed b (log (mem expired_world)).
Proof.
  apply (weak_release_never_destroys_a_payload 0
           (map Payload.Do [ONew (Some (ObjAt 7)); WFromShared 0; OReset 0]%nat)
           (plain_world expired_world) 0%nat
           {| wp_obj_ := Some (ObjAt 7); wp_block_ := Some 0%nat |});
    reflexivity.
Defined.

(** X29: in a program without [Lock] none of whose payloads has a pointer
    member, for a block that exists when an operation starts and was
    created holding a payload, the payload is destroyed during that
    operation exactly when the operation takes the strong count from 1 to
    0; over the whole program (later release of the block included) it is
    destroyed at most once.  A block created on a null handle never sees a
    destruction. *)
Theorem payload_destroyed_exactly_at_last_release fuel cs op w w' b cb :
  Payload.run fuel cs Payload.init = Payload.Next w →
  owns_nothing cs = true →
  no_lock (plain_ops cs ++ [op]) = true →
  Z.of_nat (length cs) + 1 < SIZE_MOD →
  payload_after (Payload.step fuel (Payload.Do op) w) = Some w' →
  heap (Payload.base (Payload.store w)) !! b = Some cb →
  let l := log (Payload.base (Payload.store w)) in
  let l' := log (Payload.base (Payload.store w')) in
  (destroyed b l' ≤ 1)%nat ∧
  (destroyed b l ≤ destroyed b l')%nat ∧
  (born b l = true →
   (destroyed b l' = S (destroyed b l) ↔
    shared_counter_ cb = 1 ∧ strong_count b (Payload.base (Payload.store w')) = 0)) ∧
  (born b l = false → destroyed b l' = 0%nat).
Proof.
  intros Hrun Hcs Hnl Hlen Hstep Hb.
  destruct (run_plain_Next fuel cs w Hcs Hrun) as (w0 & Hrun0 & ->).
  destruct (step_plain_after fuel op w0 w' Hstep) as (w0' & Hstep0 & ->).
  apply (inert_payload_destroyed_at_last_release (plain_ops cs) op w0 w0' b cb);
    try done.
  by rewrite plain_ops_length.
Qed.

Lemma payload_destroyed_exactly_at_last_release_witness :
  destroyed 0 (log (mem last_owner_released_world))
    = S (destroyed 0 (log (mem last_owner_world))) ↔
  1 = 1 ∧ strong_count 0 (mem last_owner_released_world) = 0.
Proof.
  destruct (payload_destroyed_exactly_at_last_release 0
              (map Payload.Do [ONew (Some (ObjAt 7)); OCopy 0; OReset 0]%nat) (OReset 1)
              (plain_world last_owner_world) (plain_world last_owner_released_world) 0%nat
              {| shared_counter_ := 1; weak_counter_ := 0;
                 payload_ := PtrData (Some (ObjAt 7)) |})
    as (_ & _ & H & _); [reflexivity | reflexivity | reflexivity | reflexivity
                        | reflexivity | reflexivity |].
  apply H. reflexivity.
Defined.
